(** * deck.gl graph layer: Graph, sub-graph extraction and force-directed layout

    A shallow embedding of the classes [Graph], [GraphNode], [GraphEdge] and
    [GraphLayoutForceDirected], with the properties of the specification
    stated over it.

    - JavaScript objects that are mutated and shared (the graph nodes) live
      in a store indexed by object identity; everything else is passed by
      value.
    - A JavaScript [Map] is an association list in insertion order.
    - Numbers of the layout are exact reals extended with the IEEE values
      [+Infinity], [-Infinity] and [NaN]. *)

From Stdlib Require Import List String Ascii Arith Bool Lia.
From Stdlib Require Import Permutation Sorted.
From Stdlib Require Import Reals Lra.
Import ListNotations.

(* ================================================================== *)
(** * Results of calls that may throw *)

Inductive Result (A : Type) : Type :=
| Ok (a : A)
| TypeError      (* a property of [undefined] was read or written *)
| OutOfFuel.     (* the bound on loop iterations was reached *)

Arguments Ok {A} a.
Arguments TypeError {A}.
Arguments OutOfFuel {A}.

Definition bind {A B} (r : Result A) (f : A -> Result B) : Result B :=
  match r with
  | Ok a => f a
  | TypeError => TypeError
  | OutOfFuel => OutOfFuel
  end.

Notation "x <- r ;; k" := (bind r (fun x => k))
  (at level 61, r at next level, right associativity).

(* ================================================================== *)
(** * JavaScript [Map]: association list in insertion order *)

Class EqKey (K : Type) := {
  keyb : K -> K -> bool;
  keyb_spec : forall x y, reflect (x = y) (keyb x y)
}.

#[export] Instance EqKey_string : EqKey string :=
  {| keyb := String.eqb; keyb_spec := String.eqb_spec |}.

#[export] Instance EqKey_nat : EqKey nat :=
  {| keyb := Nat.eqb; keyb_spec := Nat.eqb_spec |}.

Module JSMap.
Section Ops.
Context {K V : Type} `{EqKey K}.

Definition t := list (K * V).

Definition empty : t := [].

Fixpoint get (m : t) (k : K) : option V :=
  match m with
  | [] => None
  | (k', v) :: m' => if keyb k k' then Some v else get m' k
  end.

Definition has (m : t) (k : K) : bool :=
  match get m k with Some _ => true | None => false end.

(** [set] on a present key replaces the value and keeps the position; on
    an absent key it appends. *)
Fixpoint set (m : t) (k : K) (v : V) : t :=
  match m with
  | [] => [(k, v)]
  | (k', v') :: m' =>
      if keyb k k' then (k', v) :: m' else (k', v') :: set m' k v
  end.

Definition keys (m : t) : list K := map fst m.
Definition values (m : t) : list V := map snd m.
Definition size (m : t) : nat := List.length m.
End Ops.
Arguments t : clear implicits.
End JSMap.

(* ================================================================== *)
(** * Data model *)

(** Identity of a [GraphNode] object. *)
Definition ref := nat.

(** [node.distance] / [edge.distance]: [Infinity] or a hop count. *)
Inductive Distance : Type :=
| Infinity
| Hops (n : nat).

Definition Distance_eqb (a b : Distance) : bool :=
  match a, b with
  | Infinity, Infinity => true
  | Hops n, Hops m => Nat.eqb n m
  | _, _ => false
  end.

(** [d + 1] *)
Definition Distance_succ (d : Distance) : Distance :=
  match d with
  | Infinity => Infinity
  | Hops n => Hops (S n)
  end.

(** [d > k] *)
Definition Distance_gtb (d : Distance) (k : nat) : bool :=
  match d with
  | Infinity => true
  | Hops n => Nat.ltb k n
  end.

(** [{type}]: the attributes object of a node; [None] is [undefined]. *)
Record NodeAttributes := { type : option string }.

(** class GraphNode: constructor({id, type}) sets
    id, adjacentSet = new Set(), distance = Infinity, degree = 0,
    attributes = {type}.  The adjacent set holds node references in
    insertion order. *)
Record GraphNode := {
  id : string;
  adjacentSet : list ref;
  distance : Distance;
  degree : nat;
  attributes : NodeAttributes
}.

Definition GraphNode_new (id0 : string) (type0 : option string) : GraphNode :=
  {| id := id0; adjacentSet := []; distance := Infinity; degree := 0;
     attributes := {| type := type0 |} |}.

(** addAdjacentNode(node): [Set.add] ignores a member; [degree] counts calls. *)
Definition addAdjacentNode (n : GraphNode) (node : ref) : GraphNode :=
  {| id := id n;
     adjacentSet := if existsb (Nat.eqb node) (adjacentSet n)
                    then adjacentSet n else adjacentSet n ++ [node];
     distance := distance n;
     degree := S (degree n);
     attributes := attributes n |}.

Record EdgeAttributes := { edge_type : option string; strength : nat }.

(** class GraphEdge: constructor({id, node0, node1, type}).  Edge objects are
    never written after construction, so they are passed by value. *)
Record GraphEdge := {
  edge_id : string;
  node0 : ref;
  node1 : ref;
  edge_distance : Distance;
  edge_attributes : EdgeAttributes
}.

(** The store of node objects: [cell h r] is the object with identity [r];
    the objects allocated so far are those below [size h]. *)
Record Heap := {
  size : nat;
  cell : ref -> GraphNode
}.

Definition set_distance (h : Heap) (r : ref) (d : Distance) : Heap :=
  {| size := size h;
     cell := fun r' =>
       if Nat.eqb r' r
       then {| id := id (cell h r); adjacentSet := adjacentSet (cell h r);
               distance := d; degree := degree (cell h r);
               attributes := attributes (cell h r) |}
       else cell h r' |}.

Definition null_node : GraphNode := GraphNode_new EmptyString None.

Definition heap_of_list (l : list GraphNode) : Heap :=
  {| size := List.length l; cell := fun r => nth r l null_node |}.

(** class Graph.  [parentGraph], [layout] and the interval timer of the
    constructor are provenance and scheduling only and are left out;
    [isSubGraph] records whether a parent was given. *)
Record Graph := {
  nodes : JSMap.t string ref;
  edges : JSMap.t string GraphEdge;
  nodeIndexMap : JSMap.t string nat;
  nodeMap : JSMap.t nat ref;
  edgeIndexMap : JSMap.t string nat;
  edgeIDMap : JSMap.t nat string;
  edgeNodeIndex : list nat;
  numberOfNodes : nat;
  numberOfEdges : nat;
  isSubGraph : bool;
  layoutRunning : bool;
  dataStructureChanged : bool;
  dataChanged : bool
}.

Definition Graph_new (hasParent : bool) : Graph :=
  {| nodes := JSMap.empty; edges := JSMap.empty;
     nodeIndexMap := JSMap.empty; nodeMap := JSMap.empty;
     edgeIndexMap := JSMap.empty; edgeIDMap := JSMap.empty;
     edgeNodeIndex := [];
     numberOfNodes := 0; numberOfEdges := 0;
     isSubGraph := hasParent;
     layoutRunning := false;
     dataStructureChanged := false; dataChanged := false |}.

(** addNode(node) *)
Definition addNode (h : Heap) (this : Graph) (node : ref) : Graph :=
  if negb (JSMap.has (nodes this) (id (cell h node))) then
    {| nodes := JSMap.set (nodes this) (id (cell h node)) node;
       edges := edges this;
       nodeIndexMap := nodeIndexMap this; nodeMap := nodeMap this;
       edgeIndexMap := edgeIndexMap this; edgeIDMap := edgeIDMap this;
       edgeNodeIndex := edgeNodeIndex this;
       numberOfNodes := S (numberOfNodes this);
       numberOfEdges := numberOfEdges this;
       isSubGraph := isSubGraph this;
       layoutRunning := layoutRunning this;
       dataStructureChanged := true;
       dataChanged := dataChanged this |}
  else this.

(** addEdge(edge) *)
Definition addEdge (this : Graph) (edge : GraphEdge) : Graph :=
  if negb (JSMap.has (edges this) (edge_id edge)) then
    {| nodes := nodes this;
       edges := JSMap.set (edges this) (edge_id edge) edge;
       nodeIndexMap := nodeIndexMap this; nodeMap := nodeMap this;
       edgeIndexMap := edgeIndexMap this; edgeIDMap := edgeIDMap this;
       edgeNodeIndex := edgeNodeIndex this;
       numberOfNodes := numberOfNodes this;
       numberOfEdges := S (numberOfEdges this);
       isSubGraph := isSubGraph this;
       layoutRunning := layoutRunning this;
       dataStructureChanged := true;
       dataChanged := dataChanged this |}
  else this.

(* ================================================================== *)
(** * Graph.generateSubGraph *)

(** Field updates of a [Graph] object. *)
Definition set_subGraph_node (g : Graph) (key : string) (index : nat)
    (node : ref) : Graph :=
  {| nodes := JSMap.set (nodes g) key node;
     edges := edges g;
     nodeIndexMap := JSMap.set (nodeIndexMap g) key index;
     nodeMap := JSMap.set (nodeMap g) index node;
     edgeIndexMap := edgeIndexMap g; edgeIDMap := edgeIDMap g;
     edgeNodeIndex := edgeNodeIndex g;
     numberOfNodes := numberOfNodes g; numberOfEdges := numberOfEdges g;
     isSubGraph := isSubGraph g; layoutRunning := layoutRunning g;
     dataStructureChanged := dataStructureChanged g;
     dataChanged := dataChanged g |}.

Definition set_subGraph_edge (g : Graph) (index : nat) (edge : GraphEdge)
    : Graph :=
  {| nodes := nodes g;
     edges := JSMap.set (edges g) (edge_id edge) edge;
     nodeIndexMap := nodeIndexMap g; nodeMap := nodeMap g;
     edgeIndexMap := JSMap.set (edgeIndexMap g) (edge_id edge) index;
     edgeIDMap := JSMap.set (edgeIDMap g) index (edge_id edge);
     edgeNodeIndex := edgeNodeIndex g;
     numberOfNodes := numberOfNodes g; numberOfEdges := numberOfEdges g;
     isSubGraph := isSubGraph g; layoutRunning := layoutRunning g;
     dataStructureChanged := dataStructureChanged g;
     dataChanged := dataChanged g |}.

Definition set_subGraph_counts (g : Graph) (idx : list nat) (n m : nat)
    : Graph :=
  {| nodes := nodes g; edges := edges g;
     nodeIndexMap := nodeIndexMap g; nodeMap := nodeMap g;
     edgeIndexMap := edgeIndexMap g; edgeIDMap := edgeIDMap g;
     edgeNodeIndex := idx;
     numberOfNodes := n; numberOfEdges := m;
     isSubGraph := isSubGraph g; layoutRunning := layoutRunning g;
     dataStructureChanged := dataStructureChanged g;
     dataChanged := dataChanged g |}.

(** The property names a [for (const x in it)] loop enumerates when [it] is
    the iterator returned by [Map.prototype.values()]: the enumerable
    string-keyed properties of the iterator object.  A Map iterator has no
    own properties, and [next] on its prototype is not enumerable. *)
Definition for_in_MapIterator {V : Type} (values : list V) : list string := [].

(** _resetDistance().  Both loops are [for ... in] loops over a Map
    iterator.  Their body assigns a property of the enumerated name, a
    string, which throws in the strict code of a class body. *)
Definition _resetDistance (h : Heap) (this : Graph) : Result Heap :=
  _ <- fold_left (fun (acc : Result unit) (node : string) =>
                    _ <- acc ;; TypeError)
         (for_in_MapIterator (JSMap.values (nodes this))) (Ok tt) ;;
  _ <- fold_left (fun (acc : Result unit) (edge : string) =>
                    _ <- acc ;; TypeError)
         (for_in_MapIterator (JSMap.values (edges this))) (Ok tt) ;;
  Ok h.

(** [node.attributes.type === s] *)
Definition type_is (n : GraphNode) (s : string) : bool :=
  match type (attributes n) with
  | Some t => String.eqb t s
  | None => false
  end.

(** The loop that picks the seed when [startNodeID] is undefined; the state
    is [(maxEdge, maxNodeID)]. *)
Definition defaultSeed_step (h : Heap) (st : nat * option string)
    (entry : string * ref) : nat * option string :=
  let node := cell h (snd entry) in
  if Nat.ltb (fst st) (degree node) && type_is node "driver"
  then (List.length (adjacentSet node), Some (fst entry))
  else st.

Definition defaultSeed (h : Heap) (this : Graph) : option string :=
  snd (fold_left (defaultSeed_step h) (nodes this) (0, None)).

(** The template string [`${a}_${b}`]. *)
Definition edge_key (a b : string) : string :=
  String.append a (String.append "_" b).

(** _getEdgeIDFromNodes(edges, node1, node2) *)
Definition _getEdgeIDFromNodes (edges : JSMap.t string GraphEdge)
    (node1 node2 : GraphNode) : option GraphEdge :=
  if JSMap.has edges (edge_key (id node1) (id node2))
  then JSMap.get edges (edge_key (id node1) (id node2))
  else if JSMap.has edges (edge_key (id node2) (id node1))
  then JSMap.get edges (edge_key (id node2) (id node1))
  else None.

(** The variables of the breadth-first loop. *)
Record BFS := {
  heap : Heap;
  queue : list ref;
  subGraph : Graph;
  nodeCount : nat;
  edgeCount : nat
}.

(** [if (item.distance === Infinity) { item.distance = current.distance + 1;
    queue.push(item); }] *)
Definition visit_distance (current : ref) (s : BFS) (item : ref) : BFS :=
  if Distance_eqb (distance (cell (heap s) item)) Infinity
  then {| heap := set_distance (heap s) item
                    (Distance_succ (distance (cell (heap s) current)));
          queue := queue s ++ [item];
          subGraph := subGraph s;
          nodeCount := nodeCount s; edgeCount := edgeCount s |}
  else s.

(** [const edge = this._getEdgeIDFromNodes(this.edges, current, item);
    if (edge && !this.subGraph.edgeIndexMap.has(edge.id)) { ... }] *)
Definition visit_edge (edges : JSMap.t string GraphEdge) (current : ref)
    (s : BFS) (item : ref) : BFS :=
  match _getEdgeIDFromNodes edges (cell (heap s) current)
          (cell (heap s) item) with
  | Some edge =>
      if negb (JSMap.has (edgeIndexMap (subGraph s)) (edge_id edge))
      then {| heap := heap s; queue := queue s;
              subGraph := set_subGraph_edge (subGraph s) (edgeCount s) edge;
              nodeCount := nodeCount s; edgeCount := S (edgeCount s) |}
      else s
  | None => s
  end.

(** One iteration of [for (const item of current.adjacentSet)]. *)
Definition visit (edges : JSMap.t string GraphEdge) (current : ref)
    (s : BFS) (item : ref) : BFS :=
  visit_edge edges current (visit_distance current s item) item.

(** [while (queue.length !== 0)]: [fuel] bounds the number of times the
    loop condition is evaluated. *)
Fixpoint bfs (fuel : nat) (edges : JSMap.t string GraphEdge) (numHops : nat)
    (s : BFS) : Result BFS :=
  match fuel with
  | 0 => OutOfFuel
  | S fuel' =>
      match queue s with
      | [] => Ok s
      | current :: rest =>
          if Distance_gtb (distance (cell (heap s) current)) numHops
          then Ok {| heap := heap s; queue := rest; subGraph := subGraph s;
                     nodeCount := nodeCount s; edgeCount := edgeCount s |}
          else
            let s1 :=
              {| heap := heap s; queue := rest;
                 subGraph := set_subGraph_node (subGraph s)
                               (id (cell (heap s) current)) (nodeCount s)
                               current;
                 nodeCount := S (nodeCount s); edgeCount := edgeCount s |} in
            bfs fuel' edges numHops
              (fold_left (visit edges current)
                 (adjacentSet (cell (heap s) current)) s1)
      end
  end.

(** The loop that fills [edgeNodeIndex]. *)
Definition push_edgeNodeIndex (h : Heap) (sub : Graph) (acc : list nat)
    (edge : GraphEdge) : list nat :=
  match JSMap.get (nodeIndexMap sub) (id (cell h (node0 edge))),
        JSMap.get (nodeIndexMap sub) (id (cell h (node1 edge))) with
  | Some node0Index, Some node1Index => acc ++ [node0Index; node1Index]
  | _, _ => acc
  end.

(** generateSubGraph({startNodeID, numHops = 3}).  Returns the store after
    the call and the sub-graph.  Every node is enqueued at most once, so the
    loop condition is evaluated at most [size h + 1] times. *)
Definition generateSubGraph (h : Heap) (this : Graph)
    (startNodeID : option string) (numHops : option nat)
    : Result (Heap * Graph) :=
  let numHops := match numHops with Some k => k | None => 3 end in
  let startNodeID :=
    match startNodeID with
    | Some s => Some s
    | None => defaultSeed h this
    end in
  h <- _resetDistance h this ;;
  match startNodeID with
  | None => TypeError            (* nodes.get(undefined) is undefined *)
  | Some key =>
      match JSMap.get (nodes this) key with
      | None => TypeError        (* root.distance = 0 on undefined *)
      | Some root =>
          s <- bfs (S (size h)) (edges this) numHops
                 {| heap := set_distance h root (Hops 0);
                    queue := [root];
                    subGraph := Graph_new true;
                    nodeCount := 0; edgeCount := 0 |} ;;
          Ok (heap s,
              set_subGraph_counts (subGraph s)
                (fold_left (push_edgeNodeIndex (heap s) (subGraph s))
                   (JSMap.values (edges (subGraph s)))
                   (edgeNodeIndex (subGraph s)))
                (nodeCount s) (edgeCount s))
      end
  end.

(** ** Example graphs *)

Open Scope string_scope.

(** A(driver) - B(rider), A - C(rider), with edges A_B and A_C. *)
Definition exA : GraphNode :=
  {| id := "A"; adjacentSet := [1; 2]; distance := Infinity; degree := 2;
     attributes := {| type := Some "driver" |} |}.
Definition exB : GraphNode :=
  {| id := "B"; adjacentSet := [0]; distance := Infinity; degree := 1;
     attributes := {| type := Some "rider" |} |}.
Definition exC : GraphNode :=
  {| id := "C"; adjacentSet := [0]; distance := Infinity; degree := 1;
     attributes := {| type := Some "rider" |} |}.
Definition exHeap : Heap := heap_of_list [exA; exB; exC].

Definition exEdge (k : string) (a b : ref) : GraphEdge :=
  {| edge_id := k; node0 := a; node1 := b; edge_distance := Infinity;
     edge_attributes := {| edge_type := None; strength := 1 |} |}.

Definition exGraph : Graph :=
  addEdge (addEdge (fold_left (addNode exHeap) [0; 1; 2] (Graph_new false))
             (exEdge "A_B" 0 1)) (exEdge "A_C" 0 2).

(** A single driver node without neighbours. *)
Definition exLoneHeap : Heap :=
  heap_of_list [GraphNode_new "D" (Some "driver")].

Definition exLoneGraph : Graph := addNode exLoneHeap (Graph_new false) 0.

(** Two drivers; the first was given the same neighbour three times, so
    its degree is 3 and its adjacent set has one member. *)
Definition exDupHeap : Heap :=
  heap_of_list
    [addAdjacentNode
       (addAdjacentNode
          (addAdjacentNode (GraphNode_new "P" (Some "driver")) 2) 2) 2;
     addAdjacentNode
       (addAdjacentNode (GraphNode_new "Q" (Some "driver")) 2) 3;
     GraphNode_new "R" (Some "rider");
     GraphNode_new "S" (Some "rider")].

Definition exDupGraph : Graph :=
  fold_left (addNode exDupHeap) [0; 1; 2; 3] (Graph_new false).

Close Scope string_scope.


(* ================================================================== *)
(** * Numbers of the layout *)

(** A JavaScript number, without rounding: an exact real, or one of the
    three IEEE values that are not finite.  There is a single zero; the
    divisors of this program are square roots and squares, which are never
    the negative zero. *)
Inductive num : Type :=
| Fin (x : R)
| PInf
| NInf
| NaN.

Definition num_neg (a : num) : num :=
  match a with
  | Fin x => Fin (- x)
  | PInf => NInf
  | NInf => PInf
  | NaN => NaN
  end.

Definition num_add (a b : num) : num :=
  match a, b with
  | Fin x, Fin y => Fin (x + y)
  | NaN, _ | _, NaN => NaN
  | PInf, NInf | NInf, PInf => NaN
  | PInf, _ | _, PInf => PInf
  | NInf, _ | _, NInf => NInf
  end.

Definition num_sub (a b : num) : num := num_add a (num_neg b).

Definition Inf_of_sign (positive : bool) : num :=
  if positive then PInf else NInf.

(** [±Infinity * x] for a real [x]. *)
Definition num_mul_inf (positive : bool) (x : R) : num :=
  if Rlt_dec 0 x then Inf_of_sign positive
  else if Rlt_dec x 0 then Inf_of_sign (negb positive)
  else NaN.

Definition num_mul (a b : num) : num :=
  match a, b with
  | Fin x, Fin y => Fin (x * y)
  | NaN, _ | _, NaN => NaN
  | PInf, Fin y | Fin y, PInf => num_mul_inf true y
  | NInf, Fin y | Fin y, NInf => num_mul_inf false y
  | PInf, PInf | NInf, NInf => PInf
  | PInf, NInf | NInf, PInf => NInf
  end.

Definition num_div (a b : num) : num :=
  match a, b with
  | NaN, _ | _, NaN => NaN
  | Fin x, Fin y => if Req_EM_T y 0 then num_mul_inf true x else Fin (x / y)
  | Fin _, PInf | Fin _, NInf => Fin 0
  | PInf, Fin y => if Rlt_dec y 0 then NInf else PInf
  | NInf, Fin y => if Rlt_dec y 0 then PInf else NInf
  | _, _ => NaN
  end.

(** Math.sqrt *)
Definition num_sqrt (a : num) : num :=
  match a with
  | Fin x => if Rlt_dec x 0 then NaN else Fin (sqrt x)
  | PInf => PInf
  | NInf => NaN
  | NaN => NaN
  end.

(** [a > b] *)
Definition num_gtb (a b : num) : bool :=
  match a, b with
  | Fin x, Fin y => if Rlt_dec y x then true else false
  | PInf, Fin _ | PInf, NInf | Fin _, NInf => true
  | _, _ => false
  end.

(** [a < b] *)
Definition num_ltb (a b : num) : bool := num_gtb b a.

Definition is_finite (a : num) : Prop :=
  match a with
  | Fin _ => True
  | _ => False
  end.

(** The values that occur besides numbers. *)
Inductive JSValue : Type :=
| VUndefined
| VNumber (n : num)
| VString (s : string)
| VObject.

(** [v === s] for a string literal [s]. *)
Definition strict_eq_string (v : JSValue) (s : string) : bool :=
  match v with
  | VString t => String.eqb t s
  | _ => false
  end.

(* ================================================================== *)
(** * Arrays *)

(** A JavaScript Array: [None] is a hole, which reads as [undefined]. *)
Definition Array (A : Type) : Type := list (option A).

(** [new Array(n)] for a number [n]. *)
Definition Array_new {A : Type} (n : nat) : Array A := repeat None n.

(** [new Array(v)] for an argument [v] that may not be a number: a single
    argument that is not a number becomes the only element. *)
Definition Array_new_of (v : JSValue) (length_of : num -> nat)
    : Array JSValue :=
  match v with
  | VNumber n => Array_new (length_of n)
  | _ => [Some v]
  end.

(** [a[i]]; [None] is [undefined]. *)
Definition Array_get {A : Type} (a : Array A) (i : nat) : option A :=
  match nth_error a i with
  | Some v => v
  | None => None
  end.

(** [a[i] = v]; a write past the end extends the array with holes. *)
Fixpoint Array_set {A : Type} (a : Array A) (i : nat) (v : A) : Array A :=
  match a, i with
  | [], 0 => [Some v]
  | [], S i' => None :: Array_set [] i' v
  | _ :: a', 0 => Some v :: a'
  | x :: a', S i' => x :: Array_set a' i' v
  end.

(** [undefined] in arithmetic is [NaN]. *)
Definition ToNumber (v : option num) : num :=
  match v with
  | Some x => x
  | None => NaN
  end.

(** A Float64Array.  A read past the end is [undefined]; a write past the
    end is ignored. *)
Definition Float64Array : Type := list num.

Definition Float64Array_new (n : nat) : Float64Array := repeat (Fin 0) n.

Definition f64_get (a : Float64Array) (i : nat) : num := nth i a NaN.

Fixpoint f64_set (a : Float64Array) (i : nat) (v : num) : Float64Array :=
  match a, i with
  | [], _ => []
  | _ :: a', 0 => v :: a'
  | x :: a', S i' => x :: f64_set a' i' v
  end.

(** Reads and writes at an index that may be [undefined]. *)
Definition f64_get_at (a : Float64Array) (i : option nat) : num :=
  match i with
  | Some i => f64_get a i
  | None => NaN
  end.

Definition f64_set_at (a : Float64Array) (i : option nat) (v : num)
    : Float64Array :=
  match i with
  | Some i => f64_set a i v
  | None => a
  end.

Fixpoint foldM {S A : Type} (f : S -> A -> Result S) (l : list A) (s : S)
    : Result S :=
  match l with
  | [] => Ok s
  | x :: l' => s' <- f s x ;; foldM f l' s'
  end.

(* ================================================================== *)
(** * GraphLayoutForceDirected *)

Module Layout.

(** [this.graph.numberOfNodes] *)
Definition graph_numberOfNodes (g : Graph) : nat := numberOfNodes g.

(** The properties of a GraphNode object by name; [node.type] reads a
    property that the GraphNode constructor never defines (the type is
    stored in [node.attributes]). *)
Definition GraphNode_property (node : GraphNode) (name : string) : JSValue :=
  if String.eqb name "id" then VString (id node)
  else if String.eqb name "degree" then VNumber (Fin (INR (degree node)))
  else if String.eqb name "distance" then
    VNumber (match distance node with
             | Infinity => PInf
             | Hops n => Fin (INR n)
             end)
  else if String.eqb name "adjacentSet" then VObject
  else if String.eqb name "attributes" then VObject
  else VUndefined.

(** The fields of a layout object.  [startTime] and [currentTime] are left
    out.  [graph] is the graph the layout was built for. *)
Record t := {
  id : string;
  graph : Graph;
  numberOfNodes : nat;
  startStep : nat;
  currentStep : nat;
  dof : nat;
  dt : num;
  ka : num;
  kr2 : num;
  ks : num;
  ks2 : num;
  damping : num;
  balanceLength : num;
  position : Array (Array num);
  color : Array (list num);
  size : Array num;
  mass : Array num;
  edgePosition : Array JSValue;
  distance : Float64Array;
  direction : Float64Array;
  acceleration : Float64Array;
  velocity : Float64Array;
  ymean : Float64Array
}.

(** Field updates. *)
Definition with_dt (this : t) (v : num) : t :=
  {| id := id this; graph := graph this;
     numberOfNodes := numberOfNodes this;
     startStep := startStep this; currentStep := currentStep this;
     dof := dof this; dt := v; ka := ka this; kr2 := kr2 this;
     ks := ks this; ks2 := ks2 this; damping := damping this;
     balanceLength := balanceLength this;
     position := position this; color := color this; size := size this;
     mass := mass this; edgePosition := edgePosition this;
     distance := distance this; direction := direction this;
     acceleration := acceleration this; velocity := velocity this;
     ymean := ymean this |}.

Definition with_currentStep (this : t) (v : nat) : t :=
  {| id := id this; graph := graph this;
     numberOfNodes := numberOfNodes this;
     startStep := startStep this; currentStep := v;
     dof := dof this; dt := dt this; ka := ka this; kr2 := kr2 this;
     ks := ks this; ks2 := ks2 this; damping := damping this;
     balanceLength := balanceLength this;
     position := position this; color := color this; size := size this;
     mass := mass this; edgePosition := edgePosition this;
     distance := distance this; direction := direction this;
     acceleration := acceleration this; velocity := velocity this;
     ymean := ymean this |}.

Definition with_position (this : t) (p : Array (Array num))
    (ym : Float64Array) : t :=
  {| id := id this; graph := graph this;
     numberOfNodes := numberOfNodes this;
     startStep := startStep this; currentStep := currentStep this;
     dof := dof this; dt := dt this; ka := ka this; kr2 := kr2 this;
     ks := ks this; ks2 := ks2 this; damping := damping this;
     balanceLength := balanceLength this;
     position := p; color := color this; size := size this;
     mass := mass this; edgePosition := edgePosition this;
     distance := distance this; direction := direction this;
     acceleration := acceleration this; velocity := velocity this;
     ymean := ym |}.

Definition with_distance_direction (this : t) (dist dir : Float64Array) : t :=
  {| id := id this; graph := graph this;
     numberOfNodes := numberOfNodes this;
     startStep := startStep this; currentStep := currentStep this;
     dof := dof this; dt := dt this; ka := ka this; kr2 := kr2 this;
     ks := ks this; ks2 := ks2 this; damping := damping this;
     balanceLength := balanceLength this;
     position := position this; color := color this; size := size this;
     mass := mass this; edgePosition := edgePosition this;
     distance := dist; direction := dir;
     acceleration := acceleration this; velocity := velocity this;
     ymean := ymean this |}.

Definition with_acceleration (this : t) (ym acc : Float64Array) : t :=
  {| id := id this; graph := graph this;
     numberOfNodes := numberOfNodes this;
     startStep := startStep this; currentStep := currentStep this;
     dof := dof this; dt := dt this; ka := ka this; kr2 := kr2 this;
     ks := ks this; ks2 := ks2 this; damping := damping this;
     balanceLength := balanceLength this;
     position := position this; color := color this; size := size this;
     mass := mass this; edgePosition := edgePosition this;
     distance := distance this; direction := direction this;
     acceleration := acc; velocity := velocity this;
     ymean := ym |}.

Definition with_velocity (this : t) (v : Float64Array) : t :=
  {| id := id this; graph := graph this;
     numberOfNodes := numberOfNodes this;
     startStep := startStep this; currentStep := currentStep this;
     dof := dof this; dt := dt this; ka := ka this; kr2 := kr2 this;
     ks := ks this; ks2 := ks2 this; damping := damping this;
     balanceLength := balanceLength this;
     position := position this; color := color this; size := size this;
     mass := mass this; edgePosition := edgePosition this;
     distance := distance this; direction := direction this;
     acceleration := acceleration this; velocity := v;
     ymean := ymean this |}.

(** ** The random source

    [Math.random] is ambient.  [gaussRandom] resamples until a pair falls
    inside the unit disk; its successive results are taken from the stream
    [gauss], and the state of the source is the number of results
    consumed. *)
Definition gaussRandom (gauss : nat -> R) (consumed : nat) : num * nat :=
  (Fin (gauss consumed), S consumed).

(** randn(mu, std) *)
Definition randn (gauss : nat -> R) (mu std : num) (consumed : nat)
    : num * nat :=
  let (g, consumed) := gaussRandom gauss consumed in
  (num_add mu (num_mul g std), consumed).

(** ** Initial values of a node *)

(** _initializeNodePosition(node, index) *)
Definition _initializeNodePosition (this_dof : nat) (gauss : nat -> R)
    (consumed : nat) : Array num * nat :=
  fold_left
    (fun (acc : Array num * nat) (i : nat) =>
       let (ret, consumed) := acc in
       let (x, consumed) := randn gauss (Fin 0) (Fin 2) consumed in
       let ret := Array_set ret i x in
       let ret :=
         if Nat.eqb i 2
         then Array_set ret i (num_mul (ToNumber (Array_get ret i)) (Fin 2))
         else ret in
       (ret, consumed))
    (seq 0 this_dof) (Array_new this_dof, consumed).

(** _initializeNodeSize(node, index) *)
Definition _initializeNodeSize (node : GraphNode) (index : nat) : num :=
  Fin (3 / 10).

(** _initializeNodeMass(node, index) *)
Definition _initializeNodeMass (node : GraphNode) (index : nat) : num :=
  if strict_eq_string (GraphNode_property node "type") "device"
  then num_mul (Fin (INR (degree node))) (Fin 2)
  else num_div (Fin (INR (degree node))) (Fin 10).

(** _initializeNodeColor(node, index) *)
Definition _initializeNodeColor (node : GraphNode) (index : nat) : list num :=
  let color :=
    match type (attributes node) with
    | Some s =>
        if String.eqb s "driver" then [Fin 228; Fin 26; Fin 28; Fin 255]
        else if String.eqb s "rider" then [Fin 55; Fin 126; Fin 184; Fin 255]
        else if String.eqb s "user" then [Fin 128; Fin 128; Fin 128; Fin 255]
        else if String.eqb s "device"
        then [Fin 253; Fin 191; Fin 111; Fin 255]
        else if String.eqb s "trip" then [Fin 0; Fin 255; Fin 0; Fin 255]
        else [Fin 255; Fin 255; Fin 255; Fin 255]
    | None => [Fin 255; Fin 255; Fin 255; Fin 255]
    end in
  map (fun x => num_div x (Fin 255)) color.

(** ** The constructor *)

(** [this.numberOfEdges] on the layout object: no constructor of the class
    chain assigns this property (the edge count is a property of
    [this.graph]), so the read is [undefined]. *)
Definition this_numberOfEdges : JSValue := VUndefined.

(** The array length that a number denotes; only whole numbers are
    lengths. *)
Definition length_of_number (n : num) : nat :=
  match n with
  | Fin x => Z.to_nat (Int_part x)
  | _ => 0
  end.

(** One iteration of [for (const [index, node] of this.graph.nodeMap)]. *)
Definition initializeNode (h : Heap) (this_dof : nat) (gauss : nat -> R)
    (acc : Array (Array num) * Array (list num) * Array num * Array num * nat)
    (entry : nat * ref) :=
  let '(position, color, size, mass, consumed) := acc in
  let (index, node) := entry in
  let (p, consumed) := _initializeNodePosition this_dof gauss consumed in
  (Array_set position index p,
   Array_set color index (_initializeNodeColor (cell h node) index),
   Array_set size index (_initializeNodeSize (cell h node) index),
   Array_set mass index (_initializeNodeMass (cell h node) index),
   consumed).

(** constructor({id, graph, dof}); [h] is the store of the node objects. *)
Definition constructor (h : Heap) (gauss : nat -> R) (id0 : string)
    (graph0 : Graph) (dof0 : nat) : t :=
  let N := graph_numberOfNodes graph0 in
  let '(position0, color0, size0, mass0, consumed) :=
    fold_left (initializeNode h dof0 gauss) (nodeMap graph0)
      (Array_new N, Array_new N, Array_new N, Array_new N, 0) in
  let velocity0 := Float64Array_new (N * dof0) in
  let velocity1 :=
    fst (fold_left
           (fun (acc : Float64Array * nat) (i : nat) =>
              let (v, consumed) := acc in
              let (x, consumed) := randn gauss (Fin 0) (Fin 1) consumed in
              (f64_set v i x, consumed))
           (seq 0 (List.length velocity0 * dof0)) (velocity0, consumed)) in
  {| id := id0; graph := graph0;
     numberOfNodes := N;
     startStep := 0; currentStep := 0;
     dof := dof0;
     dt := Fin 10;
     ka := Fin (1 / 1000); kr2 := Fin (1 / 1000);
     ks := Fin (1 / 1000); ks2 := Fin (1 / 100);
     damping := Fin (95 / 100);
     balanceLength := Fin 4;
     position := position0; color := color0; size := size0; mass := mass0;
     edgePosition := Array_new_of this_numberOfEdges length_of_number;
     distance := Float64Array_new (N * N);
     direction := Float64Array_new (N * N * dof0);
     acceleration := Float64Array_new (N * dof0);
     velocity := velocity1;
     ymean := Float64Array_new dof0 |}.

(** ** Accessors *)

Definition getNodePosition (this : t) : Array (Array num) := position this.
Definition getNodeColor (this : t) : Array (list num) := color this.
Definition getNodeSize (this : t) : Array num := size this.
Definition getEdgePosition (this : t) : Array JSValue := edgePosition this.

(** ** Pairwise distances and directions *)

(** _L2(a, b); [None] is an [undefined] argument. *)
Definition _L2 (a b : option (Array num)) : Result num :=
  match a with
  | None => TypeError
  | Some a =>
      foldM
        (fun (d : num) (i : nat) =>
           match b with
           | None => TypeError
           | Some b =>
               let ai := ToNumber (Array_get a i) in
               let bi := ToNumber (Array_get b i) in
               Ok (num_add d (num_mul (num_sub ai bi) (num_sub ai bi)))
           end)
        (seq 0 (List.length a)) (Fin 0)
  end.

(** [x[k]] for a row [x] that may be [undefined]. *)
Definition row_get (x : option (Array num)) (k : nat) : Result num :=
  match x with
  | None => TypeError
  | Some x => Ok (ToNumber (Array_get x k))
  end.

(** The body of [for (let k = 0; k < this.dof; k++)] in _xtod. *)
Definition xtod_k (N dof0 : nat) (data : Array (Array num)) (i j : nat)
    (d : num) (direction0 : Float64Array) (k : nat) : Result Float64Array :=
  xi <- row_get (Array_get data i) k ;;
  xj <- row_get (Array_get data j) k ;;
  let direction1 :=
    f64_set direction0 (i * N * dof0 + j * dof0 + k)
      (num_div (num_sub xi xj) d) in
  Ok (f64_set direction1 (j * N * dof0 + i * dof0 + k)
        (num_neg (f64_get direction1 (i * N * dof0 + j * dof0 + k)))).

(** The body of [for (let j = i + 1; j < N; j++)] in _xtod. *)
Definition xtod_pair (N dof0 : nat) (data : Array (Array num)) (i : nat)
    (acc : Float64Array * Float64Array) (j : nat)
    : Result (Float64Array * Float64Array) :=
  let (dist, direction0) := acc in
  l2 <- _L2 (Array_get data i) (Array_get data j) ;;
  let d := num_sqrt l2 in
  let dist := f64_set dist (i * N + j) d in
  let dist := f64_set dist (j * N + i) d in
  direction1 <- foldM (xtod_k N dof0 data i j d) (seq 0 dof0) direction0 ;;
  Ok (dist, direction1).

(** _xtod(dist, direction, data) *)
Definition _xtod (this : t) (dist direction0 : Float64Array)
    (data : Array (Array num)) : Result (Float64Array * Float64Array) :=
  let N := numberOfNodes this in
  foldM
    (fun acc i =>
       foldM (xtod_pair N (dof this) data i) (seq (i + 1) (N - (i + 1))) acc)
    (seq 0 N) (dist, direction0).

(** ** Forces *)

(** The body of [for (let j = 0; j < this.numberOfNodes; j++)] in
    _processNodeInteractions. *)
Definition nodeInteraction (this : t) (i : nat) (gsum : Float64Array)
    (j : nat) : Float64Array :=
  if Nat.eqb i j then gsum
  else
    let N := numberOfNodes this in
    let dist := f64_get (distance this) (i * N + j) in
    let dist2 :=
      num_mul (f64_get (distance this) (i * N + j))
        (f64_get (distance this) (i * N + j)) in
    let distBoundary :=
      num_sub dist
        (num_add (ToNumber (Array_get (size this) i))
           (ToNumber (Array_get (size this) j))) in
    let F :=
      if num_gtb distBoundary (Fin 0)
      then num_mul (num_div (kr2 this) dist2)
             (ToNumber (Array_get (mass this) j))
      else num_mul (num_neg (ks2 this)) distBoundary in
    let gsum :=
      fold_left
        (fun gsum d =>
           f64_set gsum d
             (num_add (f64_get gsum d)
                (num_mul F
                   (f64_get (direction this)
                      (i * N * dof this + j * dof this + d)))))
        (seq 0 (dof this)) gsum in
    f64_set gsum 2
      (num_add (f64_get gsum 2)
         (num_mul (num_neg (ka this))
            (f64_get (direction this)
               (i * N * dof this + j * dof this + 2)))).

(** The body of [for (let i = 0; i < this.numberOfNodes; i++)] in
    _processNodeInteractions; [gsum] is [this.ymean]. *)
Definition nodeInteractions_row (this : t)
    (acc : Float64Array * Float64Array) (i : nat)
    : Float64Array * Float64Array :=
  let (gsum, acceleration0) := acc in
  let gsum :=
    fold_left (fun gsum d => f64_set gsum d (Fin 0)) (seq 0 (dof this)) gsum in
  let gsum :=
    fold_left (nodeInteraction this i) (seq 0 (numberOfNodes this)) gsum in
  (gsum,
   fold_left
     (fun acceleration1 d =>
        f64_set acceleration1 (i * dof this + d) (f64_get gsum d))
     (seq 0 (dof this)) acceleration0).

(** _processNodeInteractions() *)
Definition _processNodeInteractions (this : t) : Result t :=
  dd <- _xtod this (distance this) (direction this) (position this) ;;
  let this := with_distance_direction this (fst dd) (snd dd) in
  let (ym, acc) :=
    fold_left (nodeInteractions_row this) (seq 0 (numberOfNodes this))
      (ymean this, acceleration this) in
  Ok (with_acceleration this ym acc).

Definition index_mul (a : option nat) (b : nat) : option nat :=
  match a with
  | Some a => Some (a * b)
  | None => None
  end.

Definition index_add (a b : option nat) : option nat :=
  match a, b with
  | Some a, Some b => Some (a + b)
  | _, _ => None
  end.

Definition Array_get_at (a : Array num) (i : option nat) : option num :=
  match i with
  | Some i => Array_get a i
  | None => None
  end.

(** The body of the loop of _processEdgeInteractions; an index read past
    the end of [edgeNodeIndex] is [undefined]. *)
Definition edgeInteraction (this : t) (acceleration0 : Float64Array)
    (i : nat) : Float64Array :=
  let N := numberOfNodes this in
  let node0Idx := nth_error (edgeNodeIndex (graph this)) (i * 2 + 0) in
  let node1Idx := nth_error (edgeNodeIndex (graph this)) (i * 2 + 1) in
  let dist :=
    f64_get_at (distance this) (index_add (index_mul node0Idx N) node1Idx) in
  let F0 :=
    num_mul (num_mul (num_sub (balanceLength this) dist) (ks this))
      (ToNumber (Array_get_at (mass this) node1Idx)) in
  let F1 :=
    num_mul (num_mul (num_sub (balanceLength this) dist) (ks this))
      (ToNumber (Array_get_at (mass this) node0Idx)) in
  fold_left
    (fun acceleration1 d =>
       let a0 := index_add (index_mul node0Idx (dof this)) (Some d) in
       let a1 := index_add (index_mul node1Idx (dof this)) (Some d) in
       let acceleration2 :=
         f64_set_at acceleration1 a0
           (num_add (f64_get_at acceleration1 a0)
              (num_mul F0
                 (f64_get_at (direction this)
                    (index_add
                       (index_add (index_mul (index_mul node0Idx N) (dof this))
                          (index_mul node1Idx (dof this)))
                       (Some d))))) in
       f64_set_at acceleration2 a1
         (num_add (f64_get_at acceleration2 a1)
            (num_mul F1
               (f64_get_at (direction this)
                  (index_add
                     (index_add (index_mul (index_mul node1Idx N) (dof this))
                        (index_mul node0Idx (dof this)))
                     (Some d))))))
    (seq 0 (dof this)) acceleration0.

(** _processEdgeInteractions(): [i < edgeNodeIndex.length / 2] holds for
    the first [ceil (length / 2)] values of [i]. *)
Definition _processEdgeInteractions (this : t) : t :=
  with_acceleration this (ymean this)
    (fold_left (edgeInteraction this)
       (seq 0 (Nat.div2 (S (List.length (edgeNodeIndex (graph this))))))
       (acceleration this)).

(** _calculateAcceleration() *)
Definition _calculateAcceleration (this : t) : Result t :=
  this <- _processNodeInteractions this ;;
  let this := _processEdgeInteractions this in
  Ok (with_velocity this
        (fold_left
           (fun v i =>
              fold_left
                (fun v d =>
                   let v :=
                     f64_set v (i * dof this + d)
                       (num_add (f64_get v (i * dof this + d))
                          (num_mul
                             (f64_get (acceleration this) (i * dof this + d))
                             (dt this))) in
                   f64_set v (i * dof this + d)
                     (num_mul (f64_get v (i * dof this + d)) (damping this)))
                (seq 0 (dof this)) v)
           (seq 0 (numberOfNodes this)) (velocity this))).

(** ** step() *)

(** [this.position[i][d] = f(this.position[i][d])]; [this.position[i]] may
    be [undefined]. *)
Definition position_update (p : Array (Array num)) (i d : nat)
    (f : num -> num) : Result (Array (Array num)) :=
  match Array_get p i with
  | None => TypeError
  | Some row =>
      Ok (Array_set p i (Array_set row d (f (ToNumber (Array_get row d)))))
  end.

Definition position_get (p : Array (Array num)) (i d : nat) : Result num :=
  row_get (Array_get p i) d.

(** The first loop over the nodes: integrate and sum. *)
Definition integrate (this : t) (acc : Array (Array num) * Float64Array)
    (i : nat) : Result (Array (Array num) * Float64Array) :=
  foldM
    (fun (acc : Array (Array num) * Float64Array) d =>
       let (p, ym) := acc in
       p <- position_update p i d
              (fun x => num_add x (f64_get (velocity this) (i * dof this + d))) ;;
       x <- position_get p i d ;;
       Ok (p, f64_set ym d (num_add (f64_get ym d) x)))
    (seq 0 (dof this)) acc.

(** The second loop over the nodes: subtract the mean. *)
Definition recentre (this : t) (ym : Float64Array) (p : Array (Array num))
    (i : nat) : Result (Array (Array num)) :=
  foldM
    (fun p d =>
       position_update p i d
         (fun x =>
            num_sub x (num_div (f64_get ym d)
                         (Fin (INR (numberOfNodes this))))))
    (seq 0 (dof this)) p.

Definition anneal (this : t) : t :=
  if Nat.ltb 100 (currentStep this) && num_ltb (dt this) (Fin 50)
  then with_dt this (num_mul (dt this) (Fin (1005 / 1000)))
  else this.

Definition step (this : t) : Result t :=
  let this := anneal this in
  this <- _calculateAcceleration this ;;
  let ym :=
    fold_left (fun ym d => f64_set ym d (Fin 0)) (seq 0 (dof this))
      (ymean this) in
  pm <- foldM (integrate this) (seq 0 (numberOfNodes this))
          (position this, ym) ;;
  p <- foldM (recentre this (snd pm)) (seq 0 (numberOfNodes this)) (fst pm) ;;
  Ok (with_currentStep (with_position this p (snd pm))
        (S (currentStep this))).

(** [n] calls of step(). *)
Fixpoint steps (n : nat) (this : t) : Result t :=
  match n with
  | 0 => Ok this
  | S n' => this <- step this ;; steps n' this
  end.

End Layout.

(** ** Example layouts *)

(** A node of type 'device' with five neighbours. *)
Definition exDevice : GraphNode :=
  {| id := "d"; adjacentSet := [1; 2; 3; 4; 5]; distance := Infinity;
     degree := 5; attributes := {| type := Some "device"%string |} |}.

(* ================================================================== *)
(** * Vocabulary of the statements about Graph *)

(** The traversal distance stored in a node. *)
Definition lab (h : Heap) (r : ref) : Distance := distance (cell h r).

Definition hops (h : Heap) (r : ref) : nat :=
  match lab h r with
  | Hops n => n
  | Infinity => 0
  end.

(** [hop_path h s n v]: [v] is reached from [s] by following [n] members of
    adjacent sets. *)
Inductive hop_path (h : Heap) (s : ref) : nat -> ref -> Prop :=
| hop_path_here : hop_path h s 0 s
| hop_path_step n u w :
    hop_path h s n u -> In w (adjacentSet (cell h u)) ->
    hop_path h s (S n) w.

(** The shortest hop distance from [s] to [v] is at most [k]. *)
Definition within_hops (h : Heap) (s : ref) (k : nat) (v : ref) : Prop :=
  exists n, n <= k /\ hop_path h s n v.

(** Every node distance is [Infinity]. *)
Definition distances_fresh (h : Heap) : Prop :=
  forall r, distance (cell h r) = Infinity.

(** Members of adjacent sets are allocated objects. *)
Definition heap_closed (h : Heap) : Prop :=
  forall r w, r < size h -> In w (adjacentSet (cell h r)) -> w < size h.

(** Distinct node objects have distinct ids. *)
Definition ids_injective (h : Heap) : Prop :=
  forall r r', r < size h -> r' < size h ->
               id (cell h r) = id (cell h r') -> r = r'.

(** The values of the node map are allocated objects. *)
Definition nodes_allocated (h : Heap) (g : Graph) : Prop :=
  forall key r, In (key, r) (nodes g) -> r < size h.

(** Every edge is stored under its own id, as [addEdge] does. *)
Definition edges_keyed_by_id (edges : JSMap.t string GraphEdge) : Prop :=
  forall key e, JSMap.get edges key = Some e -> edge_id e = key.

(** [degree] agrees with the size of the adjacent set. *)
Definition degree_is_adjacent_count (h : Heap) (g : Graph) : Prop :=
  forall key r, In (key, r) (nodes g) ->
                degree (cell h r) = List.length (adjacentSet (cell h r)).

(** The nodes dequeued so far, in dequeue order. *)
Definition vis (s : BFS) : list ref := JSMap.values (nodeMap (subGraph s)).

(** The maps that registering the nodes [l] in this order produces. *)
Definition index_nodes (h : Heap) (l : list ref) : JSMap.t string nat :=
  fold_left (fun m ir => JSMap.set m (id (cell h (snd ir))) (fst ir))
    (combine (seq 0 (List.length l)) l) JSMap.empty.

Definition register_nodes (h : Heap) (l : list ref) : JSMap.t string ref :=
  fold_left (fun m r => JSMap.set m (id (cell h r)) r) l JSMap.empty.

(** The number of nodes whose distance is [Infinity]. *)
Definition infinite_count (h : Heap) : nat :=
  List.length (filter (fun r => Distance_eqb (lab h r) Infinity)
                 (seq 0 (size h))).

(** What decreases at every iteration of the while loop. *)
Definition measure (s : BFS) : nat :=
  infinite_count (heap s) + List.length (queue s).

(** The state of the loop after [current] is registered in the sub-graph. *)
Definition dequeued (s : BFS) (current : ref) (rest : list ref) : BFS :=
  {| heap := heap s; queue := rest;
     subGraph := set_subGraph_node (subGraph s)
                   (id (cell (heap s) current)) (nodeCount s) current;
     nodeCount := S (nodeCount s); edgeCount := edgeCount s |}.

(** The state in which the while loop is left, before the head of the
    queue is dropped. *)
Definition loop_exit (k : nat) (s : BFS) : Prop :=
  queue s = []
  \/ exists c rest, queue s = c :: rest
                    /\ Distance_gtb (lab (heap s) c) k = true.

(** The variables of the loop when it is entered. *)
Definition bfs_start (h : Heap) (root : ref) : BFS :=
  {| heap := set_distance h root (Hops 0);
     queue := [root];
     subGraph := Graph_new true;
     nodeCount := 0; edgeCount := 0 |}.

Section Invariants.
Variables (E : JSMap.t string GraphEdge) (k : nat) (root : ref) (hI : Heap).

(** The loop position: [None] at the head of the while loop,
    [Some (u, done)] inside the for loop of [u] after the items [done]. *)
Definition position := option (ref * list ref).

Definition front (cur : position) : list ref :=
  match cur with
  | Some (u, _) => [u]
  | None => []
  end.

Definition processed (cur : position) (x : ref) : list ref :=
  match cur with
  | Some (u, done) => if Nat.eqb x u then done else adjacentSet (cell hI x)
  | None => adjacentSet (cell hI x)
  end.

Definition found (x w : ref) : option GraphEdge :=
  _getEdgeIDFromNodes E (cell hI x) (cell hI w).

Set Implicit Arguments.

(** Store, queue and node bookkeeping. *)
Record InvN (s : BFS) : Prop := {
  inv_size : size (heap s) = size hI;
  inv_id : forall r, id (cell (heap s) r) = id (cell hI r);
  inv_adj : forall r, adjacentSet (cell (heap s) r)
                      = adjacentSet (cell hI r);
  inv_root : lab (heap s) root = Hops 0;
  inv_alloc : forall r, In r (vis s ++ queue s) -> r < size hI;
  inv_nodup : NoDup (vis s ++ queue s);
  inv_finite : forall r, In r (vis s ++ queue s) ->
                         lab (heap s) r <> Infinity;
  inv_bound : forall r, In r (vis s) -> hops (heap s) r <= k;
  inv_pos : forall r, In r (vis s ++ queue s) ->
                      r = root \/ 1 <= hops (heap s) r;
  inv_nodeCount : nodeCount s = List.length (vis s);
  inv_nodeMap : nodeMap (subGraph s)
                = combine (seq 0 (List.length (vis s))) (vis s);
  inv_nodeIndexMap : nodeIndexMap (subGraph s) = index_nodes hI (vis s);
  inv_nodes : nodes (subGraph s) = register_nodes hI (vis s);
  inv_root_in : In root (vis s) \/ exists rest, queue s = root :: rest
}.

(** Edge bookkeeping. *)
Record InvE (cur : position) (s : BFS) : Prop := {
  inv_edgeIndex : JSMap.values (edgeIndexMap (subGraph s))
                  = seq 0 (edgeCount s);
  inv_edgeKeys : NoDup (JSMap.keys (edgeIndexMap (subGraph s)));
  inv_edgeIDMap : edgeIDMap (subGraph s)
                  = combine (seq 0 (edgeCount s))
                      (JSMap.keys (edgeIndexMap (subGraph s)));
  inv_edges_keys : JSMap.keys (edges (subGraph s))
                   = JSMap.keys (edgeIndexMap (subGraph s));
  inv_edges_sound : forall key e,
      In (key, e) (edges (subGraph s)) ->
      key = edge_id e
      /\ exists x w, In x (vis s) /\ In w (processed cur x)
                     /\ found x w = Some e;
  inv_edges_complete : forall x w e,
      In x (vis s) -> In w (processed cur x) -> found x w = Some e ->
      In (edge_id e) (JSMap.keys (edgeIndexMap (subGraph s)))
}.

(** Breadth-first order, for a store that was fresh before the call. *)
Record InvB (cur : position) (s : BFS) : Prop := {
  b_path : forall r n, lab (heap s) r = Hops n -> hop_path hI root n r;
  b_seen : forall r, lab (heap s) r <> Infinity ->
                     In r (vis s ++ queue s);
  b_sorted : StronglySorted
               (fun a b => hops (heap s) a <= hops (heap s) b)
               (front cur ++ queue s);
  b_vis_le : forall x y, In x (vis s) -> In y (front cur ++ queue s) ->
                         hops (heap s) x <= hops (heap s) y;
  b_spread : forall x y, In x (front cur ++ queue s) ->
                         In y (front cur ++ queue s) ->
                         hops (heap s) y <= S (hops (heap s) x);
  b_closed : forall x w, In x (vis s) -> In w (processed cur x) ->
                         lab (heap s) w <> Infinity
                         /\ hops (heap s) w <= S (hops (heap s) x)
}.

Unset Implicit Arguments.
End Invariants.

(** [node.attributes.type === 'driver'] *)
Definition is_driver (h : Heap) (r : ref) : Prop :=
  type_is (cell h r) "driver" = true.

(** What the seed loop has established after the entries [seen]:
    no driver of positive degree so far, or the first driver whose degree
    is the largest so far. *)
Definition seed_state (h : Heap) (seen : list (string * ref))
    (st : nat * option string) : Prop :=
  match snd st with
  | None =>
      fst st = 0
      /\ forall key r, In (key, r) seen -> is_driver h r ->
                       degree (cell h r) = 0
  | Some key =>
      exists l1 r l2,
        seen = l1 ++ (key, r) :: l2
        /\ is_driver h r
        /\ degree (cell h r) = fst st
        /\ 0 < fst st
        /\ (forall key' r', In (key', r') l1 -> is_driver h r' ->
                            degree (cell h r') < fst st)
        /\ (forall key' r', In (key', r') l2 -> is_driver h r' ->
                            degree (cell h r') <= fst st)
  end.

(* ================================================================== *)
(** * Breadth-first dequeue order, as the specification words it *)

(** "FIFO breadth-first expansion; a node is accepted into the result as
    soon as it is dequeued with distance <= numHops, and traversal stops
    once a dequeued node's distance exceeds numHops."

    [queue] holds the discovered nodes with their hop counts, [seen] the
    nodes discovered so far; [stale r] says that [r] carried a finite
    distance before the traversal started, so that it is never
    discovered. *)

(** The members of an adjacent set are discovered in their order. *)
Fixpoint expand (stale : ref -> bool) (d : nat) (items : list ref)
    (queue : list (ref * nat)) (seen : list ref)
    : list (ref * nat) * list ref :=
  match items with
  | [] => (queue, seen)
  | item :: items' =>
      if stale item || existsb (Nat.eqb item) seen
      then expand stale d items' queue seen
      else expand stale d items' (queue ++ [(item, S d)]) (seen ++ [item])
  end.

(** The nodes in the order in which they are dequeued and accepted. *)
Fixpoint dequeue_order (fuel : nat) (adj : ref -> list ref)
    (stale : ref -> bool) (numHops : nat) (queue : list (ref * nat))
    (seen : list ref) : list ref :=
  match fuel with
  | 0 => []
  | S fuel' =>
      match queue with
      | [] => []
      | (current, d) :: rest =>
          if Nat.ltb numHops d then []
          else
            current
            :: dequeue_order fuel' adj stale numHops
                 (fst (expand stale d (adj current) rest seen))
                 (snd (expand stale d (adj current) rest seen))
      end
  end.

(** The dequeue order of the traversal of the store [h] from [root]. *)
Definition bfs_dequeue_order (h : Heap) (root : ref) (numHops : nat)
    : list ref :=
  dequeue_order (S (size h)) (fun r => adjacentSet (cell h r))
    (fun r => negb (Distance_eqb (distance (cell h r)) Infinity))
    numHops [(root, 0)] [root].

(** What relates the variables of the loop to the traversal of the
    specification. *)
Definition follows (adj : ref -> list ref) (stale : ref -> bool) (s : BFS)
    (queue0 : list (ref * nat)) (seen : list ref) : Prop :=
  queue0 = map (fun r => (r, hops (heap s) r)) (queue s)
  /\ (forall r, In r (queue s) -> lab (heap s) r <> Infinity)
  /\ (forall w, Distance_eqb (lab (heap s) w) Infinity
                = negb (stale w || existsb (Nat.eqb w) seen))
  /\ JSMap.keys (nodeMap (subGraph s)) = seq 0 (nodeCount s)
  /\ (forall r, adjacentSet (cell (heap s) r) = adj r).

Open Scope string_scope.

(** A is adjacent to two node objects that carry the same id B. *)
Definition exTwinHeap : Heap :=
  heap_of_list
    [{| id := "A"; adjacentSet := [1; 2]; distance := Infinity; degree := 2;
        attributes := {| type := Some "driver" |} |};
     {| id := "B"; adjacentSet := [0]; distance := Infinity; degree := 1;
        attributes := {| type := Some "rider" |} |};
     {| id := "B"; adjacentSet := [0]; distance := Infinity; degree := 1;
        attributes := {| type := Some "rider" |} |}].

Definition exTwinGraph : Graph :=
  fold_left (addNode exTwinHeap) [0; 1; 2] (Graph_new false).

Close Scope string_scope.

(* ================================================================== *)
(** * Vocabulary of the statements about the layout *)

(** The first [N] rows of the position array are arrays. *)
Definition rows_present (N : nat) (data : Array (Array num)) : Prop :=
  forall i, i < N -> exists row, Array_get data i = Some row.

(** Nodes [i] and [j] have the same finite coordinates: their distance is
    exactly 0. *)
Definition coincident (D : nat) (data : Array (Array num)) (i j : nat)
    : Prop :=
  exists rowi rowj,
    Array_get data i = Some rowi /\ Array_get data j = Some rowj
    /\ List.length rowi = D
    /\ forall k, k < D ->
                 exists x, Array_get rowi k = Some (Fin x)
                           /\ Array_get rowj k = Some (Fin x).

(** [position[i][d]] as a number. *)
Definition entry (p : Array (Array num)) (i d : nat) : num :=
  match Array_get p i with
  | Some row => ToNumber (Array_get row d)
  | None => NaN
  end.

(** The sum and the mean of coordinate [d] over the nodes. *)
Definition axis_sum (this : Layout.t) (d : nat) : num :=
  fold_left (fun s i => num_add s (entry (Layout.position this) i d))
    (seq 0 (Layout.numberOfNodes this)) (Fin 0).

Definition axis_mean (this : Layout.t) (d : nat) : num :=
  num_div (axis_sum this d) (Fin (INR (Layout.numberOfNodes this))).

(** The first [N] rows are arrays whose first [D] entries are finite. *)
Definition finite_positions (N D : nat) (p : Array (Array num)) : Prop :=
  rows_present N p
  /\ forall i d, i < N -> d < D -> is_finite (entry p i d).

(** The velocities of the [N] nodes are finite. *)
Definition finite_velocities (N D : nat) (v : Float64Array) : Prop :=
  forall i d, i < N -> d < D -> is_finite (f64_get v (i * D + d)).

(** The real value of a finite number. *)
Definition real_of (a : num) : R :=
  match a with
  | Fin x => x
  | _ => 0%R
  end.

(** The sum of [f 0 .. f (n - 1)]. *)
Fixpoint Rsum (f : nat -> R) (n : nat) : R :=
  match n with
  | 0 => 0%R
  | S n' => (Rsum f n' + f n')%R
  end.

(** Two nodes at the same position, at rest, without edges. *)
Definition exCoincident : Layout.t :=
  {| Layout.id := "layout"; Layout.graph := Graph_new false;
     Layout.numberOfNodes := 2;
     Layout.startStep := 0; Layout.currentStep := 0;
     Layout.dof := 2;
     Layout.dt := Fin 10;
     Layout.ka := Fin (1 / 1000); Layout.kr2 := Fin (1 / 1000);
     Layout.ks := Fin (1 / 1000); Layout.ks2 := Fin (1 / 100);
     Layout.damping := Fin (95 / 100);
     Layout.balanceLength := Fin 4;
     Layout.position := [Some [Some (Fin 1); Some (Fin 2)];
                         Some [Some (Fin 1); Some (Fin 2)]];
     Layout.color := [None; None];
     Layout.size := [Some (Fin (3 / 10)); Some (Fin (3 / 10))];
     Layout.mass := [Some (Fin (1 / 10)); Some (Fin (1 / 10))];
     Layout.edgePosition := [Some VUndefined];
     Layout.distance := Float64Array_new 4;
     Layout.direction := Float64Array_new 8;
     Layout.acceleration := Float64Array_new 4;
     Layout.velocity := Float64Array_new 4;
     Layout.ymean := Float64Array_new 2 |}.

(** One node, moving. *)
Definition exSingle : Layout.t :=
  {| Layout.id := "layout"; Layout.graph := Graph_new false;
     Layout.numberOfNodes := 1;
     Layout.startStep := 0; Layout.currentStep := 0;
     Layout.dof := 2;
     Layout.dt := Fin 10;
     Layout.ka := Fin (1 / 1000); Layout.kr2 := Fin (1 / 1000);
     Layout.ks := Fin (1 / 1000); Layout.ks2 := Fin (1 / 100);
     Layout.damping := Fin (95 / 100);
     Layout.balanceLength := Fin 4;
     Layout.position := [Some [Some (Fin 1); Some (Fin 2)]];
     Layout.color := [None];
     Layout.size := [Some (Fin (3 / 10))];
     Layout.mass := [Some (Fin (1 / 10))];
     Layout.edgePosition := [Some VUndefined];
     Layout.distance := Float64Array_new 1;
     Layout.direction := Float64Array_new 2;
     Layout.acceleration := Float64Array_new 2;
     Layout.velocity := [Fin 1; Fin (-1)];
     Layout.ymean := Float64Array_new 2 |}.

(* ================================================================== *)
(** * Vocabulary of the further properties *)

(** [h'] holds the objects of [h] with the same ids, adjacent sets, degrees
    and attributes; a distance that was not [Infinity] is kept, except at
    [root]. *)
Definition only_distances_written (root : ref) (h h' : Heap) : Prop :=
  size h' = size h
  /\ forall r,
       id (cell h' r) = id (cell h r)
       /\ adjacentSet (cell h' r) = adjacentSet (cell h r)
       /\ degree (cell h' r) = degree (cell h r)
       /\ attributes (cell h' r) = attributes (cell h r)
       /\ (r <> root -> distance (cell h r) <> Infinity ->
           distance (cell h' r) = distance (cell h r)).

(** The index pairs that the edges [es] contribute to [edgeNodeIndex]. *)
Definition edge_index_pairs (h : Heap) (sub : Graph) (es : list GraphEdge)
    : list nat :=
  flat_map
    (fun edge =>
       match JSMap.get (nodeIndexMap sub) (id (cell h (node0 edge))),
             JSMap.get (nodeIndexMap sub) (id (cell h (node1 edge))) with
       | Some node0Index, Some node1Index => [node0Index; node1Index]
       | _, _ => []
       end)
    es.
(** Two nodes, the second without a position row. *)
Definition exHole : Layout.t :=
  Layout.with_position exCoincident [Some [Some (Fin 1); Some (Fin 2)]; None]
    (Layout.ymean exCoincident).

(** A position row of [D] finite coordinates. *)
Definition finite_row (D : nat) (row : Array num) : Prop :=
  List.length row = D
  /\ forall d, d < D -> is_finite (ToNumber (Array_get row d)).

(** The keys of [nodeMap] are the indices 0 .. numberOfNodes - 1, in this
    order. *)
Definition dense_nodeMap (g : Graph) : Prop :=
  JSMap.keys (nodeMap g) = seq 0 (numberOfNodes g).

(** A sub-graph of two registered nodes, without edges. *)
Definition exSub : Graph :=
  set_subGraph_counts
    (set_subGraph_node (set_subGraph_node (Graph_new true) "A" 0 0) "B" 1 1)
    [] 2 0.

(** What _xtod leaves in the tables for the pair [i < j]: the distance in
    both orders, the unit direction from [j] to [i] on every axis and its
    negation in the other order. *)
Definition pair_entries (N D : nat) (data : Array (Array num))
    (dist dir : Float64Array) (i j : nat) : Prop :=
  exists v,
    Layout._L2 (Array_get data i) (Array_get data j) = Ok v
    /\ f64_get dist (i * N + j) = num_sqrt v
    /\ f64_get dist (j * N + i) = num_sqrt v
    /\ forall k, k < D ->
         f64_get dir (i * N * D + j * D + k)
         = num_div (num_sub (entry data i k) (entry data j k)) (num_sqrt v)
         /\ f64_get dir (j * N * D + i * D + k)
            = num_neg (f64_get dir (i * N * D + j * D + k)).

(** The fields of a layout that no step assigns. *)
Definition same_constants (this this' : Layout.t) : Prop :=
  Layout.id this' = Layout.id this
  /\ Layout.graph this' = Layout.graph this
  /\ Layout.numberOfNodes this' = Layout.numberOfNodes this
  /\ Layout.startStep this' = Layout.startStep this
  /\ Layout.dof this' = Layout.dof this
  /\ Layout.ka this' = Layout.ka this
  /\ Layout.kr2 this' = Layout.kr2 this
  /\ Layout.ks this' = Layout.ks this
  /\ Layout.ks2 this' = Layout.ks2 this
  /\ Layout.damping this' = Layout.damping this
  /\ Layout.balanceLength this' = Layout.balanceLength this
  /\ Layout.color this' = Layout.color this
  /\ Layout.size this' = Layout.size this
  /\ Layout.mass this' = Layout.mass this
  /\ Layout.edgePosition this' = Layout.edgePosition this.

(** A value that is not below zero: a real that is at least 0, [+Infinity]
    or [NaN]. *)
Definition never_negative (a : num) : Prop :=
  match a with
  | Fin x => (0 <= x)%R
  | PInf => True
  | NInf => False
  | NaN => True
  end.

(** Two nodes at different positions, at rest, without edges. *)
Definition exPair : Layout.t :=
  Layout.with_position exCoincident
    [Some [Some (Fin 0); Some (Fin 0)]; Some [Some (Fin 3); Some (Fin 4)]]
    (Layout.ymean exCoincident).

(* ================================================================== *)
(** * Properties of the Map model *)

Module JSMapFacts.
Section Facts.
Context {K V : Type} `{EqKey K}.
Implicit Types (m : JSMap.t K V) (k : K) (v : V).

Lemma keyb_refl k : keyb k k = true.
Proof. destruct (keyb_spec k k); congruence. Qed.

Lemma keyb_neq k k' : k <> k' -> keyb k k' = false.
Proof. intros Hne. destruct (keyb_spec k k'); congruence. Qed.

Lemma get_none_iff m k : JSMap.get m k = None <-> ~ In k (JSMap.keys m).
Proof.
  induction m as [|[k' v'] m IH]; simpl.
  - tauto.
  - destruct (keyb_spec k k') as [->|Hne].
    + split; [discriminate | intros Hn; exfalso; apply Hn; now left].
    + rewrite IH. split; intros Hn; [intros [Heq|Hin] | intros Hin];
        try congruence; tauto.
Qed.

Lemma has_true_iff m k : JSMap.has m k = true <-> In k (JSMap.keys m).
Proof.
  unfold JSMap.has. destruct (JSMap.get m k) eqn:E.
  - split; [intros _ | reflexivity].
    destruct (in_dec (fun a b => match keyb_spec a b with
                                 | ReflectT _ e => left e
                                 | ReflectF _ n => right n end)
                k (JSMap.keys m)) as [Hin|Hn]; [assumption|].
    apply get_none_iff in Hn. congruence.
  - split; [discriminate|]. intros Hin. apply get_none_iff in E. tauto.
Qed.

Lemma has_false_iff m k : JSMap.has m k = false <-> ~ In k (JSMap.keys m).
Proof.
  rewrite <- has_true_iff. destruct (JSMap.has m k); split; congruence.
Qed.

Lemma get_in m k v : JSMap.get m k = Some v -> In (k, v) m.
Proof.
  induction m as [|[k' v'] m IH]; simpl; [discriminate|].
  destruct (keyb_spec k k') as [->|Hne].
  - intros [= ->]. now left.
  - intros Hg. right. auto.
Qed.

Lemma in_get m k v :
  NoDup (JSMap.keys m) -> In (k, v) m -> JSMap.get m k = Some v.
Proof.
  induction m as [|[k' v'] m IH]; simpl; [tauto|].
  intros Hnd [Heq|Hin].
  - injection Heq as -> ->. now rewrite keyb_refl.
  - inversion Hnd as [|? ? Hn Hnd']; subst.
    destruct (keyb_spec k k') as [->|Hne].
    + exfalso. apply Hn. change (In (fst (k', v)) (map fst m)).
      now apply in_map.
    + auto.
Qed.

(** Setting an absent key appends the entry. *)
Lemma set_absent m k v :
  JSMap.has m k = false -> JSMap.set m k v = m ++ [(k, v)].
Proof.
  rewrite has_false_iff.
  induction m as [|[k' v'] m IH]; simpl; [reflexivity|].
  intros Hn. rewrite keyb_neq by (intros ->; tauto). f_equal. apply IH. tauto.
Qed.

(** Setting never changes the keys that are present. *)
Lemma keys_set_present m k v :
  JSMap.has m k = true -> JSMap.keys (JSMap.set m k v) = JSMap.keys m.
Proof.
  rewrite has_true_iff.
  induction m as [|[k' v'] m IH]; simpl; [tauto|].
  intros Hin. destruct (keyb_spec k k') as [->|Hne]; simpl; [reflexivity|].
  f_equal. apply IH. destruct Hin; congruence.
Qed.

Lemma get_set_same m k v : JSMap.get (JSMap.set m k v) k = Some v.
Proof.
  induction m as [|[k' v'] m IH]; simpl.
  - now rewrite keyb_refl.
  - destruct (keyb_spec k k') as [->|Hne]; simpl.
    + now rewrite keyb_refl.
    + now rewrite keyb_neq.
Qed.

Lemma get_set_other m k v k' :
  k' <> k -> JSMap.get (JSMap.set m k v) k' = JSMap.get m k'.
Proof.
  intros Hne. induction m as [|[k1 v1] m IH]; simpl.
  - now rewrite keyb_neq.
  - destruct (keyb_spec k k1) as [->|Hne1]; simpl.
    + now rewrite keyb_neq.
    + now rewrite IH.
Qed.

Lemma has_set m k v k' :
  JSMap.has (JSMap.set m k v) k' = keyb k' k || JSMap.has m k'.
Proof.
  unfold JSMap.has. destruct (keyb_spec k' k) as [->|Hne].
  - now rewrite get_set_same.
  - now rewrite get_set_other.
Qed.
End Facts.
End JSMapFacts.
Import JSMapFacts.

(* ================================================================== *)
(** * Graph.addNode *)

Lemma addNode_present (h : Heap) (g : Graph) (node : ref) :
  JSMap.has (nodes g) (id (cell h node)) = true -> addNode h g node = g.
Proof. unfold addNode. now intros ->. Qed.

(** The node count of a graph built by [addNode] alone is the number of
    entries of its node map, and the keys of that map are the distinct ids
    seen so far. *)
Lemma addNode_fold_invariant (h : Heap) (l : list ref) (g : Graph) :
  numberOfNodes g = List.length (nodes g) ->
  NoDup (JSMap.keys (nodes g)) ->
  let g' := fold_left (addNode h) l g in
  numberOfNodes g' = List.length (nodes g')
  /\ NoDup (JSMap.keys (nodes g'))
  /\ (forall k, In k (JSMap.keys (nodes g'))
                <-> In k (JSMap.keys (nodes g))
                    \/ In k (map (fun r => id (cell h r)) l)).
Proof.
  revert g. induction l as [|r l IH]; intros g Hn Hnd; simpl.
  - repeat split; auto. intros [?|[]]; assumption.
  - assert (Hstep : numberOfNodes (addNode h g r)
                    = List.length (nodes (addNode h g r))
            /\ NoDup (JSMap.keys (nodes (addNode h g r)))
            /\ forall k, In k (JSMap.keys (nodes (addNode h g r)))
                         <-> In k (JSMap.keys (nodes g)) \/ id (cell h r) = k).
    { unfold addNode.
      destruct (JSMap.has (nodes g) (id (cell h r))) eqn:E; simpl.
      - repeat split; auto.
        intros [?|<-]; [assumption|]. now apply has_true_iff.
      - rewrite (set_absent _ _ _ E). unfold JSMap.keys.
        rewrite map_app, length_app. simpl.
        repeat split.
        + rewrite Hn. lia.
        + apply has_false_iff in E.
          apply NoDup_app; [assumption | repeat constructor; simpl; tauto |].
          intros a Ha [<-|[]]. exact (E Ha).
        + rewrite in_app_iff. simpl. tauto.
        + rewrite in_app_iff. simpl. tauto. }
    destruct Hstep as (Hn' & Hnd' & Hk').
    destruct (IH _ Hn' Hnd') as (H1 & H2 & H3).
    repeat split; auto.
    + intros Hin. apply H3 in Hin. rewrite Hk' in Hin. tauto.
    + intros Hin. apply H3. rewrite Hk'. tauto.
Qed.

(** C8.  A sequence of [addNode] calls on a new graph leaves the node
    count equal to the number of distinct ids in the sequence, and [addNode]
    of an id that is already present returns the graph as it was (count and
    stored node included). *)
Theorem addNode_counts_distinct_ids :
  (forall (h : Heap) (l : list ref),
      numberOfNodes (fold_left (addNode h) l (Graph_new false))
      = List.length (nodup string_dec (map (fun r => id (cell h r)) l)))
  /\ (forall (h : Heap) (g : Graph) (node : ref),
         JSMap.has (nodes g) (id (cell h node)) = true ->
         addNode h g node = g
         /\ numberOfNodes (addNode h g node) = numberOfNodes g
         /\ JSMap.get (nodes (addNode h g node)) (id (cell h node))
            = JSMap.get (nodes g) (id (cell h node))).
Proof.
  split.
  - intros h l.
    destruct (addNode_fold_invariant h l (Graph_new false) eq_refl
                (NoDup_nil _)) as (Hn & Hnd & Hk).
    rewrite Hn. change (List.length (nodes ?g)) with
      (List.length (nodes g)).
    rewrite <- (length_map fst).
    apply Permutation.Permutation_length.
    apply Permutation.NoDup_Permutation.
    + exact Hnd.
    + apply NoDup_nodup.
    + intros k. rewrite nodup_In. rewrite (Hk k). simpl. tauto.
  - intros h g node Hhas. rewrite (addNode_present _ _ _ Hhas). auto.
Qed.

Lemma addNode_counts_distinct_ids_witness :
  numberOfNodes (fold_left (addNode exHeap) [0; 1; 0; 2; 1] (Graph_new false))
  = 3
  /\ addNode exHeap exGraph 1 = exGraph.
Proof.
  split.
  - rewrite (proj1 addNode_counts_distinct_ids). reflexivity.
  - apply (proj2 addNode_counts_distinct_ids exHeap exGraph 1). reflexivity.
Defined.

(* ================================================================== *)
(** * The store *)

Arguments set_distance : simpl never.
Arguments vis : simpl never.

Lemma Distance_eqb_Infinity (d : Distance) :
  Distance_eqb d Infinity = true <-> d = Infinity.
Proof. destruct d; simpl; split; congruence. Qed.

Lemma Distance_eqb_Infinity_false (d : Distance) :
  Distance_eqb d Infinity = false <-> d <> Infinity.
Proof. destruct d; simpl; split; congruence. Qed.

Lemma lab_set_distance (h : Heap) (r : ref) (d : Distance) (r' : ref) :
  lab (set_distance h r d) r' = if Nat.eqb r' r then d else lab h r'.
Proof. unfold lab, set_distance. simpl. now destruct (Nat.eqb r' r). Qed.

Lemma lab_set_distance_other (h : Heap) (r : ref) (d : Distance) (r' : ref) :
  r' <> r -> lab (set_distance h r d) r' = lab h r'.
Proof.
  intros Hne. rewrite lab_set_distance.
  now rewrite (proj2 (Nat.eqb_neq r' r) Hne).
Qed.

Lemma lab_set_distance_same (h : Heap) (r : ref) (d : Distance) :
  lab (set_distance h r d) r = d.
Proof. rewrite lab_set_distance. now rewrite Nat.eqb_refl. Qed.

Lemma hops_set_distance_other (h : Heap) (r : ref) (d : Distance) (r' : ref) :
  r' <> r -> hops (set_distance h r d) r' = hops h r'.
Proof. intros Hne. unfold hops. now rewrite lab_set_distance_other. Qed.

Lemma id_set_distance (h : Heap) (r : ref) (d : Distance) (r' : ref) :
  id (cell (set_distance h r d) r') = id (cell h r').
Proof.
  unfold set_distance. simpl. destruct (Nat.eqb_spec r' r); subst; reflexivity.
Qed.

Lemma adjacentSet_set_distance (h : Heap) (r : ref) (d : Distance) (r' : ref) :
  adjacentSet (cell (set_distance h r d) r') = adjacentSet (cell h r').
Proof.
  unfold set_distance. simpl. destruct (Nat.eqb_spec r' r); subst; reflexivity.
Qed.

Lemma hops_of_lab (h : Heap) (r : ref) (n : nat) :
  lab h r = Hops n -> hops h r = n.
Proof. unfold hops. now intros ->. Qed.

Lemma lab_finite (h : Heap) (r : ref) :
  lab h r <> Infinity -> lab h r = Hops (hops h r).
Proof. unfold hops. destruct (lab h r); congruence. Qed.

Lemma hop_path_same_adjacency (h h' : Heap) (s : ref) (n : nat) (v : ref) :
  (forall r, adjacentSet (cell h' r) = adjacentSet (cell h r)) ->
  hop_path h s n v -> hop_path h' s n v.
Proof.
  intros Hadj Hp. induction Hp.
  - constructor.
  - econstructor; [eassumption|]. now rewrite Hadj.
Qed.

(** The edge lookup reads only the ids of the two nodes. *)
Lemma getEdgeIDFromNodes_ids (E : JSMap.t string GraphEdge)
    (a b a' b' : GraphNode) :
  id a = id a' -> id b = id b' ->
  _getEdgeIDFromNodes E a b = _getEdgeIDFromNodes E a' b'.
Proof. unfold _getEdgeIDFromNodes. now intros -> ->. Qed.

Lemma getEdgeIDFromNodes_get (E : JSMap.t string GraphEdge)
    (a b : GraphNode) (e : GraphEdge) :
  _getEdgeIDFromNodes E a b = Some e -> exists key, JSMap.get E key = Some e.
Proof.
  unfold _getEdgeIDFromNodes.
  destruct (JSMap.has E (edge_key (id a) (id b))); [eauto|].
  destruct (JSMap.has E (edge_key (id b) (id a))); [eauto|discriminate].
Qed.

(* ================================================================== *)
(** * Lists *)

Lemma combine_seq_snoc {A : Type} (l : list A) (x : A) (a : nat) :
  combine (seq a (List.length (l ++ [x]))) (l ++ [x])
  = combine (seq a (List.length l)) l ++ [(a + List.length l, x)].
Proof.
  revert a. induction l as [|y l IH]; intros a; simpl.
  - now rewrite Nat.add_0_r.
  - rewrite IH. simpl. now rewrite Nat.add_succ_r.
Qed.

Lemma keys_combine {A B : Type} (la : list A) (lb : list B) :
  List.length la = List.length lb -> JSMap.keys (combine la lb) = la.
Proof.
  unfold JSMap.keys. revert lb.
  induction la as [|a la IH]; intros [|b lb]; simpl; try congruence.
  intros [= Hl]. now rewrite IH.
Qed.

Lemma values_combine {A B : Type} (la : list A) (lb : list B) :
  List.length la = List.length lb -> JSMap.values (combine la lb) = lb.
Proof.
  unfold JSMap.values. revert lb.
  induction la as [|a la IH]; intros [|b lb]; simpl; try congruence.
  intros [= Hl]. now rewrite IH.
Qed.

Lemma StronglySorted_snoc {A : Type} (R : A -> A -> Prop) (l : list A) (x : A) :
  StronglySorted R l -> (forall a, In a l -> R a x) ->
  StronglySorted R (l ++ [x]).
Proof.
  induction 1 as [|a l Hs IH Hall]; intros Hx; simpl.
  - repeat constructor.
  - constructor.
    + apply IH. intros b Hb. apply Hx. now right.
    + apply Forall_app. split; [assumption|].
      constructor; [|constructor]. apply Hx. now left.
Qed.

Lemma StronglySorted_ext {A : Type} (R R' : A -> A -> Prop) (l : list A) :
  (forall a b, In a l -> In b l -> R a b -> R' a b) ->
  StronglySorted R l -> StronglySorted R' l.
Proof.
  intros Hext Hs. induction Hs as [|a l Hs IH Hall].
  - constructor.
  - constructor.
    + apply IH. intros x y Hx Hy. apply Hext; now right.
    + rewrite Forall_forall in *. intros b Hb.
      apply Hext; [now left | now right | auto].
Qed.

(* ================================================================== *)
(** * The for loop over the adjacent set *)

Section InnerLoop.
Variables (E : JSMap.t string GraphEdge) (k : nat) (root : ref) (hI : Heap).

Lemma vis_visit_distance (u : ref) (s : BFS) (item : ref) :
  subGraph (visit_distance u s item) = subGraph s
  /\ nodeCount (visit_distance u s item) = nodeCount s
  /\ edgeCount (visit_distance u s item) = edgeCount s.
Proof.
  unfold visit_distance.
  destruct (Distance_eqb (distance (cell (heap s) item)) Infinity);
    simpl; auto.
Qed.

Lemma visit_edge_frame (u : ref) (s : BFS) (item : ref) :
  heap (visit_edge E u s item) = heap s
  /\ queue (visit_edge E u s item) = queue s
  /\ nodeCount (visit_edge E u s item) = nodeCount s
  /\ nodeMap (subGraph (visit_edge E u s item)) = nodeMap (subGraph s)
  /\ nodeIndexMap (subGraph (visit_edge E u s item))
     = nodeIndexMap (subGraph s)
  /\ nodes (subGraph (visit_edge E u s item)) = nodes (subGraph s).
Proof.
  unfold visit_edge.
  destruct (_getEdgeIDFromNodes E _ _) as [e|]; [|auto 10].
  destruct (negb _); simpl; auto 10.
Qed.

Lemma InvN_frame (s s' : BFS) :
  heap s' = heap s -> queue s' = queue s -> nodeCount s' = nodeCount s ->
  nodeMap (subGraph s') = nodeMap (subGraph s) ->
  nodeIndexMap (subGraph s') = nodeIndexMap (subGraph s) ->
  nodes (subGraph s') = nodes (subGraph s) ->
  InvN k root hI s -> InvN k root hI s'.
Proof.
  intros Hh Hq Hc Hm Hi Hn [].
  constructor; unfold vis in *; rewrite ?Hh, ?Hq, ?Hc, ?Hm, ?Hi, ?Hn;
    assumption.
Qed.

Lemma InvB_frame (cur : position) (s s' : BFS) :
  heap s' = heap s -> queue s' = queue s ->
  nodeMap (subGraph s') = nodeMap (subGraph s) ->
  InvB root hI cur s -> InvB root hI cur s'.
Proof.
  intros Hh Hq Hm [].
  constructor; unfold vis in *; rewrite ?Hh, ?Hq, ?Hm; assumption.
Qed.

Lemma InvE_frame (cur : position) (s s' : BFS) :
  subGraph s' = subGraph s -> edgeCount s' = edgeCount s ->
  InvE E hI cur s -> InvE E hI cur s'.
Proof.
  intros Hg Hc [].
  constructor; unfold vis in *; rewrite ?Hg, ?Hc; assumption.
Qed.

(** Relabelling and enqueueing an item keeps the store and queue
    invariant. *)
Lemma visit_distance_InvN (u : ref) (s : BFS) (item : ref) :
  InvN k root hI s ->
  lab (heap s) u <> Infinity ->
  item < size hI ->
  InvN k root hI (visit_distance u s item).
Proof.
  intros HI Hu Hitem. unfold visit_distance.
  fold (lab (heap s) item). fold (lab (heap s) u).
  destruct (Distance_eqb (lab (heap s) item) Infinity) eqn:Einf;
    [|assumption].
  apply Distance_eqb_Infinity in Einf.
  destruct HI.
  assert (Hfresh : ~ In item (vis s ++ queue s)).
  { intros Hin. now apply inv_finite0 in Hin. }
  assert (Hother : forall r, In r (vis s ++ queue s) -> r <> item).
  { intros r Hin ->. contradiction. }
  destruct (lab (heap s) u) as [|n] eqn:Eu; [congruence|].
  constructor; unfold vis in *;
    cbn [heap queue subGraph nodeCount edgeCount Distance_succ].
  - assumption.
  - intros r. now rewrite id_set_distance.
  - intros r. now rewrite adjacentSet_set_distance.
  - rewrite lab_set_distance_other; [assumption|]. congruence.
  - intros r. rewrite app_assoc, in_app_iff. cbn [In].
    intros [Hin|[<-|[]]]; auto.
  - rewrite app_assoc. apply NoDup_app; [assumption | repeat constructor; simpl; tauto |].
    intros a Ha [<-|[]]. contradiction.
  - intros r. rewrite app_assoc, in_app_iff. cbn [In].
    intros [Hin|[<-|[]]].
    + rewrite lab_set_distance_other; auto.
    + rewrite lab_set_distance_same. discriminate.
  - intros r Hin. rewrite hops_set_distance_other.
    + auto.
    + apply Hother. apply in_app_iff. now left.
  - intros r. rewrite app_assoc, in_app_iff. cbn [In].
    intros [Hin|[<-|[]]].
    + rewrite hops_set_distance_other; auto.
    + right. unfold hops. rewrite lab_set_distance_same. lia.
  - assumption.
  - assumption.
  - assumption.
  - assumption.
  - destruct inv_root_in0 as [Hin|[rest Hq]]; [now left|].
    right. exists (rest ++ [item]). now rewrite Hq.
Qed.

(** Relabelling and enqueueing an item keeps the breadth-first order. *)
Lemma visit_distance_InvB (u : ref) (done : list ref) (s : BFS)
    (item : ref) :
  InvN k root hI s ->
  InvB root hI (Some (u, done)) s ->
  In u (vis s) ->
  In item (adjacentSet (cell hI u)) ->
  InvB root hI (Some (u, done ++ [item])) (visit_distance u s item).
Proof.
  intros HN HB Hu Hadj.
  assert (Hufin : lab (heap s) u <> Infinity).
  { apply (inv_finite HN). apply in_app_iff. now left. }
  assert (Hfq : forall a, In a (front (Some (u, done)) ++ queue s) ->
                          In a (vis s ++ queue s)).
  { intros a [<-|Ha]; apply in_app_iff; [now left | now right]. }
  assert (Hhead : forall a, In a (front (Some (u, done)) ++ queue s) ->
                            hops (heap s) u <= hops (heap s) a).
  { intros a [<-|Ha]; [lia|].
    pose proof (b_sorted HB) as Hs. cbn [front app] in Hs.
    apply StronglySorted_inv in Hs. destruct Hs as [_ Hall].
    rewrite Forall_forall in Hall. now apply Hall. }
  unfold visit_distance.
  fold (lab (heap s) item). fold (lab (heap s) u).
  destruct (Distance_eqb (lab (heap s) item) Infinity) eqn:Einf.
  - apply Distance_eqb_Infinity in Einf.
    assert (Hother : forall r, In r (vis s ++ queue s) -> r <> item).
    { intros r Hin ->. now apply (inv_finite HN) in Hin. }
    assert (Hne : u <> item).
    { apply Hother. apply in_app_iff. now left. }
    destruct (lab (heap s) u) as [|n] eqn:Eu; [congruence|].
    assert (Hun : hops (heap s) u = n) by now apply hops_of_lab.
    set (h' := set_distance (heap s) item (Distance_succ (Hops n))).
    assert (Hitem' : hops h' item = S n).
    { unfold hops, h'. now rewrite lab_set_distance_same. }
    assert (Hsame : forall r, r <> item -> hops h' r = hops (heap s) r).
    { intros r Hr. unfold h'. now apply hops_set_distance_other. }
    destruct HB.
    constructor; unfold vis in *;
      cbn [heap queue subGraph nodeCount edgeCount]; fold h'.
    + intros r m. unfold h'. rewrite lab_set_distance.
      destruct (Nat.eqb_spec r item) as [->|Hr].
      * cbn [Distance_succ]. intros [= <-].
        econstructor; [|exact Hadj]. now apply b_path0.
      * apply b_path0.
    + intros r. unfold h'. rewrite lab_set_distance.
      destruct (Nat.eqb_spec r item) as [->|Hr].
      * intros _. rewrite app_assoc. apply in_app_iff. right. now left.
      * intros Hfin. rewrite app_assoc. apply in_app_iff. left. auto.
    + cbn [front] in *. rewrite app_assoc. apply StronglySorted_snoc.
      * eapply StronglySorted_ext; [|exact b_sorted0].
        cbv beta. intros a b Ha Hb Hab.
        rewrite !Hsame; auto using Hother.
      * intros a Ha. rewrite Hitem', Hsame by auto using Hother.
        specialize (b_spread0 u a (or_introl eq_refl) Ha). lia.
    + intros x y Hx. cbn [front] in *. rewrite app_assoc, in_app_iff.
      cbn [In]. intros [Hy|[<-|[]]].
      * rewrite !Hsame.
        -- now apply b_vis_le0.
        -- auto using Hother.
        -- apply Hother. apply in_app_iff. now left.
      * rewrite Hitem', Hsame.
        -- specialize (b_vis_le0 x u Hx (or_introl eq_refl)). lia.
        -- apply Hother. apply in_app_iff. now left.
    + intros x y Hx Hy. cbn [front] in *.
      rewrite app_assoc in Hx, Hy.
      apply in_app_iff in Hx. apply in_app_iff in Hy.
      destruct Hx as [Hx|[<-|[]]]; destruct Hy as [Hy|[<-|[]]].
      * rewrite !Hsame by auto using Hother. now apply b_spread0.
      * rewrite Hitem', Hsame by auto using Hother.
        specialize (Hhead x Hx). lia.
      * rewrite Hitem', Hsame by auto using Hother.
        specialize (b_spread0 u y (or_introl eq_refl) Hy). lia.
      * lia.
    + intros x w Hx. cbn [processed].
      assert (Hxi : x <> item).
      { apply Hother. apply in_app_iff. now left. }
      assert (Hold : forall w', In w' (processed hI (Some (u, done)) x) ->
                lab h' w' <> Infinity
                /\ hops h' w' <= S (hops h' x)).
      { intros w' Hw'. destruct (b_closed0 x w' Hx Hw') as [Hf Hle].
        assert (Hwi : w' <> item) by congruence.
        unfold h'. rewrite lab_set_distance_other by assumption.
        fold h'. rewrite !Hsame by assumption. auto. }
      cbn [processed] in Hold.
      destruct (Nat.eqb_spec x u) as [->|Hxu]; [|apply Hold].
      rewrite in_app_iff. cbn [In]. intros [Hw|[<-|[]]]; [now apply Hold|].
      split.
      * unfold h'. rewrite lab_set_distance_same. discriminate.
      * rewrite Hitem', Hsame by assumption. lia.
  - apply Distance_eqb_Infinity_false in Einf.
    destruct HB.
    constructor; try assumption.
    intros x w Hx. cbn [processed].
    specialize (b_closed0 x w Hx). cbn [processed] in b_closed0.
    destruct (Nat.eqb_spec x u) as [->|Hxu]; [|assumption].
    rewrite in_app_iff. cbn [In]. intros [Hw|[<-|[]]]; [auto|].
    split; [assumption|].
    apply b_seen0 in Einf. apply in_app_iff in Einf.
    destruct Einf as [Hin|Hin].
    + specialize (b_vis_le0 item u Hin (or_introl eq_refl)). lia.
    + apply (b_spread0 u item); [now left | now right].
Qed.
Lemma processed_snoc (u : ref) (done : list ref) (item x w : ref) :
  In w (processed hI (Some (u, done ++ [item])) x)
  <-> In w (processed hI (Some (u, done)) x) \/ (x = u /\ w = item).
Proof.
  cbn [processed]. destruct (Nat.eqb_spec x u) as [->|Hne].
  - rewrite in_app_iff. cbn [In]. intuition congruence.
  - intuition congruence.
Qed.

Lemma length_keys_values {K V : Type} (m : JSMap.t K V) :
  List.length (JSMap.keys m) = List.length (JSMap.values m).
Proof. unfold JSMap.keys, JSMap.values. now rewrite !length_map. Qed.

(** Looking the edge up and registering it keeps the edge bookkeeping. *)
Lemma visit_edge_InvE (u : ref) (done : list ref) (s : BFS) (item : ref) :
  (forall r, id (cell (heap s) r) = id (cell hI r)) ->
  InvE E hI (Some (u, done)) s ->
  In u (vis s) ->
  InvE E hI (Some (u, done ++ [item])) (visit_edge E u s item).
Proof.
  intros Hid HE Hu. unfold visit_edge.
  rewrite (getEdgeIDFromNodes_ids E _ _ (cell hI u) (cell hI item))
    by apply Hid.
  fold (found E hI u item).
  destruct HE.
  destruct (found E hI u item) as [e|] eqn:Efound.
  - destruct (JSMap.has (edgeIndexMap (subGraph s)) (edge_id e)) eqn:Ehas;
      cbn [negb].
    + constructor; try assumption.
      * intros key e0 Hin.
        destruct (inv_edges_sound0 key e0 Hin) as (Hk & x & w & Hx & Hw & Hf).
        split; [assumption|]. exists x, w. rewrite processed_snoc. auto.
      * intros x w e0 Hx Hw Hf. apply processed_snoc in Hw.
        destruct Hw as [Hw|[-> ->]]; [eauto|].
        assert (e0 = e) by congruence. subst e0.
        now apply has_true_iff.
    + assert (Hlen : List.length (JSMap.keys (edgeIndexMap (subGraph s)))
                     = edgeCount s).
      { rewrite length_keys_values, inv_edgeIndex0. apply length_seq. }
      assert (Habs : ~ In (edge_id e) (JSMap.keys (edgeIndexMap (subGraph s)))).
      { now apply has_false_iff. }
      assert (Hkeys : JSMap.keys (JSMap.set (edgeIndexMap (subGraph s))
                                    (edge_id e) (edgeCount s))
                      = JSMap.keys (edgeIndexMap (subGraph s))
                        ++ [edge_id e]).
      { rewrite (set_absent _ _ _ Ehas). unfold JSMap.keys.
        now rewrite map_app. }
      constructor; unfold vis in *;
        cbn [heap queue subGraph nodeCount edgeCount set_subGraph_edge
             nodes edges nodeIndexMap nodeMap edgeIndexMap edgeIDMap];
        rewrite ?Hkeys.
      * rewrite (set_absent _ _ _ Ehas). unfold JSMap.values.
        rewrite map_app. fold (JSMap.values (edgeIndexMap (subGraph s))).
        rewrite inv_edgeIndex0, seq_S. reflexivity.
      * apply NoDup_app;
          [assumption | repeat constructor; simpl; tauto |].
        intros a Ha [<-|[]]. contradiction.
      * rewrite inv_edgeIDMap0, set_absent.
        -- rewrite <- Hlen at 3.
           replace (S (List.length (JSMap.keys (edgeIndexMap (subGraph s)))))
             with (List.length (JSMap.keys (edgeIndexMap (subGraph s))
                                ++ [edge_id e]))
             by (rewrite length_app; simpl; lia).
           rewrite combine_seq_snoc. rewrite Hlen. reflexivity.
        -- apply has_false_iff. rewrite keys_combine.
           ++ rewrite in_seq. lia.
           ++ rewrite length_seq. now rewrite Hlen.
      * rewrite set_absent
          by (apply has_false_iff; now rewrite inv_edges_keys0).
        unfold JSMap.keys in *. rewrite !map_app. now rewrite inv_edges_keys0.
      * intros key e0.
        rewrite set_absent
          by (apply has_false_iff; now rewrite inv_edges_keys0).
        rewrite in_app_iff. cbn [In]. intros [Hin|[[= <- <-]|[]]].
        -- destruct (inv_edges_sound0 key e0 Hin)
             as (Hk & x & w & Hx & Hw & Hf).
           split; [assumption|]. exists x, w. rewrite processed_snoc. auto.
        -- split; [reflexivity|]. exists u, item. rewrite processed_snoc.
           auto.
      * intros x w e0 Hx Hw Hf. rewrite in_app_iff. cbn [In].
        apply processed_snoc in Hw. destruct Hw as [Hw|[-> ->]].
        -- left. eapply inv_edges_complete0; eauto.
        -- right. left. congruence.
  - constructor; try assumption.
    + intros key e0 Hin.
      destruct (inv_edges_sound0 key e0 Hin) as (Hk & x & w & Hx & Hw & Hf).
      split; [assumption|]. exists x, w. rewrite processed_snoc. auto.
    + intros x w e0 Hx Hw Hf. apply processed_snoc in Hw.
      destruct Hw as [Hw|[-> ->]]; [eauto|]. congruence.
Qed.
Lemma vis_visit (u : ref) (s : BFS) (item : ref) :
  vis (visit E u s item) = vis s.
Proof.
  unfold vis, visit.
  destruct (visit_edge_frame u (visit_distance u s item) item)
    as (_ & _ & _ & -> & _).
  now destruct (vis_visit_distance u s item) as (-> & _).
Qed.

Lemma visit_InvN (u : ref) (s : BFS) (item : ref) :
  InvN k root hI s -> In u (vis s) -> item < size hI ->
  InvN k root hI (visit E u s item).
Proof.
  intros HN Hu Hitem. unfold visit.
  destruct (visit_edge_frame u (visit_distance u s item) item)
    as (H1 & H2 & H3 & H4 & H5 & H6).
  apply (InvN_frame _ _ H1 H2 H3 H4 H5 H6).
  apply visit_distance_InvN; [assumption | | assumption].
  apply (inv_finite HN). apply in_app_iff. now left.
Qed.

Lemma visit_InvE (u : ref) (done : list ref) (s : BFS) (item : ref) :
  InvN k root hI s -> InvE E hI (Some (u, done)) s ->
  In u (vis s) -> item < size hI ->
  InvE E hI (Some (u, done ++ [item])) (visit E u s item).
Proof.
  intros HN HE Hu Hitem. unfold visit.
  destruct (vis_visit_distance u s item) as (Hg & _ & Hc).
  apply visit_edge_InvE.
  - apply inv_id with (k := k) (root := root).
    apply visit_distance_InvN; [assumption | | assumption].
    apply (inv_finite HN). apply in_app_iff. now left.
  - now apply (InvE_frame _ _ _ Hg Hc).
  - unfold vis. now rewrite Hg.
Qed.

Lemma visit_InvB (u : ref) (done : list ref) (s : BFS) (item : ref) :
  InvN k root hI s -> InvB root hI (Some (u, done)) s ->
  In u (vis s) -> In item (adjacentSet (cell hI u)) ->
  InvB root hI (Some (u, done ++ [item])) (visit E u s item).
Proof.
  intros HN HB Hu Hadj. unfold visit.
  destruct (visit_edge_frame u (visit_distance u s item) item)
    as (H1 & H2 & _ & H4 & _).
  apply (InvB_frame _ _ _ H1 H2 H4).
  now apply visit_distance_InvB.
Qed.

(** The whole for loop, from the items [done] on. *)
Lemma visit_fold (u : ref) (todo done : list ref) (s : BFS) :
  InvN k root hI s -> InvE E hI (Some (u, done)) s ->
  In u (vis s) ->
  (forall w, In w todo -> w < size hI) ->
  InvN k root hI (fold_left (visit E u) todo s)
  /\ InvE E hI (Some (u, done ++ todo)) (fold_left (visit E u) todo s)
  /\ vis (fold_left (visit E u) todo s) = vis s.
Proof.
  revert done s. induction todo as [|item todo IH]; intros done s HN HE Hu Hall.
  - cbn [fold_left]. now rewrite app_nil_r.
  - cbn [fold_left].
    assert (Hitem : item < size hI) by (apply Hall; now left).
    destruct (IH (done ++ [item]) (visit E u s item)) as (H1 & H2 & H3).
    + now apply visit_InvN.
    + now apply visit_InvE.
    + now rewrite vis_visit.
    + intros w Hw. apply Hall. now right.
    + rewrite <- app_assoc in H2. cbn [app] in H2.
      rewrite H3, vis_visit. auto.
Qed.

Lemma visit_fold_B (u : ref) (todo done : list ref) (s : BFS) :
  InvN k root hI s -> InvB root hI (Some (u, done)) s ->
  In u (vis s) ->
  (forall w, In w todo -> w < size hI) ->
  (forall w, In w todo -> In w (adjacentSet (cell hI u))) ->
  InvB root hI (Some (u, done ++ todo)) (fold_left (visit E u) todo s).
Proof.
  revert done s.
  induction todo as [|item todo IH]; intros done s HN HB Hu Hall Hadj.
  - cbn [fold_left]. now rewrite app_nil_r.
  - cbn [fold_left].
    assert (Hitem : item < size hI) by (apply Hall; now left).
    replace (done ++ item :: todo) with ((done ++ [item]) ++ todo)
      by (now rewrite <- app_assoc).
    apply IH.
    + now apply visit_InvN.
    + apply visit_InvB; auto. apply Hadj. now left.
    + now rewrite vis_visit.
    + intros w Hw. apply Hall. now right.
    + intros w Hw. apply Hadj. now right.
Qed.
End InnerLoop.

(* ================================================================== *)
(** * The bound on the iterations of the while loop *)

Lemma filter_length_flip (f f' : nat -> bool) (l : list nat) (r : nat) :
  NoDup l -> In r l -> f r = true -> f' r = false ->
  (forall x, x <> r -> f' x = f x) ->
  S (List.length (filter f' l)) = List.length (filter f l).
Proof.
  intros Hnd Hin Hr Hr' Hsame.
  induction l as [|a l IH]; [contradiction|].
  inversion Hnd as [|? ? Hna Hnd']; subst.
  destruct Hin as [->|Hin].
  - cbn [filter]. rewrite Hr, Hr'. cbn [List.length]. f_equal.
    f_equal. apply filter_ext_in. intros x Hx. apply Hsame. congruence.
  - cbn [filter]. rewrite Hsame by congruence.
    destruct (f a); cbn [List.length]; rewrite <- IH; auto.
Qed.

Lemma infinite_count_set_distance (h : Heap) (r : ref) (d : Distance) :
  lab h r = Infinity -> d <> Infinity -> r < size h ->
  S (infinite_count (set_distance h r d)) = infinite_count h.
Proof.
  intros Hr Hd Hlt. unfold infinite_count.
  change (size (set_distance h r d)) with (size h).
  apply filter_length_flip with (r := r).
  - apply seq_NoDup.
  - apply in_seq. lia.
  - now rewrite Hr.
  - rewrite lab_set_distance_same. now apply Distance_eqb_Infinity_false.
  - intros x Hx. now rewrite lab_set_distance_other.
Qed.

Lemma visit_measure (E : JSMap.t string GraphEdge) (u : ref) (s : BFS)
    (item : ref) :
  lab (heap s) u <> Infinity -> item < size (heap s) ->
  measure (visit E u s item) = measure s.
Proof.
  intros Hu Hitem. unfold measure, visit.
  destruct (visit_edge_frame E u (visit_distance u s item) item)
    as (-> & -> & _).
  unfold visit_distance. fold (lab (heap s) item). fold (lab (heap s) u).
  destruct (Distance_eqb (lab (heap s) item) Infinity) eqn:Einf;
    [|reflexivity].
  apply Distance_eqb_Infinity in Einf.
  cbn [heap queue]. rewrite length_app. cbn [List.length].
  rewrite <- (infinite_count_set_distance (heap s) item
                (Distance_succ (lab (heap s) u))); auto; [lia|].
  destruct (lab (heap s) u); [congruence | discriminate].
Qed.

Lemma visit_fold_measure (E : JSMap.t string GraphEdge) (k : nat)
    (root : ref) (hI : Heap) (u : ref) (todo : list ref) (s : BFS) :
  InvN k root hI s -> In u (vis s) ->
  (forall w, In w todo -> w < size hI) ->
  measure (fold_left (visit E u) todo s) = measure s.
Proof.
  revert s. induction todo as [|item todo IH]; intros s HN Hu Hall;
    cbn [fold_left]; [reflexivity|].
  assert (Hitem : item < size hI) by (apply Hall; now left).
  rewrite IH.
  - apply visit_measure.
    + apply (inv_finite HN). apply in_app_iff. now left.
    + now rewrite (inv_size HN).
  - now apply visit_InvN.
  - now rewrite vis_visit.
  - intros w Hw. apply Hall. now right.
Qed.

(* ================================================================== *)
(** * The while loop *)

Section OuterLoop.
Variables (E : JSMap.t string GraphEdge) (k : nat) (root : ref) (hI : Heap).

Lemma vis_dequeued (s : BFS) (c : ref) (rest : list ref) :
  InvN k root hI s -> vis (dequeued s c rest) = vis s ++ [c].
Proof.
  intros HN. unfold vis, dequeued.
  cbn [subGraph set_subGraph_node nodeMap].
  rewrite set_absent.
  - unfold JSMap.values. now rewrite map_app.
  - apply has_false_iff. rewrite (inv_nodeMap HN), keys_combine.
    + rewrite (inv_nodeCount HN), in_seq. lia.
    + now rewrite length_seq.
Qed.

Lemma gtb_false_bound (h : Heap) (c : ref) :
  Distance_gtb (lab h c) k = false ->
  lab h c <> Infinity /\ hops h c <= k.
Proof.
  unfold hops. destruct (lab h c) as [|n]; cbn [Distance_gtb].
  - discriminate.
  - intros Hlt. apply Nat.ltb_ge in Hlt. split; [discriminate | assumption].
Qed.

Lemma dequeued_InvN (s : BFS) (c : ref) (rest : list ref) :
  InvN k root hI s -> queue s = c :: rest ->
  Distance_gtb (lab (heap s) c) k = false ->
  InvN k root hI (dequeued s c rest).
Proof.
  intros HN Hq Hgt.
  pose proof (vis_dequeued s c rest HN) as Hvis.
  destruct (gtb_false_bound _ _ Hgt) as [_ Hle].
  assert (Happ : (vis s ++ [c]) ++ rest = vis s ++ queue s).
  { now rewrite <- app_assoc, Hq. }
  destruct HN.
  constructor; rewrite ?Hvis; cbn [dequeued heap queue subGraph nodeCount];
    rewrite ?Happ; try assumption.
  - intros r. rewrite in_app_iff. cbn [In]. intros [Hr|[<-|[]]]; auto.
  - rewrite length_app. cbn [List.length]. lia.
  - cbn [dequeued subGraph set_subGraph_node nodeMap].
    rewrite set_absent.
    + rewrite inv_nodeMap0 at 1. rewrite combine_seq_snoc.
      now rewrite inv_nodeCount0.
    + apply has_false_iff. rewrite inv_nodeMap0, keys_combine.
      * rewrite inv_nodeCount0, in_seq. lia.
      * now rewrite length_seq.
  - cbn [dequeued subGraph set_subGraph_node nodeIndexMap].
    unfold index_nodes. rewrite combine_seq_snoc, fold_left_app.
    cbn [fold_left fst snd]. fold (index_nodes hI (vis s)).
    now rewrite inv_nodeIndexMap0, inv_id0, inv_nodeCount0.
  - cbn [dequeued subGraph set_subGraph_node nodes].
    unfold register_nodes. rewrite fold_left_app. cbn [fold_left].
    fold (register_nodes hI (vis s)).
    now rewrite inv_nodes0, inv_id0.
  - left. rewrite in_app_iff. cbn [In].
    destruct inv_root_in0 as [Hin|[rest' Hq']]; [now left|].
    right. left. congruence.
Qed.

Lemma head_not_visited (s : BFS) (c : ref) (rest : list ref) :
  InvN k root hI s -> queue s = c :: rest -> ~ In c (vis s).
Proof.
  intros HN Hq Hin. pose proof (inv_nodup HN) as Hnd. rewrite Hq in Hnd.
  apply NoDup_remove_2 in Hnd. apply Hnd. apply in_app_iff. now left.
Qed.

Lemma dequeued_InvE (s : BFS) (c : ref) (rest : list ref) :
  InvN k root hI s -> InvE E hI None s -> queue s = c :: rest ->
  InvE E hI (Some (c, [])) (dequeued s c rest).
Proof.
  intros HN HE Hq.
  pose proof (vis_dequeued s c rest HN) as Hvis.
  pose proof (head_not_visited s c rest HN Hq) as Hc.
  destruct HE.
  constructor; rewrite ?Hvis;
    cbn [dequeued subGraph set_subGraph_node edgeIndexMap edgeIDMap edges
         edgeCount]; try assumption.
  - intros key e Hin.
    destruct (inv_edges_sound0 key e Hin) as (Hk & x & w & Hx & Hw & Hf).
    split; [assumption|]. exists x, w. repeat split; auto.
    + apply in_app_iff. now left.
    + cbn [processed] in *.
      destruct (Nat.eqb_spec x c) as [->|_]; [contradiction|assumption].
  - intros x w e. rewrite in_app_iff. cbn [In processed].
    destruct (Nat.eqb_spec x c) as [->|Hne]; [intros _ []|].
    intros [Hx|[Heq|[]]] Hw Hf; [|congruence].
    eapply inv_edges_complete0; eauto.
Qed.

Lemma dequeued_InvB (s : BFS) (c : ref) (rest : list ref) :
  InvN k root hI s -> InvB root hI None s -> queue s = c :: rest ->
  InvB root hI (Some (c, [])) (dequeued s c rest).
Proof.
  intros HN HB Hq.
  pose proof (vis_dequeued s c rest HN) as Hvis.
  assert (Happ : (vis s ++ [c]) ++ rest = vis s ++ queue s).
  { now rewrite <- app_assoc, Hq. }
  destruct HB. cbn [front app] in *. rewrite Hq in *.
  constructor; rewrite ?Hvis; cbn [heap queue dequeued front app];
    rewrite ?Happ, ?Hq; try assumption.
  - intros x y. rewrite in_app_iff. cbn [In].
    intros [Hx|[<-|[]]] Hy; [auto|].
    destruct Hy as [<-|Hy]; [lia|].
    apply StronglySorted_inv in b_sorted0. destruct b_sorted0 as [_ Hall].
    rewrite Forall_forall in Hall. now apply Hall.
  - intros x w. rewrite in_app_iff. cbn [In processed].
    destruct (Nat.eqb_spec x c) as [->|Hne]; [intros _ []|].
    intros [Hx|[Heq|[]]] Hw; [auto|congruence].
Qed.

Lemma InvE_loop_head (c : ref) (s : BFS) :
  InvE E hI (Some (c, adjacentSet (cell hI c))) s -> InvE E hI None s.
Proof.
  intros [].
  assert (Hp : forall x, processed hI (Some (c, adjacentSet (cell hI c))) x
                         = processed hI None x).
  { intros x. cbn [processed]. now destruct (Nat.eqb_spec x c) as [->|]. }
  constructor; try assumption.
  - intros key e Hin.
    destruct (inv_edges_sound0 key e Hin) as (Hk & x & w & Hx & Hw & Hf).
    split; [assumption|]. exists x, w. now rewrite <- Hp.
  - intros x w e Hx Hw. rewrite <- Hp in Hw. eauto.
Qed.

Lemma InvB_loop_head (c : ref) (s : BFS) :
  InvB root hI (Some (c, adjacentSet (cell hI c))) s -> InvB root hI None s.
Proof.
  intros [].
  assert (Hp : forall x, processed hI (Some (c, adjacentSet (cell hI c))) x
                         = processed hI None x).
  { intros x. cbn [processed]. now destruct (Nat.eqb_spec x c) as [->|]. }
  cbn [front app] in *.
  constructor; cbn [front app]; try assumption.
  - now apply StronglySorted_inv in b_sorted0.
  - intros x y Hx Hy. apply b_vis_le0; [assumption | now right].
  - intros x y Hx Hy. apply b_spread0; now right.
  - intros x w Hx Hw. rewrite <- Hp in Hw. auto.
Qed.

Hypothesis Hclosed : heap_closed hI.

(** With enough fuel, the loop is left in a state that satisfies the
    invariants and the exit condition; the state returned differs from
    it in the queue only. *)
Lemma bfs_runs (fuel : nat) (s : BFS) :
  InvN k root hI s -> InvE E hI None s ->
  measure s < fuel ->
  exists sd s',
    bfs fuel E k s = Ok s'
    /\ InvN k root hI sd /\ InvE E hI None sd
    /\ (InvB root hI None s -> InvB root hI None sd)
    /\ loop_exit k sd
    /\ heap s' = heap sd /\ subGraph s' = subGraph sd
    /\ nodeCount s' = nodeCount sd /\ edgeCount s' = edgeCount sd.
Proof.
  revert s. induction fuel as [|fuel IH]; intros s HN HE Hlt; [lia|].
  cbn [bfs]. destruct (queue s) as [|c rest] eqn:Hq.
  - exists s, s. unfold loop_exit. auto 12.
  - fold (lab (heap s) c).
    destruct (Distance_gtb (lab (heap s) c) k) eqn:Hgt.
    + exists s. eexists. split; [reflexivity|].
      cbn [heap subGraph nodeCount edgeCount].
      assert (loop_exit k s) by (right; eauto).
      auto 12.
    + fold (dequeued s c rest).
      pose proof (dequeued_InvN s c rest HN Hq Hgt) as HN1.
      pose proof (dequeued_InvE s c rest HN HE Hq) as HE1.
      assert (Hc : In c (vis (dequeued s c rest))).
      { rewrite (vis_dequeued s c rest HN). apply in_app_iff. right.
        now left. }
      assert (Hall : forall w, In w (adjacentSet (cell (heap s) c)) ->
                               w < size hI).
      { intros w Hw. rewrite (inv_adj HN) in Hw.
        apply (Hclosed c); [|assumption].
        apply (inv_alloc HN). apply in_app_iff. right. rewrite Hq.
        now left. }
      destruct (visit_fold E k root hI c (adjacentSet (cell (heap s) c))
                  [] (dequeued s c rest) HN1 HE1 Hc Hall)
        as (HN2 & HE2 & Hvis2).
      cbn [app] in HE2. rewrite (inv_adj HN) in HE2 at 1.
      apply InvE_loop_head in HE2.
      destruct (IH _ HN2 HE2) as (sd & s' & Hrun & HNd & HEd & HBd & Hrest).
      { rewrite (visit_fold_measure E k root hI c _ _ HN1 Hc Hall).
        unfold measure in *. cbn [dequeued heap queue].
        rewrite Hq in Hlt. cbn [List.length] in Hlt. lia. }
      exists sd, s'. split; [exact Hrun|].
      split; [assumption|]. split; [assumption|].
      split; [|assumption].
      intros HB. apply HBd.
      apply InvB_loop_head with (c := c).
      rewrite <- (inv_adj HN) at 1.
      change (adjacentSet (cell (heap s) c))
        with ([] ++ adjacentSet (cell (heap s) c)) at 1.
      apply (visit_fold_B E k root hI); auto.
      * now apply dequeued_InvB.
      * intros w Hw. now rewrite <- (inv_adj HN).
Qed.
End OuterLoop.

(* ================================================================== *)
(** * generateSubGraph *)

Section Start.
Variables (E : JSMap.t string GraphEdge) (k : nat) (root : ref) (h : Heap).

Let hI := set_distance h root (Hops 0).

Lemma bfs_start_InvN : root < size h -> InvN k root hI (bfs_start h root).
Proof.
  intros Hroot.
  constructor; unfold vis, bfs_start; cbn; auto.
  - apply lab_set_distance_same.
  - intros r [<-|[]]. assumption.
  - repeat constructor; simpl; tauto.
  - intros r [<-|[]]. unfold hI. rewrite lab_set_distance_same. discriminate.
  - tauto.
  - intros r [<-|[]]. now left.
  - right. now exists [].
Qed.

Lemma bfs_start_InvE : InvE E hI None (bfs_start h root).
Proof.
  constructor; unfold vis, bfs_start; cbn; auto.
  - constructor.
  - intros key e [].
Qed.

Lemma bfs_start_InvB :
  distances_fresh h -> InvB root hI None (bfs_start h root).
Proof.
  intros Hfresh.
  assert (Hlab : forall r, lab hI r <> Infinity -> r = root).
  { intros r. unfold hI. rewrite lab_set_distance.
    destruct (Nat.eqb_spec r root); [auto|].
    intros Hfin. exfalso. apply Hfin. apply Hfresh. }
  constructor; unfold vis; cbn [bfs_start heap queue subGraph front app];
    fold hI.
  - intros r n Hr.
    assert (r = root) by (apply Hlab; congruence). subst r.
    unfold hI in Hr. rewrite lab_set_distance_same in Hr.
    injection Hr as <-. constructor.
  - intros r Hr. rewrite (Hlab r Hr). cbn. now left.
  - repeat constructor.
  - intros x y [].
  - intros x y [<-|[]] [<-|[]]. lia.
  - intros x w [].
Qed.

Lemma heap_closed_start : heap_closed h -> heap_closed hI.
Proof.
  intros Hc r w Hr Hw. unfold hI in *.
  rewrite adjacentSet_set_distance in Hw. now apply (Hc r).
Qed.
End Start.

Section Exit.
Variables (E : JSMap.t string GraphEdge) (k : nat) (root : ref) (hI : Heap).
Variable sd : BFS.
Hypothesis HN : InvN k root hI sd.
Hypothesis Hexit : loop_exit k sd.

(** When the loop is left, the seed has been dequeued. *)
Lemma exit_root_visited : In root (vis sd).
Proof.
  destruct (inv_root_in HN) as [Hin|[rest Hq]]; [assumption|].
  destruct Hexit as [Hnil|(c & rest' & Hq' & Hgt)]; [congruence|].
  assert (c = root) by congruence. subst c.
  rewrite (inv_root HN) in Hgt. cbn [Distance_gtb] in Hgt.
  apply Nat.ltb_lt in Hgt. lia.
Qed.

Hypothesis HB : InvB root hI None sd.

(** When the loop is left, the nodes labelled up to [k] have all been
    dequeued. *)
Lemma exit_labelled_visited (r : ref) :
  lab (heap sd) r <> Infinity -> hops (heap sd) r <= k -> In r (vis sd).
Proof.
  intros Hfin Hle.
  pose proof (b_seen HB r Hfin) as Hin. apply in_app_iff in Hin.
  destruct Hin as [Hin|Hin]; [assumption|exfalso].
  destruct Hexit as [Hnil|(c & rest & Hq & Hgt)].
  - rewrite Hnil in Hin. contradiction.
  - assert (Hc : k < hops (heap sd) c).
    { assert (Hcf : lab (heap sd) c <> Infinity).
      { apply (inv_finite HN). apply in_app_iff. right. rewrite Hq.
        now left. }
      rewrite (lab_finite _ _ Hcf) in Hgt. cbn [Distance_gtb] in Hgt.
      now apply Nat.ltb_lt in Hgt. }
    pose proof (b_sorted HB) as Hs. cbn [front app] in Hs.
    rewrite Hq in Hs, Hin.
    apply StronglySorted_inv in Hs. destruct Hs as [_ Hall].
    rewrite Forall_forall in Hall.
    destruct Hin as [<-|Hin]; [lia|].
    specialize (Hall r Hin). cbv beta in Hall. lia.
Qed.

(** The nodes dequeued are those within [k] hops of the seed. *)
Lemma exit_visited_iff (r : ref) :
  In r (vis sd) <-> within_hops hI root k r.
Proof.
  split.
  - intros Hin. exists (hops (heap sd) r). split.
    + now apply (inv_bound HN).
    + apply (b_path HB). apply lab_finite.
      apply (inv_finite HN). apply in_app_iff. now left.
  - intros (n & Hn & Hp).
    enough (In r (vis sd) /\ hops (heap sd) r <= n) by tauto.
    induction Hp as [|n u w Hp IH Hw].
    + split.
      * apply exit_root_visited.
      * now rewrite (hops_of_lab _ _ _ (inv_root HN)).
    + destruct IH as [Hu Hule]; [lia|].
      destruct (b_closed HB u w Hu Hw) as [Hwf Hwle].
      split; [|lia]. apply exit_labelled_visited; [assumption|lia].
Qed.
End Exit.

Lemma filter_length_lt (f : nat -> bool) (l : list nat) (x : nat) :
  In x l -> f x = false -> List.length (filter f l) < List.length l.
Proof.
  intros Hin Hx. induction l as [|a l IH]; [contradiction|].
  cbn [filter]. destruct Hin as [->|Hin].
  - rewrite Hx. cbn [List.length].
    pose proof (filter_length_le f l). lia.
  - specialize (IH Hin). destruct (f a); cbn [List.length]; lia.
Qed.

Lemma infinite_count_lt (h : Heap) (r : ref) :
  r < size h -> lab h r <> Infinity -> infinite_count h < size h.
Proof.
  intros Hr Hfin. unfold infinite_count.
  pose proof (filter_length_lt
                (fun r => Distance_eqb (lab h r) Infinity)
                (seq 0 (size h)) r) as Hlt.
  rewrite length_seq in Hlt. apply Hlt.
  - apply in_seq. lia.
  - now apply Distance_eqb_Infinity_false.
Qed.

Lemma combine_snoc {A B : Type} (la : list A) (lb : list B) (a : A) (b : B) :
  List.length la = List.length lb ->
  combine (la ++ [a]) (lb ++ [b]) = combine la lb ++ [(a, b)].
Proof.
  revert lb. induction la as [|x la IH]; intros [|y lb]; cbn; try congruence.
  intros [= Hl]. now rewrite IH.
Qed.

Lemma in_combine_map {A B : Type} (f : A -> B) (l : list A) (b : B) (a : A) :
  In (b, a) (combine (map f l) l) <-> b = f a /\ In a l.
Proof.
  induction l as [|x l IH]; cbn.
  - tauto.
  - rewrite IH. split.
    + intros [[= <- <-]|[-> Hin]]; auto.
    + intros [-> [->|Hin]]; auto.
Qed.

(** Registering nodes with distinct ids never overwrites an entry. *)
Lemma register_nodes_distinct (h : Heap) (l : list ref) :
  NoDup (map (fun r => id (cell h r)) l) ->
  register_nodes h l = combine (map (fun r => id (cell h r)) l) l.
Proof.
  induction l as [|x l IH] using rev_ind; intros Hnd; [reflexivity|].
  rewrite map_app in Hnd. cbn [map] in Hnd.
  unfold register_nodes. rewrite fold_left_app. cbn [fold_left].
  fold (register_nodes h l).
  rewrite IH by now apply NoDup_app_remove_r in Hnd.
  rewrite set_absent.
  - rewrite map_app. cbn [map]. rewrite combine_snoc; [reflexivity|].
    apply length_map.
  - apply has_false_iff. rewrite keys_combine by apply length_map.
    apply NoDup_remove_2 in Hnd. now rewrite app_nil_r in Hnd.
Qed.

Lemma index_nodes_distinct (h : Heap) (l : list ref) :
  NoDup (map (fun r => id (cell h r)) l) ->
  index_nodes h l
  = combine (map (fun r => id (cell h r)) l) (seq 0 (List.length l)).
Proof.
  induction l as [|x l IH] using rev_ind; intros Hnd; [reflexivity|].
  rewrite map_app in Hnd. cbn [map] in Hnd.
  unfold index_nodes. rewrite combine_seq_snoc, fold_left_app.
  cbn [fold_left fst snd]. fold (index_nodes h l).
  rewrite IH by now apply NoDup_app_remove_r in Hnd.
  rewrite set_absent.
  - rewrite map_app, length_app. cbn [map List.length].
    rewrite Nat.add_1_r, seq_S. rewrite combine_snoc; [reflexivity|].
    now rewrite length_map, length_seq.
  - apply has_false_iff.
    rewrite keys_combine by now rewrite length_map, length_seq.
    apply NoDup_remove_2 in Hnd. now rewrite app_nil_r in Hnd.
Qed.

Lemma resetDistance_unchanged (h : Heap) (this : Graph) :
  _resetDistance h this = Ok h.
Proof. reflexivity. Qed.

(** A call whose seed is registered and allocated returns; the loop is left
    in a state that satisfies the invariants. *)
Lemma generateSubGraph_run (h : Heap) (g : Graph) (start : option string)
    (numHops : option nat) (key : string) (root : ref) :
  heap_closed h ->
  match start with Some s => Some s | None => defaultSeed h g end = Some key ->
  JSMap.get (nodes g) key = Some root ->
  root < size h ->
  let k := match numHops with Some k => k | None => 3 end in
  let hI := set_distance h root (Hops 0) in
  exists sd,
    InvN k root hI sd /\ InvE (edges g) hI None sd
    /\ (distances_fresh h -> InvB root hI None sd)
    /\ loop_exit k sd
    /\ generateSubGraph h g start numHops
       = Ok (heap sd,
             set_subGraph_counts (subGraph sd)
               (fold_left (push_edgeNodeIndex (heap sd) (subGraph sd))
                  (JSMap.values (edges (subGraph sd)))
                  (edgeNodeIndex (subGraph sd)))
               (nodeCount sd) (edgeCount sd)).
Proof.
  intros Hclosed Hstart Hget Hroot k hI.
  destruct (bfs_runs (edges g) k root hI (heap_closed_start root h Hclosed)
              (S (size h)) (bfs_start h root)
              (bfs_start_InvN k root h Hroot)
              (bfs_start_InvE (edges g) root h))
    as (sd & s' & Hrun & HN & HE & HB & Hexit & Hh & Hg & Hn & He).
  { unfold measure, bfs_start. cbn [heap queue List.length].
    assert (infinite_count (set_distance h root (Hops 0)) < size h).
    { apply (infinite_count_lt (set_distance h root (Hops 0)) root).
      - assumption.
      - rewrite lab_set_distance_same. discriminate. }
    lia. }
  exists sd.
  split; [assumption|]. split; [assumption|].
  split; [|split; [assumption|]].
  - intros Hfresh. apply HB. now apply bfs_start_InvB.
  - unfold generateSubGraph. rewrite Hstart, resetDistance_unchanged.
    cbn [bind]. rewrite Hget. fold (bfs_start h root). fold k.
    rewrite Hrun. cbn [bind].
    now rewrite Hh, Hg, Hn, He.
Qed.

Section ExitEdges.
Variables (E : JSMap.t string GraphEdge) (k : nat) (root : ref) (hI : Heap).
Variable sd : BFS.
Hypothesis HN : InvN k root hI sd.
Hypothesis HE : InvE E hI None sd.

Lemma exit_edge_count :
  edgeCount sd = List.length (edges (subGraph sd)).
Proof.
  rewrite <- (length_map fst). fold (JSMap.keys (edges (subGraph sd))).
  rewrite (inv_edges_keys HE), length_keys_values, (inv_edgeIndex HE).
  now rewrite length_seq.
Qed.

Hypothesis Hkeyed : edges_keyed_by_id E.

(** The edges registered are those found between a dequeued node and a
    member of its adjacent set. *)
Lemma exit_edges_iff (e : GraphEdge) :
  In e (JSMap.values (edges (subGraph sd)))
  <-> exists x w, In x (vis sd) /\ In w (adjacentSet (cell hI x))
                  /\ found E hI x w = Some e.
Proof.
  unfold JSMap.values. rewrite in_map_iff. split.
  - intros ([key e'] & Heq & Hin). cbn [snd] in Heq. subst e'.
    destruct (inv_edges_sound HE key e Hin) as (_ & x & w & Hx & Hw & Hf).
    exists x, w. auto.
  - intros (x & w & Hx & Hw & Hf).
    pose proof (inv_edges_complete HE x w Hx Hw Hf) as Hkey.
    rewrite <- (inv_edges_keys HE) in Hkey.
    unfold JSMap.keys in Hkey. apply in_map_iff in Hkey.
    destruct Hkey as ([key e'] & Heq & Hin). cbn [fst] in Heq. subst key.
    destruct (inv_edges_sound HE _ _ Hin) as (Hid & x' & w' & _ & _ & Hf').
    exists (edge_id e, e'). split; [|assumption]. cbn [snd].
    destruct (getEdgeIDFromNodes_get _ _ _ _ Hf) as (k1 & Hg1).
    destruct (getEdgeIDFromNodes_get _ _ _ _ Hf') as (k2 & Hg2).
    pose proof (Hkeyed _ _ Hg1). pose proof (Hkeyed _ _ Hg2).
    congruence.
Qed.

Hypothesis Hinj : ids_injective hI.

Lemma exit_ids_distinct :
  NoDup (map (fun r => id (cell hI r)) (vis sd)).
Proof.
  apply NoDup_map_NoDup_ForallPairs.
  - intros x y Hx Hy Heq. apply Hinj; [| |assumption];
      apply (inv_alloc HN); apply in_app_iff; now left.
  - pose proof (inv_nodup HN) as Hnd. now apply NoDup_app_remove_r in Hnd.
Qed.
End ExitEdges.

Lemma within_hops_set_distance (h : Heap) (x : ref) (d : Distance)
    (s : ref) (k : nat) (v : ref) :
  within_hops (set_distance h x d) s k v <-> within_hops h s k v.
Proof.
  unfold within_hops. split; intros (n & Hn & Hp); exists n; split; auto;
    eapply hop_path_same_adjacency; try eassumption; intros r;
    now rewrite adjacentSet_set_distance.
Qed.

Lemma found_set_distance (E : JSMap.t string GraphEdge) (h : Heap)
    (x : ref) (d : Distance) (u w : ref) :
  found E (set_distance h x d) u w
  = _getEdgeIDFromNodes E (cell h u) (cell h w).
Proof. apply getEdgeIDFromNodes_ids; apply id_set_distance. Qed.

Lemma ids_injective_set_distance (h : Heap) (x : ref) (d : Distance) :
  ids_injective h -> ids_injective (set_distance h x d).
Proof.
  intros Hinj r r' Hr Hr'. rewrite !id_set_distance. now apply Hinj.
Qed.

(** C1.  On a store whose distances are all [Infinity],
    [generateSubGraph] with seed [seed] and [numHops = k] returns a
    sub-graph whose nodes are exactly the nodes within [k] hops of the seed,
    each under its own id; its edges are exactly the parent edges that
    [_getEdgeIDFromNodes] finds between a node [u] of that set and a member
    [w] of the adjacent set of [u] (where [w] itself may lie outside the
    node set). *)
Theorem generateSubGraph_nodes_within_hops
    (h : Heap) (g : Graph) (seed : string) (root : ref) (k : nat) :
  distances_fresh h -> heap_closed h -> ids_injective h ->
  edges_keyed_by_id (edges g) ->
  JSMap.get (nodes g) seed = Some root -> root < size h ->
  exists h' sub,
    generateSubGraph h g (Some seed) (Some k) = Ok (h', sub)
    /\ (forall i r, In (i, r) (nodes sub)
                    <-> i = id (cell h r) /\ within_hops h root k r)
    /\ (forall e, In e (JSMap.values (edges sub))
                  <-> exists u w,
                        within_hops h root k u
                        /\ In w (adjacentSet (cell h u))
                        /\ _getEdgeIDFromNodes (edges g) (cell h u)
                             (cell h w) = Some e).
Proof.
  intros Hfresh Hclosed Hinj Hkeyed Hget Hroot.
  destruct (generateSubGraph_run h g (Some seed) (Some k) seed root
              Hclosed eq_refl Hget Hroot)
    as (sd & HN & HE & HB & Hexit & Hrun).
  specialize (HB Hfresh).
  eexists _, _. split; [exact Hrun|].
  cbn [set_subGraph_counts nodes edges]. split.
  - intros i r. rewrite (inv_nodes HN).
    rewrite register_nodes_distinct
      by (apply (exit_ids_distinct k root _ sd HN);
          now apply ids_injective_set_distance).
    rewrite (in_combine_map (fun r => id (cell _ r))).
    rewrite id_set_distance.
    rewrite (exit_visited_iff k root _ sd HN Hexit HB).
    now rewrite within_hops_set_distance.
  - intros e. rewrite (exit_edges_iff _ _ sd HE Hkeyed).
    split; intros (u & w & Hu & Hw & Hf); exists u, w.
    + rewrite (exit_visited_iff k root _ sd HN Hexit HB) in Hu.
      rewrite within_hops_set_distance in Hu.
      rewrite adjacentSet_set_distance in Hw.
      now rewrite found_set_distance in Hf.
    + rewrite (exit_visited_iff k root _ sd HN Hexit HB).
      rewrite within_hops_set_distance.
      rewrite adjacentSet_set_distance.
      now rewrite found_set_distance.
Qed.

(** ** The example graph is well formed *)

Lemma exHeap_fresh : distances_fresh exHeap.
Proof. intros [|[|[|[|r]]]]; reflexivity. Qed.

Lemma exHeap_closed : heap_closed exHeap.
Proof.
  intros [|[|[|r]]] w Hr; cbn in *; try lia; intros Hw;
    repeat (destruct Hw as [<-|Hw]; [lia|]); contradiction.
Qed.

Lemma exHeap_ids : ids_injective exHeap.
Proof.
  intros [|[|[|r]]] [|[|[|r']]] Hr Hr'; cbn in *;
    try lia; try reflexivity; discriminate.
Qed.

Lemma exGraph_keyed : edges_keyed_by_id (edges exGraph).
Proof.
  intros key e. cbn.
  destruct (String.eqb_spec key "A_B") as [->|_]; [now intros [= <-]|].
  destruct (String.eqb_spec key "A_C") as [->|_]; [now intros [= <-]|].
  discriminate.
Qed.

Lemma exGraph_allocated : nodes_allocated exHeap exGraph.
Proof.
  intros key r. cbn. intros [[= _ <-]|[[= _ <-]|[[= _ <-]|[]]]]; lia.
Qed.

Lemma generateSubGraph_nodes_within_hops_witness :
  exists h' sub,
    generateSubGraph exHeap exGraph (Some "A"%string) (Some 1) = Ok (h', sub)
    /\ (forall i r, In (i, r) (nodes sub)
                    <-> i = id (cell exHeap r) /\ within_hops exHeap 0 1 r)
    /\ (forall e, In e (JSMap.values (edges sub))
                  <-> exists u w,
                        within_hops exHeap 0 1 u
                        /\ In w (adjacentSet (cell exHeap u))
                        /\ _getEdgeIDFromNodes (edges exGraph)
                             (cell exHeap u) (cell exHeap w) = Some e).
Proof.
  apply (generateSubGraph_nodes_within_hops exHeap exGraph "A"%string 0 1).
  - exact exHeap_fresh.
  - exact exHeap_closed.
  - exact exHeap_ids.
  - exact exGraph_keyed.
  - reflexivity.
  - cbn. lia.
Defined.

(** C1, as stated, fails: with [numHops = 0] from A the sub-graph holds
    the edge A_B although its endpoint B is not among the nodes. *)
Lemma generateSubGraph_edge_leaves_node_set :
  distances_fresh exHeap
  /\ exists h' sub e,
       generateSubGraph exHeap exGraph (Some "A"%string) (Some 0)
       = Ok (h', sub)
       /\ In e (JSMap.values (edges sub))
       /\ ~ In (node1 e) (JSMap.values (nodes sub)).
Proof.
  split; [exact exHeap_fresh|].
  eexists _, _, (exEdge "A_B" 0 1). split; [reflexivity|].
  cbn. split; [now left|]. intros [H|[]]. discriminate.
Qed.

Lemma NoDup_all_equal {A : Type} (l : list A) (a : A) :
  NoDup l -> In a l -> (forall x, In x l -> x = a) -> l = [a].
Proof.
  intros Hnd Hin Hall. destruct l as [|x l]; [contradiction|].
  assert (x = a) by (apply Hall; now left). subst x.
  destruct l as [|y l]; [reflexivity|exfalso].
  assert (y = a) by (apply Hall; right; now left). subst y.
  inversion Hnd as [|? ? Hn _]. apply Hn. now left.
Qed.

(** With [numHops = 0] only the seed is dequeued. *)
Lemma exit_zero_hops (root : ref) (hI : Heap) (sd : BFS) :
  InvN 0 root hI sd -> loop_exit 0 sd -> vis sd = [root].
Proof.
  intros HN Hexit. apply NoDup_all_equal.
  - pose proof (inv_nodup HN) as Hnd. now apply NoDup_app_remove_r in Hnd.
  - now apply (exit_root_visited 0 root hI sd).
  - intros x Hx. pose proof (inv_bound HN x Hx) as Hle.
    destruct (inv_pos HN x) as [->|Hpos]; [|reflexivity|lia].
    apply in_app_iff. now left.
Qed.

(** C2.  [generateSubGraph] with [numHops = 0] returns a sub-graph whose
    only node is the seed; its edges are exactly the parent edges found
    between the seed and the members of its adjacent set, and the edge
    count is their number (zero exactly when there is none). *)
Theorem generateSubGraph_zero_hops
    (h : Heap) (g : Graph) (seed : string) (root : ref) :
  heap_closed h -> edges_keyed_by_id (edges g) ->
  JSMap.get (nodes g) seed = Some root -> root < size h ->
  exists h' sub,
    generateSubGraph h g (Some seed) (Some 0) = Ok (h', sub)
    /\ nodes sub = [(id (cell h root), root)]
    /\ numberOfNodes sub = 1
    /\ (forall e, In e (JSMap.values (edges sub))
                  <-> exists w,
                        In w (adjacentSet (cell h root))
                        /\ _getEdgeIDFromNodes (edges g) (cell h root)
                             (cell h w) = Some e)
    /\ numberOfEdges sub = List.length (edges sub).
Proof.
  intros Hclosed Hkeyed Hget Hroot.
  destruct (generateSubGraph_run h g (Some seed) (Some 0) seed root
              Hclosed eq_refl Hget Hroot)
    as (sd & HN & HE & _ & Hexit & Hrun).
  pose proof (exit_zero_hops _ _ _ HN Hexit) as Hvis.
  eexists _, _. split; [exact Hrun|].
  cbn [set_subGraph_counts nodes edges numberOfNodes numberOfEdges].
  split; [|split; [|split]].
  - rewrite (inv_nodes HN), Hvis. cbn. now rewrite id_set_distance.
  - now rewrite (inv_nodeCount HN), Hvis.
  - intros e. rewrite (exit_edges_iff _ _ sd HE Hkeyed), Hvis.
    split.
    + intros (u & w & [<-|[]] & Hw & Hf). exists w.
      rewrite adjacentSet_set_distance in Hw.
      now rewrite found_set_distance in Hf.
    + intros (w & Hw & Hf). exists root, w.
      rewrite adjacentSet_set_distance, found_set_distance.
      repeat split; auto. now left.
  - apply (exit_edge_count _ _ sd HE).
Qed.

Lemma generateSubGraph_zero_hops_witness :
  exists h' sub,
    generateSubGraph exHeap exGraph (Some "A"%string) (Some 0) = Ok (h', sub)
    /\ nodes sub = [(id (cell exHeap 0), 0)]
    /\ numberOfNodes sub = 1
    /\ (forall e, In e (JSMap.values (edges sub))
                  <-> exists w,
                        In w (adjacentSet (cell exHeap 0))
                        /\ _getEdgeIDFromNodes (edges exGraph)
                             (cell exHeap 0) (cell exHeap w) = Some e)
    /\ numberOfEdges sub = List.length (edges sub).
Proof.
  apply (generateSubGraph_zero_hops exHeap exGraph "A"%string 0).
  - exact exHeap_closed.
  - exact exGraph_keyed.
  - reflexivity.
  - cbn. lia.
Defined.

(** C2, as stated, fails: with [numHops = 0] from A the node set is {A}
    but two edges are counted. *)
Lemma generateSubGraph_zero_hops_counts_edges :
  distances_fresh exHeap
  /\ exists h' sub,
       generateSubGraph exHeap exGraph (Some "A"%string) (Some 0)
       = Ok (h', sub)
       /\ JSMap.values (nodes sub) = [0]
       /\ numberOfEdges sub = 2.
Proof.
  split; [exact exHeap_fresh|].
  eexists _, _. split; [reflexivity|]. cbn. auto.
Qed.

Lemma generateSubGraph_Ok_seed (h : Heap) (g : Graph)
    (start : option string) (numHops : option nat) (r : Heap * Graph) :
  generateSubGraph h g start numHops = Ok r ->
  exists key root,
    match start with Some s => Some s | None => defaultSeed h g end = Some key
    /\ JSMap.get (nodes g) key = Some root.
Proof.
  unfold generateSubGraph. rewrite resetDistance_unchanged. cbn [bind].
  destruct (match start with Some s => Some s | None => defaultSeed h g end)
    as [key|]; [|discriminate].
  destruct (JSMap.get (nodes g) key) as [root|] eqn:Hget; [|discriminate].
  intros _. now exists key, root.
Qed.

(* ================================================================== *)
(** * The dequeue order *)

Section DequeueOrder.
Variables (E : JSMap.t string GraphEdge) (k : nat).
Variables (adj : ref -> list ref) (stale : ref -> bool).

Lemma vis_visit_fold (c : ref) (items : list ref) (s : BFS) :
  vis (fold_left (visit E c) items s) = vis s.
Proof.
  revert s. induction items as [|w items IH]; intros s; cbn [fold_left];
    [reflexivity|].
  rewrite IH. apply (vis_visit E).
Qed.

(** One item of an adjacent set. *)
Lemma visit_follows (c : ref) (d : nat) (s : BFS) (w : ref)
    (q : list (ref * nat)) (seen : list ref) :
  follows adj stale s q seen -> lab (heap s) c = Hops d ->
  follows adj stale (visit E c s w)
    (fst (expand stale d [w] q seen)) (snd (expand stale d [w] q seen))
  /\ lab (heap (visit E c s w)) c = Hops d.
Proof.
  intros (Hq & Hfin & Hseen & Hkeys & Hadj) Hc.
  unfold visit.
  destruct (visit_edge_frame E c (visit_distance c s w) w)
    as (Hh & Hqq & Hn & Hm & _).
  destruct (vis_visit_distance c s w) as (Hg & Hn' & _).
  unfold follows. rewrite Hh, Hqq, Hm, Hn, Hg, Hn'.
  cbn [expand]. specialize (Hseen w) as Hw.
  unfold visit_distance. fold (lab (heap s) w). fold (lab (heap s) c).
  destruct (Distance_eqb (lab (heap s) w) Infinity) eqn:Einf.
  - apply Distance_eqb_Infinity in Einf.
    symmetry in Hw. apply negb_true_iff in Hw. rewrite Hw.
    cbn [fst snd heap queue]. rewrite Hc. cbn [Distance_succ].
    assert (Hcw : c <> w) by (intros ->; congruence).
    split; [|now rewrite lab_set_distance_other].
    split; [|split; [|split; [|split]]].
    + rewrite map_app. cbn [map]. unfold hops at 2.
      rewrite lab_set_distance_same. rewrite Hq. f_equal.
      apply map_ext_in. intros r Hr. f_equal. symmetry.
      apply hops_set_distance_other. intros ->.
      now apply Hfin in Hr.
    + intros r Hr. apply in_app_iff in Hr. destruct Hr as [Hr|[<-|[]]].
      * rewrite lab_set_distance_other; [now apply Hfin|].
        intros ->. now apply Hfin in Hr.
      * rewrite lab_set_distance_same. discriminate.
    + intros w'. rewrite existsb_app. cbn [existsb].
      rewrite orb_false_r, lab_set_distance.
      destruct (Nat.eqb_spec w' w) as [->|Hne].
      * cbn. now rewrite !orb_true_r.
      * rewrite orb_false_r. apply Hseen.
    + assumption.
    + intros r. rewrite adjacentSet_set_distance. apply Hadj.
  - symmetry in Hw. apply negb_false_iff in Hw. rewrite Hw.
    cbn [fst snd]. unfold follows. auto 10.
Qed.

Lemma expand_app (d : nat) (l1 l2 : list ref) (q : list (ref * nat))
    (seen : list ref) :
  expand stale d (l1 ++ l2) q seen
  = expand stale d l2 (fst (expand stale d l1 q seen))
      (snd (expand stale d l1 q seen)).
Proof.
  revert q seen. induction l1 as [|w l1 IH]; intros q seen; cbn [app expand];
    [reflexivity|].
  destruct (stale w || existsb (Nat.eqb w) seen); apply IH.
Qed.

(** The for loop over an adjacent set. *)
Lemma visit_fold_follows (c : ref) (d : nat) (items : list ref) (s : BFS)
    (q : list (ref * nat)) (seen : list ref) :
  follows adj stale s q seen -> lab (heap s) c = Hops d ->
  follows adj stale (fold_left (visit E c) items s)
    (fst (expand stale d items q seen))
    (snd (expand stale d items q seen)).
Proof.
  revert s q seen. induction items as [|w items IH]; intros s q seen Hf Hc.
  - exact Hf.
  - cbn [fold_left]. change (w :: items) with ([w] ++ items).
    rewrite expand_app.
    destruct (visit_follows c d s w q seen Hf Hc) as [Hf' Hc'].
    now apply IH.
Qed.

(** The while loop dequeues the nodes in the order of the
    specification. *)
Lemma bfs_follows (fuel : nat) (s sd : BFS) (q : list (ref * nat))
    (seen : list ref) :
  follows adj stale s q seen ->
  bfs fuel E k s = Ok sd ->
  vis sd = vis s ++ dequeue_order fuel adj stale k q seen.
Proof.
  revert s q seen. induction fuel as [|fuel IH]; intros s q seen Hf;
    cbn [bfs dequeue_order]; [discriminate|].
  destruct Hf as (Hq & Hfin & Hseen & Hkeys & Hadj).
  destruct (queue s) as [|c rest] eqn:Eq; cbn [map] in Hq; subst q.
  - intros [= <-]. now rewrite app_nil_r.
  - fold (lab (heap s) c).
    assert (Hc : lab (heap s) c <> Infinity) by (apply Hfin; now left).
    destruct (lab (heap s) c) as [|d] eqn:Ec; [congruence|].
    rewrite (hops_of_lab _ _ _ Ec). cbn [Distance_gtb].
    destruct (Nat.ltb k d).
    + intros [= <-]. unfold vis. cbn [subGraph]. now rewrite app_nil_r.
    + fold (dequeued s c rest). intros Hrun.
      assert (Hvis : vis (dequeued s c rest) = vis s ++ [c]).
      { unfold vis, dequeued. cbn [subGraph set_subGraph_node nodeMap].
        rewrite set_absent.
        - unfold JSMap.values. now rewrite map_app.
        - apply has_false_iff. rewrite Hkeys, in_seq. lia. }
      assert (Hf1 : follows adj stale (dequeued s c rest)
                      (map (fun r => (r, hops (heap s) r)) rest) seen).
      { unfold follows, dequeued.
        cbn [heap queue subGraph nodeCount set_subGraph_node nodeMap].
        split; [reflexivity|]. split; [intros r Hr; apply Hfin; now right|].
        split; [assumption|]. split; [|assumption].
        rewrite set_absent.
        - unfold JSMap.keys in *. rewrite map_app, Hkeys. cbn [map fst].
          now rewrite seq_S.
        - apply has_false_iff. rewrite Hkeys, in_seq. lia. }
      rewrite (IH _ _ _ (visit_fold_follows c d _ _ _ _ Hf1 Ec) Hrun).
      rewrite vis_visit_fold, Hvis, <- app_assoc. cbn [app].
      now rewrite Hadj.
Qed.
End DequeueOrder.

(** The nodes of the sub-graph are the nodes that the breadth-first
    traversal of the specification dequeues, in its order. *)
Lemma generateSubGraph_order (h : Heap) (g : Graph) (start : option string)
    (numHops : option nat) (key : string) (root : ref) (h' : Heap)
    (sub : Graph) :
  match start with Some s => Some s | None => defaultSeed h g end = Some key ->
  JSMap.get (nodes g) key = Some root ->
  generateSubGraph h g start numHops = Ok (h', sub) ->
  JSMap.values (nodeMap sub)
  = bfs_dequeue_order h root (match numHops with Some k => k | None => 3 end).
Proof.
  intros Hstart Hget. unfold generateSubGraph.
  rewrite Hstart, resetDistance_unchanged. cbn [bind]. rewrite Hget.
  destruct (bfs _ _ _ _) as [s| |] eqn:Hrun; cbn [bind]; try discriminate.
  intros [= _ <-]. cbn [set_subGraph_counts nodeMap].
  apply (bfs_follows (edges g) _ (fun r => adjacentSet (cell h r))
           (fun r => negb (Distance_eqb (distance (cell h r)) Infinity))
           _ _ _ [(root, 0)] [root]) in Hrun.
  - exact Hrun.
  - unfold follows. cbn [heap queue subGraph nodeCount map]. split.
    + unfold hops. now rewrite lab_set_distance_same.
    + split.
      * intros r [<-|[]]. rewrite lab_set_distance_same. discriminate.
      * split; [|split; [reflexivity|]].
        -- intros w. cbn [existsb]. rewrite orb_false_r, lab_set_distance.
           destruct (Nat.eqb_spec w root) as [->|Hne].
           ++ cbn. now rewrite orb_true_r.
           ++ rewrite orb_false_r, negb_involutive. reflexivity.
        -- intros r. apply adjacentSet_set_distance.
Qed.

(** C9.  On a store in which distinct node objects have
    distinct ids, every sub-graph that [generateSubGraph] returns holds
    its nodes under the indices 0..n-1 in the order in which the
    breadth-first traversal dequeues them, the seed first: [nodeMap] maps
    the index to the node, [nodeIndexMap] the node's id to the index and
    [nodes] the id to the node, with n the node count.  The edge index map
    assigns the indices 0..m-1, with m the edge count, to the ids of the
    edges found between a dequeued node and a member of its adjacent set.
    No gap, and no index or key twice. *)
Theorem generateSubGraph_dense_indices
    (h : Heap) (g : Graph) (start : option string) (numHops : option nat)
    (h' : Heap) (sub : Graph) :
  heap_closed h -> ids_injective h -> nodes_allocated h g ->
  generateSubGraph h g start numHops = Ok (h', sub) ->
  exists key root,
    match start with Some s => Some s | None => defaultSeed h g end = Some key
    /\ JSMap.get (nodes g) key = Some root
    /\ let order :=
         bfs_dequeue_order h root
           (match numHops with Some k => k | None => 3 end) in
       let ids := map (fun r => id (cell h r)) order in
       JSMap.values (nodeMap sub) = order
       /\ hd_error order = Some root
       /\ NoDup order /\ NoDup ids
       /\ numberOfNodes sub = List.length order
       /\ numberOfNodes sub = List.length (nodes sub)
       /\ nodeMap sub = combine (seq 0 (numberOfNodes sub)) order
       /\ nodeIndexMap sub = combine ids (seq 0 (numberOfNodes sub))
       /\ nodes sub = combine ids order
       /\ JSMap.get (nodeIndexMap sub) (id (cell h root)) = Some 0
       /\ numberOfEdges sub = List.length (edges sub)
       /\ JSMap.keys (edgeIndexMap sub) = JSMap.keys (edges sub)
       /\ NoDup (JSMap.keys (edgeIndexMap sub))
       /\ JSMap.values (edgeIndexMap sub) = seq 0 (numberOfEdges sub)
       /\ edgeIDMap sub
          = combine (seq 0 (numberOfEdges sub))
              (JSMap.keys (edgeIndexMap sub))
       /\ (forall key' e,
              In (key', e) (edges sub) ->
              key' = edge_id e
              /\ exists x w,
                   In x order /\ In w (adjacentSet (cell h x))
                   /\ _getEdgeIDFromNodes (edges g) (cell h x) (cell h w)
                      = Some e)
       /\ (forall x w e,
              In x order -> In w (adjacentSet (cell h x)) ->
              _getEdgeIDFromNodes (edges g) (cell h x) (cell h w) = Some e ->
              In (edge_id e) (JSMap.keys (edgeIndexMap sub))).
Proof.
  intros Hclosed Hinj Halloc Hok.
  destruct (generateSubGraph_Ok_seed _ _ _ _ _ Hok)
    as (key & root & Hstart & Hget).
  exists key, root. split; [exact Hstart|]. split; [exact Hget|].
  pose proof (generateSubGraph_order _ _ _ _ _ _ _ _ Hstart Hget Hok) as Hord.
  assert (Hhd : hd_error
                  (bfs_dequeue_order h root
                     (match numHops with Some k => k | None => 3 end))
                = Some root) by reflexivity.
  cbv zeta. rewrite <- Hord in *. clear Hord.
  assert (Hroot : root < size h).
  { apply (Halloc key). now apply get_in. }
  destruct (generateSubGraph_run h g start numHops key root
              Hclosed Hstart Hget Hroot)
    as (sd & HN & HE & _ & Hexit & Hrun).
  rewrite Hrun in Hok. injection Hok as <- <-.
  cbn [set_subGraph_counts nodes edges numberOfNodes numberOfEdges nodeMap
       nodeIndexMap edgeIndexMap edgeIDMap] in *.
  fold (vis sd) in *.
  pose proof (exit_ids_distinct _ _ _ sd HN
                (ids_injective_set_distance _ root (Hops 0) Hinj)) as Hids.
  assert (Hmap : map (fun r => id (cell (set_distance h root (Hops 0)) r))
                   (vis sd)
                 = map (fun r => id (cell h r)) (vis sd)).
  { apply map_ext. intros r. apply id_set_distance. }
  rewrite Hmap in Hids.
  assert (Hindex : nodeIndexMap (subGraph sd)
                   = combine (map (fun r => id (cell h r)) (vis sd))
                       (seq 0 (nodeCount sd))).
  { rewrite (inv_nodeIndexMap HN), index_nodes_distinct by now rewrite Hmap.
    now rewrite Hmap, (inv_nodeCount HN). }
  split; [reflexivity|]. split; [exact Hhd|].
  repeat match goal with |- _ /\ _ => split end.
  - pose proof (inv_nodup HN) as Hnd. now apply NoDup_app_remove_r in Hnd.
  - exact Hids.
  - apply (inv_nodeCount HN).
  - rewrite (inv_nodes HN), register_nodes_distinct by now rewrite Hmap.
    rewrite length_combine, length_map, Nat.min_id.
    apply (inv_nodeCount HN).
  - rewrite (inv_nodeCount HN). apply (inv_nodeMap HN).
  - exact Hindex.
  - rewrite (inv_nodes HN), register_nodes_distinct by now rewrite Hmap.
    now rewrite Hmap.
  - rewrite Hindex, (inv_nodeCount HN).
    destruct (vis sd) as [|r l]; [discriminate|].
    injection Hhd as ->. cbn [map List.length seq combine JSMap.get].
    now rewrite keyb_refl.
  - apply (exit_edge_count _ _ sd HE).
  - symmetry. apply (inv_edges_keys HE).
  - apply (inv_edgeKeys HE).
  - apply (inv_edgeIndex HE).
  - apply (inv_edgeIDMap HE).
  - intros key' e Hin.
    destruct (inv_edges_sound HE key' e Hin) as (Hk & x & w & Hx & Hw & Hf).
    split; [assumption|]. exists x, w. split; [assumption|].
    cbn [processed] in Hw. rewrite adjacentSet_set_distance in Hw.
    rewrite found_set_distance in Hf. auto.
  - intros x w e Hx Hw Hf.
    apply (inv_edges_complete HE x w); [assumption| |].
    + cbn [processed]. now rewrite adjacentSet_set_distance.
    + now rewrite found_set_distance.
Qed.

Lemma generateSubGraph_dense_indices_witness :
  exists h' sub,
    generateSubGraph exHeap exGraph None None = Ok (h', sub)
    /\ JSMap.values (nodeMap sub) = [0; 1; 2]
    /\ nodeMap sub = [(0, 0); (1, 1); (2, 2)]
    /\ nodeIndexMap sub = [("A", 0); ("B", 1); ("C", 2)]%string
    /\ JSMap.values (edgeIndexMap sub) = seq 0 (numberOfEdges sub).
Proof.
  destruct (generateSubGraph_run exHeap exGraph None None "A"%string 0
              exHeap_closed eq_refl eq_refl (Nat.lt_0_succ 2))
    as (sd & _ & _ & _ & _ & Hrun).
  eexists _, _. split; [exact Hrun|].
  destruct (generateSubGraph_dense_indices exHeap exGraph None None _ _
              exHeap_closed exHeap_ids exGraph_allocated Hrun)
    as (key & root & Hstart & Hget & Hord & _ & _ & _ & Hn & _ & Hmap & Hidx
        & _ & _ & _ & _ & _ & Hedge & _).
  injection Hstart as <-. injection Hget as <-.
  change (bfs_dequeue_order exHeap 0 3) with [0; 1; 2] in *.
  rewrite Hn in Hmap, Hidx.
  split; [exact Hord|]. split; [exact Hmap|]. split; [exact Hidx|].
  exact Hedge.
Defined.

Lemma exTwinHeap_closed : heap_closed exTwinHeap.
Proof.
  intros [|[|[|r]]] w Hr; cbn in *; try lia; intros Hw;
    repeat (destruct Hw as [<-|Hw]; [lia|]); contradiction.
Qed.

Lemma exTwinGraph_allocated : nodes_allocated exTwinHeap exTwinGraph.
Proof.
  intros key r. cbn. intros [[= _ <-]|[[= _ <-]|[]]]; lia.
Qed.

(** C9, as stated, fails: when two node objects that are dequeued carry
    the same id, the later index replaces the earlier one in
    [nodeIndexMap]; with three nodes counted the index 1 is assigned to
    no id. *)
Lemma generateSubGraph_shared_id_leaves_gap :
  heap_closed exTwinHeap /\ nodes_allocated exTwinHeap exTwinGraph
  /\ NoDup (JSMap.keys (nodes exTwinGraph))
  /\ exists h' sub,
       generateSubGraph exTwinHeap exTwinGraph (Some "A"%string) (Some 1)
       = Ok (h', sub)
       /\ numberOfNodes sub = 3
       /\ nodeIndexMap sub = [("A", 0); ("B", 2)]%string
       /\ ~ In 1 (JSMap.values (nodeIndexMap sub)).
Proof.
  split; [exact exTwinHeap_closed|]. split; [exact exTwinGraph_allocated|].
  split.
  { cbn. repeat constructor; cbn; intuition discriminate. }
  eexists _, _. split; [reflexivity|]. cbn.
  split; [reflexivity|]. split; [reflexivity|].
  intros [H|[H|[]]]; discriminate.
Qed.


(* ================================================================== *)
(** * The default seed *)

Lemma defaultSeed_step_state (h : Heap) (seen : list (string * ref))
    (st : nat * option string) (key : string) (r : ref) :
  degree (cell h r) = List.length (adjacentSet (cell h r)) ->
  seed_state h seen st ->
  seed_state h (seen ++ [(key, r)]) (defaultSeed_step h st (key, r)).
Proof.
  intros Hdeg Hst. unfold defaultSeed_step. cbn [fst snd].
  destruct (Nat.ltb_spec (fst st) (degree (cell h r))) as [Hlt|Hge];
    cbn [andb].
  - destruct (type_is (cell h r) "driver") eqn:Hdrv.
    + unfold seed_state. cbn [fst snd]. rewrite <- Hdeg.
      exists seen, r, []. repeat split; auto; try lia.
      * intros key' r' Hin Hd. unfold seed_state in Hst.
        destruct (snd st) as [key0|].
        -- destruct Hst as (l1 & r0 & l2 & -> & Hd0 & He & Hp & H1 & H2).
           apply in_app_iff in Hin. destruct Hin as [Hin|[[= <- <-]|Hin]].
           ++ specialize (H1 _ _ Hin Hd). lia.
           ++ lia.
           ++ specialize (H2 _ _ Hin Hd). lia.
        -- destruct Hst as [H0 Hall]. rewrite (Hall _ _ Hin Hd). lia.
      * intros key' r' [].
    + unfold seed_state in *. destruct (snd st) as [key0|].
      * destruct Hst as (l1 & r0 & l2 & -> & Hd0 & He & Hp & H1 & H2).
        exists l1, r0, (l2 ++ [(key, r)]).
        rewrite <- app_assoc. repeat split; auto.
        intros key' r' Hin Hd. apply in_app_iff in Hin.
        destruct Hin as [Hin|[[= <- <-]|[]]]; [eauto|].
        unfold is_driver in Hd. congruence.
      * destruct Hst as [H0 Hall]. split; [assumption|].
        intros key' r' Hin Hd. apply in_app_iff in Hin.
        destruct Hin as [Hin|[[= <- <-]|[]]]; [eauto|].
        unfold is_driver in Hd. congruence.
  - unfold seed_state in *. destruct (snd st) as [key0|].
    + destruct Hst as (l1 & r0 & l2 & -> & Hd0 & He & Hp & H1 & H2).
      exists l1, r0, (l2 ++ [(key, r)]).
      rewrite <- app_assoc. repeat split; auto.
      intros key' r' Hin Hd. apply in_app_iff in Hin.
      destruct Hin as [Hin|[[= <- <-]|[]]]; [eauto|lia].
    + destruct Hst as [H0 Hall]. split; [assumption|].
      intros key' r' Hin Hd. apply in_app_iff in Hin.
      destruct Hin as [Hin|[[= <- <-]|[]]]; [eauto|lia].
Qed.

Lemma defaultSeed_fold_state (h : Heap) (todo seen : list (string * ref))
    (st : nat * option string) :
  (forall key r, In (key, r) todo ->
                 degree (cell h r) = List.length (adjacentSet (cell h r))) ->
  seed_state h seen st ->
  seed_state h (seen ++ todo) (fold_left (defaultSeed_step h) todo st).
Proof.
  revert seen st. induction todo as [|[key r] todo IH]; intros seen st Hdeg Hst.
  - now rewrite app_nil_r.
  - cbn [fold_left].
    replace (seen ++ (key, r) :: todo) with ((seen ++ [(key, r)]) ++ todo)
      by now rewrite <- app_assoc.
    apply IH.
    + intros key' r' Hin. apply (Hdeg key'). now right.
    + apply defaultSeed_step_state; [|assumption].
      apply (Hdeg key). now left.
Qed.

(** C3.  When [degree] is the size of the adjacent set of every node, the
    seed chosen for an omitted [startNodeID] is the first node, in the
    order of the node map, among the nodes of type 'driver' of largest
    degree, provided that degree is positive; when no 'driver' node has a
    positive degree the call fails (a TypeError on the undefined seed). *)
Theorem defaultSeed_first_driver_of_largest_degree
    (h : Heap) (g : Graph) (numHops : option nat) :
  degree_is_adjacent_count h g ->
  match defaultSeed h g with
  | Some key =>
      generateSubGraph h g None numHops
      = generateSubGraph h g (Some key) numHops
      /\ exists l1 r l2,
           nodes g = l1 ++ (key, r) :: l2
           /\ is_driver h r
           /\ 0 < degree (cell h r)
           /\ (forall key' r', In (key', r') l1 -> is_driver h r' ->
                               degree (cell h r') < degree (cell h r))
           /\ (forall key' r', In (key', r') l2 -> is_driver h r' ->
                               degree (cell h r') <= degree (cell h r))
  | None =>
      (forall key r, In (key, r) (nodes g) -> is_driver h r ->
                     degree (cell h r) = 0)
      /\ generateSubGraph h g None numHops = TypeError
  end.
Proof.
  intros Hdeg.
  pose proof (defaultSeed_fold_state h (nodes g) [] (0, None) Hdeg) as Hst.
  cbn [app] in Hst. unfold seed_state at 2 in Hst. cbn [fst snd] in Hst.
  specialize (Hst (conj eq_refl (fun _ _ (H : False) _ => match H with end))).
  unfold seed_state in Hst.
  assert (Hseed : defaultSeed h g
                  = snd (fold_left (defaultSeed_step h) (nodes g) (0, None)))
    by reflexivity.
  destruct (snd (fold_left (defaultSeed_step h) (nodes g) (0, None)))
    as [key|]; rewrite Hseed.
  - split.
    + unfold generateSubGraph. now rewrite Hseed.
    + destruct Hst as (l1 & r & l2 & Hl & Hd & He & Hp & H1 & H2).
      exists l1, r, l2. rewrite He. auto 10.
  - split; [apply Hst|].
    unfold generateSubGraph. now rewrite Hseed.
Qed.

Lemma exGraph_degrees : degree_is_adjacent_count exHeap exGraph.
Proof.
  intros key r. cbn.
  intros [[= _ <-]|[[= _ <-]|[[= _ <-]|[]]]]; reflexivity.
Qed.

Lemma defaultSeed_first_driver_of_largest_degree_witness :
  defaultSeed exHeap exGraph = Some "A"%string
  /\ generateSubGraph exHeap exGraph None None
     = generateSubGraph exHeap exGraph (Some "A"%string) None.
Proof.
  pose proof (defaultSeed_first_driver_of_largest_degree exHeap exGraph None
                exGraph_degrees) as H.
  change (defaultSeed exHeap exGraph) with (Some "A"%string) in H.
  split; [reflexivity | apply H].
Defined.

(** C3, as stated, fails: the only 'driver' node has no neighbour; it is
    the driver of largest degree, yet no seed is chosen and the call
    fails. *)
Lemma defaultSeed_skips_driver_of_degree_zero :
  In ("D"%string, 0) (nodes exLoneGraph)
  /\ is_driver exLoneHeap 0
  /\ (forall key r, In (key, r) (nodes exLoneGraph) ->
                    degree (cell exLoneHeap r) <= degree (cell exLoneHeap 0))
  /\ defaultSeed exLoneHeap exLoneGraph = None
  /\ generateSubGraph exLoneHeap exLoneGraph None None = TypeError.
Proof.
  repeat split.
  - now left.
  - intros key r [[= _ <-]|[]]. reflexivity.
Qed.

(** When [degree] counts a neighbour more than once, the comparison mixes
    two measures: P has degree 3 but is replaced by Q of degree 2. *)
Example defaultSeed_mixes_degree_and_set_size :
  degree (cell exDupHeap 0) = 3
  /\ degree (cell exDupHeap 1) = 2
  /\ defaultSeed exDupHeap exDupGraph = Some "Q"%string.
Proof. repeat split. Qed.

(* ================================================================== *)
(** * _resetDistance *)

(** C4.  [_resetDistance] returns the store as it was: the loops are
    [for ... in] loops over a Map iterator, whose body never runs.  After
    a first call from A with one hop, B keeps the distance 1, and the same
    call made again returns A alone. *)
Theorem generateSubGraph_keeps_stale_distances :
  (forall h g, _resetDistance h g = Ok h)
  /\ match generateSubGraph exHeap exGraph (Some "A"%string) (Some 1) with
     | Ok (h1, sub1) =>
         JSMap.keys (nodes sub1) = ["A"; "B"; "C"]%string
         /\ distance (cell h1 1) = Hops 1
         /\ match _resetDistance h1 exGraph with
            | Ok h2 => distance (cell h2 1) = Hops 1
            | _ => False
            end
         /\ match generateSubGraph h1 exGraph (Some "A"%string) (Some 1) with
            | Ok (_, sub2) => JSMap.keys (nodes sub2) = ["A"%string]
            | _ => False
            end
     | _ => False
     end.
Proof.
  split; [intros h g; apply resetDistance_unchanged|].
  vm_compute. repeat split.
Qed.

(* ================================================================== *)
(** * Arithmetic of the layout numbers *)

Lemma num_add_NaN_r (a : num) : num_add a NaN = NaN.
Proof. now destruct a. Qed.

Lemma num_add_NaN_l (a : num) : num_add NaN a = NaN.
Proof. now destruct a. Qed.

Lemma num_sub_NaN_r (a : num) : num_sub a NaN = NaN.
Proof. now destruct a. Qed.

Lemma num_sub_NaN_l (a : num) : num_sub NaN a = NaN.
Proof. now destruct a. Qed.

Lemma num_mul_NaN_r (a : num) : num_mul a NaN = NaN.
Proof. now destruct a. Qed.

Lemma num_mul_NaN_l (a : num) : num_mul NaN a = NaN.
Proof. now destruct a. Qed.

Lemma num_div_NaN_l (a : num) : num_div NaN a = NaN.
Proof. now destruct a. Qed.

Lemma num_div_Fin (x y : R) : y <> 0%R -> num_div (Fin x) (Fin y) = Fin (x / y).
Proof. intros Hy. cbn. now destruct (Req_EM_T y 0). Qed.

(** [0 / 0] is [NaN]. *)
Lemma num_div_zero_zero (x y : R) :
  x = 0%R -> y = 0%R -> num_div (Fin x) (Fin y) = NaN.
Proof.
  intros -> ->. cbn. destruct (Req_EM_T 0 0) as [_|Hne]; [|now elim Hne].
  unfold num_mul_inf.
  destruct (Rlt_dec 0 0) as [Hlt|_]; [exfalso; lra|].
  reflexivity.
Qed.

Lemma num_sqrt_Fin (x : R) : (0 <= x)%R -> num_sqrt (Fin x) = Fin (sqrt x).
Proof. intros Hx. cbn. destruct (Rlt_dec x 0); [lra|reflexivity]. Qed.

(* ================================================================== *)
(** * Node mass *)

(** C6.  [_initializeNodeMass] tests [node.type], a property that a
    GraphNode does not have, so every node gets [degree / 10]: a node of
    type 'device' with degree 5 gets 5/10 and not 5*2. *)
Theorem initializeNodeMass_ignores_device_type :
  (forall node index,
      Layout._initializeNodeMass node index
      = num_div (Fin (INR (degree node))) (Fin 10))
  /\ type (attributes exDevice) = Some "device"%string
  /\ Layout._initializeNodeMass exDevice 0 = Fin (5 / 10)
  /\ Layout._initializeNodeMass exDevice 0 <> Fin (5 * 2).
Proof.
  assert (H5 : INR (degree exDevice) = 5%R) by (cbn; lra).
  assert (Hm : Layout._initializeNodeMass exDevice 0 = Fin (5 / 10)).
  { unfold Layout._initializeNodeMass. cbn [Layout.GraphNode_property
      String.eqb Ascii.eqb Bool.eqb strict_eq_string].
    rewrite H5. apply num_div_Fin. lra. }
  split; [reflexivity|]. split; [reflexivity|]. split; [exact Hm|].
  rewrite Hm. intros [= H]. lra.
Qed.

(* ================================================================== *)
(** * Fields that a step leaves alone *)

Lemma constructor_edgePosition (h : Heap) (gauss : nat -> R) (id0 : string)
    (graph0 : Graph) (dof0 : nat) :
  Layout.edgePosition (Layout.constructor h gauss id0 graph0 dof0)
  = [Some VUndefined].
Proof.
  unfold Layout.constructor.
  destruct (fold_left _ (nodeMap graph0) _) as [[[[p c] s] m] n].
  reflexivity.
Qed.

Lemma processNodeInteractions_frame (this this' : Layout.t) :
  Layout._processNodeInteractions this = Ok this' ->
  Layout.edgePosition this' = Layout.edgePosition this
  /\ Layout.position this' = Layout.position this
  /\ Layout.velocity this' = Layout.velocity this
  /\ Layout.numberOfNodes this' = Layout.numberOfNodes this
  /\ Layout.dof this' = Layout.dof this
  /\ Layout.dt this' = Layout.dt this
  /\ Layout.damping this' = Layout.damping this
  /\ Layout.currentStep this' = Layout.currentStep this.
Proof.
  unfold Layout._processNodeInteractions.
  destruct (Layout._xtod this _ _ _) as [[dist dir]| |]; cbn [bind];
    try discriminate.
  destruct (fold_left _ _ _) as [ym acc]. intros [= <-]. cbn. auto 10.
Qed.

Lemma calculateAcceleration_frame (this this' : Layout.t) :
  Layout._calculateAcceleration this = Ok this' ->
  Layout.edgePosition this' = Layout.edgePosition this
  /\ Layout.position this' = Layout.position this
  /\ Layout.numberOfNodes this' = Layout.numberOfNodes this
  /\ Layout.dof this' = Layout.dof this
  /\ Layout.currentStep this' = Layout.currentStep this.
Proof.
  unfold Layout._calculateAcceleration.
  destruct (Layout._processNodeInteractions this) as [this1| |] eqn:E;
    cbn [bind]; try discriminate.
  destruct (processNodeInteractions_frame _ _ E)
    as (H1 & H2 & H3 & H4 & H5 & H6 & H7 & H8).
  intros [= <-]. cbn. auto 10.
Qed.

Lemma anneal_frame (this : Layout.t) :
  Layout.edgePosition (Layout.anneal this) = Layout.edgePosition this
  /\ Layout.position (Layout.anneal this) = Layout.position this
  /\ Layout.velocity (Layout.anneal this) = Layout.velocity this
  /\ Layout.ymean (Layout.anneal this) = Layout.ymean this
  /\ Layout.numberOfNodes (Layout.anneal this) = Layout.numberOfNodes this
  /\ Layout.dof (Layout.anneal this) = Layout.dof this
  /\ Layout.currentStep (Layout.anneal this) = Layout.currentStep this.
Proof.
  unfold Layout.anneal. destruct (_ && _); cbn; auto 10.
Qed.

Lemma step_edgePosition (this this' : Layout.t) :
  Layout.step this = Ok this' ->
  Layout.edgePosition this' = Layout.edgePosition this.
Proof.
  unfold Layout.step.
  destruct (Layout._calculateAcceleration (Layout.anneal this))
    as [this1| |] eqn:E; cbn [bind]; try discriminate.
  destruct (foldM (Layout.integrate this1) _ _) as [pm| |]; cbn [bind];
    try discriminate.
  destruct (foldM (Layout.recentre this1 (snd pm)) _ _) as [p| |];
    cbn [bind]; try discriminate.
  intros [= <-]. cbn.
  destruct (calculateAcceleration_frame _ _ E) as (-> & _).
  apply anneal_frame.
Qed.

(** C10.  The constructor allocates [edgePosition] from
    [this.numberOfEdges], which is [undefined]: the array has the single
    element [undefined], whatever the graph.  No step writes to it, so
    [getEdgePosition] returns the same array after any number of steps. *)
Theorem edgePosition_is_never_written :
  (forall h gauss id0 graph0 dof0,
      Layout.getEdgePosition (Layout.constructor h gauss id0 graph0 dof0)
      = [Some VUndefined]
      /\ List.length
           (Layout.getEdgePosition (Layout.constructor h gauss id0 graph0 dof0))
         = 1)
  /\ (forall n this,
         match Layout.steps n this with
         | Ok this' => Layout.getEdgePosition this' = Layout.getEdgePosition this
         | _ => True
         end).
Proof.
  split.
  - intros. unfold Layout.getEdgePosition.
    now rewrite constructor_edgePosition.
  - induction n as [|n IH]; intros this; cbn [Layout.steps]; [reflexivity|].
    destruct (Layout.step this) as [this1| |] eqn:E; cbn [bind]; trivial.
    specialize (IH this1). destruct (Layout.steps n this1); trivial.
    unfold Layout.getEdgePosition in *. rewrite IH.
    now apply step_edgePosition.
Qed.

(* ================================================================== *)
(** * Arrays and loops *)

Lemma Array_get_set {A : Type} (a : Array A) (i : nat) (v : A) (j : nat) :
  Array_get (Array_set a i v) j
  = if Nat.eqb j i then Some v else Array_get a j.
Proof.
  unfold Array_get. revert i j.
  induction a as [|x a IH]; intros i j.
  - revert j. induction i as [|i IHi]; intros [|j]; cbn; try reflexivity.
    + now destruct j.
    + rewrite IHi. destruct (Nat.eqb j i); [reflexivity|]. now destruct j.
  - destruct i as [|i], j as [|j]; cbn; try reflexivity. apply IH.
Qed.

Lemma f64_set_length (a : Float64Array) (i : nat) (v : num) :
  List.length (f64_set a i v) = List.length a.
Proof.
  revert i. induction a as [|x a IH]; intros [|i]; cbn; auto.
Qed.

Lemma nth_error_f64_set (a : Float64Array) (i : nat) (v : num) (j : nat) :
  nth_error (f64_set a i v) j
  = if Nat.eqb j i && Nat.ltb i (List.length a) then Some v
    else nth_error a j.
Proof.
  revert i j. induction a as [|x a IH]; intros i j.
  - cbn. now rewrite andb_false_r.
  - destruct i as [|i], j as [|j]; cbn [f64_set nth_error]; try reflexivity.
    rewrite IH. reflexivity.
Qed.

Lemma nth_error_f64_set_same (a : Float64Array) (i : nat) (v : num) :
  i < List.length a -> nth_error (f64_set a i v) i = Some v.
Proof.
  intros Hi. rewrite nth_error_f64_set, Nat.eqb_refl.
  now rewrite (proj2 (Nat.ltb_lt _ _) Hi).
Qed.

Lemma nth_error_f64_set_other (a : Float64Array) (i : nat) (v : num) (j : nat) :
  j <> i -> nth_error (f64_set a i v) j = nth_error a j.
Proof.
  intros Hne. rewrite nth_error_f64_set.
  now rewrite (proj2 (Nat.eqb_neq _ _) Hne).
Qed.

Lemma f64_get_nth_error (a : Float64Array) (i : nat) (v : num) :
  nth_error a i = Some v -> f64_get a i = v.
Proof. intros H. unfold f64_get. now apply nth_error_nth. Qed.

Lemma f64_get_set_same (a : Float64Array) (i : nat) (v : num) :
  i < List.length a -> f64_get (f64_set a i v) i = v.
Proof.
  intros Hi. apply f64_get_nth_error. now apply nth_error_f64_set_same.
Qed.

Lemma f64_get_set_other (a : Float64Array) (i : nat) (v : num) (j : nat) :
  j <> i -> f64_get (f64_set a i v) j = f64_get a j.
Proof.
  intros Hne. unfold f64_get.
  rewrite !(nth_error_nth' _ NaN) || idtac.
  pose proof (nth_error_f64_set_other a i v j Hne) as H.
  destruct (nth_error a j) as [x|] eqn:E.
  - rewrite (nth_error_nth _ _ _ H). now rewrite (nth_error_nth _ _ _ E).
  - apply nth_error_None in H, E. now rewrite !nth_overflow.
Qed.

(** A loop that may throw runs to its end when every iteration keeps an
    invariant indexed by the items done. *)
Lemma foldM_invariant {S A : Type} (f : S -> A -> Result S)
    (I : list A -> S -> Prop) (l : list A) (s0 : S) :
  I [] s0 ->
  (forall done x rest s,
      l = done ++ x :: rest -> I done s ->
      exists s', f s x = Ok s' /\ I (done ++ [x]) s') ->
  exists s', foldM f l s0 = Ok s' /\ I l s'.
Proof.
  intros H0 Hstep.
  enough (Hgen : forall todo done s,
             l = done ++ todo -> I done s ->
             exists s', foldM f todo s = Ok s' /\ I l s').
  { apply (Hgen l [] s0); auto. }
  induction todo as [|x todo IH]; intros done s Hl Hs.
  - rewrite app_nil_r in Hl. subst done. exists s. auto.
  - destruct (Hstep done x todo s Hl Hs) as (s1 & Hf & H1).
    cbn [foldM]. rewrite Hf. cbn [bind].
    apply (IH (done ++ [x])); [|assumption].
    now rewrite <- app_assoc.
Qed.

Lemma fold_left_invariant {S A : Type} (f : S -> A -> S)
    (I : list A -> S -> Prop) (l : list A) (s0 : S) :
  I [] s0 ->
  (forall done x rest s,
      l = done ++ x :: rest -> I done s -> I (done ++ [x]) (f s x)) ->
  I l (fold_left f l s0).
Proof.
  intros H0 Hstep.
  enough (Hgen : forall todo done s,
             l = done ++ todo -> I done s -> I l (fold_left f todo s)).
  { apply (Hgen l [] s0); auto. }
  induction todo as [|x todo IH]; intros done s Hl Hs.
  - rewrite app_nil_r in Hl. now subst done.
  - cbn [fold_left]. apply (IH (done ++ [x])).
    + now rewrite <- app_assoc.
    + eapply Hstep; eauto.
Qed.

Lemma seq_split_in (a n x : nat) (done rest : list nat) :
  seq a n = done ++ x :: rest ->
  done = seq a (List.length done) /\ x = a + List.length done
  /\ a + List.length done < a + n.
Proof.
  revert a n. induction done as [|y done IH]; intros a n Heq.
  - destruct n as [|n]; [discriminate|]. cbn in Heq.
    injection Heq as <- _. cbn. repeat split; lia.
  - destruct n as [|n]; [discriminate|]. cbn in Heq.
    injection Heq as <- Heq. destruct (IH _ _ Heq) as (Hd & Hx & Hlt).
    cbn [List.length seq]. repeat split; [now f_equal | lia | lia].
Qed.

(* ================================================================== *)
(** * _xtod *)

Lemma lex_inj (m x y x' y' : nat) :
  y < m -> y' < m -> x * m + y = x' * m + y' -> x = x' /\ y = y'.
Proof.
  intros Hy Hy' Heq.
  assert (Hx : x = x').
  { destruct (Nat.lt_trichotomy x x') as [Hlt|[->|Hgt]];
      [exfalso | reflexivity | exfalso].
    - assert (x' * m >= (x + 1) * m) by (apply Nat.mul_le_mono_r; lia). lia.
    - assert (x * m >= (x' + 1) * m) by (apply Nat.mul_le_mono_r; lia). lia. }
  subst x'. split; [reflexivity | lia].
Qed.

(** Distinct (row, column, axis) triples index distinct direction
    entries. *)
Lemma direction_index_inj (N D i j k i' j' k' : nat) :
  j < N -> j' < N -> k < D -> k' < D ->
  i * N * D + j * D + k = i' * N * D + j' * D + k' ->
  i = i' /\ j = j' /\ k = k'.
Proof.
  intros Hj Hj' Hk Hk' Heq.
  assert (E : (i * N + j) * D + k = (i' * N + j') * D + k').
  { rewrite !Nat.mul_add_distr_r. exact Heq. }
  destruct (lex_inj D _ _ _ _ Hk Hk' E) as [E2 ->].
  destruct (lex_inj N _ _ _ _ Hj Hj' E2) as [-> ->]. auto.
Qed.

Lemma direction_index_bound (N D i j k : nat) :
  i < N -> j < N -> k < D -> i * N * D + j * D + k < N * N * D.
Proof.
  intros Hi Hj Hk.
  assert (H1 : (i * N + j) + 1 <= N * N).
  { assert (i * N + N <= N * N); [|lia].
    replace (i * N + N) with ((i + 1) * N) by lia.
    apply Nat.mul_le_mono_r. lia. }
  assert (H2 : (i * N + j + 1) * D <= N * N * D)
    by (apply Nat.mul_le_mono_r; exact H1).
  rewrite !Nat.mul_add_distr_r in H2. lia.
Qed.

Section XtodRuns.
Variables (N D : nat) (data : Array (Array num)).
Hypothesis Hrows : rows_present N data.

Local Abbreviation idx i j k := (i * N * D + j * D + k).

Lemma L2_runs (i j : nat) :
  i < N -> j < N ->
  exists v, Layout._L2 (Array_get data i) (Array_get data j) = Ok v.
Proof.
  intros Hi Hj.
  destruct (Hrows i Hi) as [rowi ->]. destruct (Hrows j Hj) as [rowj ->].
  unfold Layout._L2.
  destruct (foldM_invariant
              (fun (d : num) (k : nat) =>
                 Ok (num_add d
                       (num_mul
                          (num_sub (ToNumber (Array_get rowi k))
                             (ToNumber (Array_get rowj k)))
                          (num_sub (ToNumber (Array_get rowi k))
                             (ToNumber (Array_get rowj k))))))
              (fun _ _ => True) (seq 0 (List.length rowi)) (Fin 0) I)
    as (v & Hv & _); eauto.
Qed.

Lemma xtod_k_run (i j : nat) (d : num) (dir : Float64Array) (k : nat) :
  i < N -> j < N ->
  exists xi xj,
    Layout.row_get (Array_get data i) k = Ok xi
    /\ Layout.row_get (Array_get data j) k = Ok xj
    /\ Layout.xtod_k N D data i j d dir k
       = Ok (f64_set
               (f64_set dir (idx i j k) (num_div (num_sub xi xj) d))
               (idx j i k)
               (num_neg
                  (f64_get
                     (f64_set dir (idx i j k) (num_div (num_sub xi xj) d))
                     (idx i j k)))).
Proof.
  intros Hi Hj. unfold Layout.xtod_k.
  destruct (Hrows i Hi) as [rowi ->]. destruct (Hrows j Hj) as [rowj ->].
  cbn [Layout.row_get bind]. eauto.
Qed.

(** The axis loop of a pair writes the two entries of the pair only. *)
Lemma xtod_axes_frame (i j : nat) (d : num) (dir : Float64Array) :
  i < N -> j < N ->
  exists dir',
    foldM (Layout.xtod_k N D data i j d) (seq 0 D) dir = Ok dir'
    /\ List.length dir' = List.length dir
    /\ forall p, (forall k, k < D -> p <> idx i j k /\ p <> idx j i k) ->
                 nth_error dir' p = nth_error dir p.
Proof.
  intros Hi Hj.
  apply (foldM_invariant (Layout.xtod_k N D data i j d)
           (fun _ dir' =>
              List.length dir' = List.length dir
              /\ forall p,
                  (forall k, k < D -> p <> idx i j k /\ p <> idx j i k) ->
                  nth_error dir' p = nth_error dir p)).
  - auto.
  - intros done k rest dir1 Hsplit [Hlen Hframe].
    destruct (seq_split_in _ _ _ _ _ Hsplit) as (_ & Hk & Hlt).
    destruct (xtod_k_run i j d dir1 k Hi Hj) as (xi & xj & _ & _ & ->).
    eexists. split; [reflexivity|]. split.
    + now rewrite !f64_set_length.
    + intros p Hp. destruct (Hp k) as [Hp1 Hp2]; [lia|].
      rewrite !nth_error_f64_set_other by assumption. auto.
Qed.
End XtodRuns.

Section Xtod.
Variables (N D : nat) (data : Array (Array num)) (i0 j0 : nat).
Hypothesis Hij : i0 < j0.
Hypothesis HjN : j0 < N.
Hypothesis Hrows : rows_present N data.
Hypothesis Hco : coincident D data i0 j0.

Local Abbreviation idx i j k := (i * N * D + j * D + k).

(** Both direction entries of the coincident pair hold [NaN], on every
    axis. *)
Local Abbreviation poisoned dir :=
  (forall k, k < D ->
             nth_error dir (idx i0 j0 k) = Some NaN
             /\ nth_error dir (idx j0 i0 k) = Some NaN).

(** The squared distance of the coincident pair is 0. *)
Lemma L2_coincident :
  exists z, Layout._L2 (Array_get data i0) (Array_get data j0) = Ok (Fin z)
            /\ z = 0%R.
Proof.
  destruct Hco as (rowi & rowj & -> & -> & Hlen & Hk).
  unfold Layout._L2.
  destruct (foldM_invariant
              (fun (d : num) (k : nat) =>
                 Ok (num_add d
                       (num_mul
                          (num_sub (ToNumber (Array_get rowi k))
                             (ToNumber (Array_get rowj k)))
                          (num_sub (ToNumber (Array_get rowi k))
                             (ToNumber (Array_get rowj k))))))
              (fun _ d => exists z, d = Fin z /\ z = 0%R)
              (seq 0 (List.length rowi)) (Fin 0))
    as (v & Hv & z & -> & Hz).
  - now exists 0%R.
  - intros done k rest d Hsplit (z & -> & ->).
    destruct (seq_split_in _ _ _ _ _ Hsplit) as (_ & -> & Hlt).
    destruct (Hk (0 + List.length done)) as (x & -> & ->); [lia|].
    eexists. split; [reflexivity|]. cbn.
    eexists. split; [reflexivity|].
    replace (x + - x)%R with 0%R by lra. lra.
  - exists z. auto.
Qed.

(** At distance 0 the axis loop of the coincident pair writes [NaN]
    into both entries of every axis. *)
Lemma xtod_axes_coincident (z : R) (dir : Float64Array) :
  z = 0%R -> List.length dir = N * N * D ->
  exists dir',
    foldM (Layout.xtod_k N D data i0 j0 (num_sqrt (Fin z))) (seq 0 D) dir
    = Ok dir'
    /\ List.length dir' = List.length dir
    /\ poisoned dir'.
Proof.
  intros Hz Hlen.
  assert (Hi0 : i0 < N) by lia.
  destruct (foldM_invariant
              (Layout.xtod_k N D data i0 j0 (num_sqrt (Fin z)))
              (fun done dir' =>
                 List.length dir' = List.length dir
                 /\ forall k, In k done ->
                      nth_error dir' (idx i0 j0 k) = Some NaN
                      /\ nth_error dir' (idx j0 i0 k) = Some NaN)
              (seq 0 D) dir) as (dir' & Hrun & Hlen' & Hp).
  - split; [reflexivity|]. intros k [].
  - intros done k rest dir1 Hsplit [Hlen1 Hdone].
    destruct (seq_split_in _ _ _ _ _ Hsplit) as (Hd & Hk & Hlt).
    assert (HkD : k < D) by lia.
    destruct (xtod_k_run N D data Hrows i0 j0 (num_sqrt (Fin z)) dir1 k Hi0 HjN)
      as (xi & xj & Hxi & Hxj & ->).
    destruct Hco as (rowi & rowj & Hri & Hrj & _ & Hfin).
    destruct (Hfin k HkD) as (x & Hx1 & Hx2).
    rewrite Hri in Hxi. rewrite Hrj in Hxj. cbn in Hxi, Hxj.
    rewrite Hx1 in Hxi. rewrite Hx2 in Hxj.
    injection Hxi as <-. injection Hxj as <-.
    assert (Hnan : num_div (num_sub (Fin x) (Fin x)) (num_sqrt (Fin z))
                   = NaN).
    { rewrite num_sqrt_Fin by lra. cbn [num_sub num_neg num_add].
      apply num_div_zero_zero; [lra|]. subst z. apply sqrt_0. }
    rewrite Hnan.
    assert (Ha : idx i0 j0 k < List.length dir1).
    { rewrite Hlen1, Hlen. now apply direction_index_bound. }
    assert (Hb : idx j0 i0 k < List.length dir1).
    { rewrite Hlen1, Hlen. now apply direction_index_bound. }
    assert (Hab : idx i0 j0 k <> idx j0 i0 k).
    { intros Heq. apply direction_index_inj in Heq; lia. }
    rewrite f64_get_set_same by assumption. cbn [num_neg].
    eexists. split; [reflexivity|]. split.
    + now rewrite !f64_set_length.
    + intros k' Hk'. apply in_app_iff in Hk'.
      destruct Hk' as [Hk'|[<-|[]]].
      * destruct (Hdone k' Hk') as [H1 H2].
        assert (Hk'D : k' < D).
        { rewrite Hd in Hk'. apply in_seq in Hk'. lia. }
        assert (Hne : k' <> k).
        { rewrite Hd in Hk'. apply in_seq in Hk'. lia. }
        rewrite !nth_error_f64_set_other; auto;
          intros Heq; apply direction_index_inj in Heq; lia.
      * split.
        -- rewrite nth_error_f64_set_other by assumption.
           now apply nth_error_f64_set_same.
        -- apply nth_error_f64_set_same. now rewrite f64_set_length.
  - exists dir'. repeat split; auto.
    + apply Hp. apply in_seq. lia.
    + apply Hp. apply in_seq. lia.
Qed.
(** One pair: the loop runs; the entries of the coincident pair are
    written by that pair and by no other. *)
Lemma xtod_pair_run (i j : nat) (dist dir : Float64Array) :
  i < j -> j < N -> List.length dir = N * N * D ->
  exists dist' dir',
    Layout.xtod_pair N D data i (dist, dir) j = Ok (dist', dir')
    /\ List.length dir' = List.length dir
    /\ (poisoned dir \/ (i = i0 /\ j = j0) -> poisoned dir').
Proof.
  intros Hlt Hj Hlen. assert (Hi : i < N) by lia.
  unfold Layout.xtod_pair.
  destruct (Nat.eq_dec i i0) as [->|Hni];
    [destruct (Nat.eq_dec j j0) as [->|Hnj]|].
  - destruct L2_coincident as (z & -> & Hz). cbn [bind].
    destruct (xtod_axes_coincident z dir Hz Hlen) as (dir' & -> & Hl & Hp).
    cbn [bind]. eexists _, dir'. auto.
  - destruct (L2_runs N data Hrows i0 j Hi Hj) as (v & ->). cbn [bind].
    destruct (xtod_axes_frame N D data Hrows i0 j (num_sqrt v) dir Hi Hj)
      as (dir' & -> & Hl & Hframe).
    cbn [bind]. eexists _, dir'. split; [reflexivity|].
    split; [assumption|].
    intros [Hp|[_ Heq]]; [|contradiction].
    intros k Hk. destruct (Hp k Hk) as [H1 H2].
    rewrite !Hframe; [auto| |];
      intros k' Hk'; split; intros Heq;
      apply direction_index_inj in Heq; lia.
  - destruct (L2_runs N data Hrows i j Hi Hj) as (v & ->). cbn [bind].
    destruct (xtod_axes_frame N D data Hrows i j (num_sqrt v) dir Hi Hj)
      as (dir' & -> & Hl & Hframe).
    cbn [bind]. eexists _, dir'. split; [reflexivity|].
    split; [assumption|].
    intros [Hp|[Heq _]]; [|contradiction].
    intros k Hk. destruct (Hp k Hk) as [H1 H2].
    rewrite !Hframe; [auto| |];
      intros k' Hk'; split; intros Heq;
      apply direction_index_inj in Heq; lia.
Qed.

(** The loop over [j] for one [i]. *)
Lemma xtod_row_run (i : nat) (dist dir : Float64Array) :
  i < N -> List.length dir = N * N * D ->
  exists dist' dir',
    foldM (Layout.xtod_pair N D data i) (seq (i + 1) (N - (i + 1)))
      (dist, dir) = Ok (dist', dir')
    /\ List.length dir' = List.length dir
    /\ (poisoned dir \/ i = i0 -> poisoned dir').
Proof.
  intros Hi Hlen.
  destruct (foldM_invariant (Layout.xtod_pair N D data i)
              (fun done (acc : Float64Array * Float64Array) =>
                 List.length (snd acc) = List.length dir
                 /\ (poisoned dir \/ (i = i0 /\ In j0 done) ->
                     poisoned (snd acc)))
              (seq (i + 1) (N - (i + 1))) (dist, dir))
    as ([dist' dir'] & Hrun & Hl & Hp).
  - split; [reflexivity|]. intros [Hp|[_ []]]. exact Hp.
  - intros done j rest [dist1 dir1] Hsplit [Hl1 Hp1].
    cbn [snd] in *.
    destruct (seq_split_in _ _ _ _ _ Hsplit) as (_ & Hj & Hlt).
    destruct (xtod_pair_run i j dist1 dir1) as (dist2 & dir2 & -> & Hl2 & Hp2);
      try lia.
    exists (dist2, dir2). split; [reflexivity|]. cbn [snd]. split; [lia|].
    intros Hcase. apply Hp2.
    destruct Hcase as [Hp|[Hi0 Hin]].
    + left. apply Hp1. now left.
    + apply in_app_iff in Hin. destruct Hin as [Hin|[<-|[]]].
      * left. apply Hp1. right. auto.
      * right. auto.
  - exists dist', dir'. split; [exact Hrun|]. split; [exact Hl|].
    cbn [snd] in Hp. intros [Hpo|Hi0]; apply Hp; [now left|].
    right. split; [assumption|]. apply in_seq. lia.
Qed.

(** _xtod runs, and leaves [NaN] in the direction entries of the
    coincident pair. *)
Lemma xtod_coincident (this : Layout.t) (dist dir : Float64Array) :
  Layout.numberOfNodes this = N -> Layout.dof this = D ->
  List.length dir = N * N * D ->
  exists dist' dir',
    Layout._xtod this dist dir data = Ok (dist', dir')
    /\ List.length dir' = List.length dir
    /\ poisoned dir'.
Proof.
  intros HN HD Hlen. unfold Layout._xtod. rewrite HN, HD.
  destruct (foldM_invariant
              (fun acc i =>
                 foldM (Layout.xtod_pair N D data i)
                   (seq (i + 1) (N - (i + 1))) acc)
              (fun done (acc : Float64Array * Float64Array) =>
                 List.length (snd acc) = List.length dir
                 /\ (In i0 done -> poisoned (snd acc)))
              (seq 0 N) (dist, dir))
    as ([dist' dir'] & Hrun & Hl & Hp).
  - split; [reflexivity|]. intros [].
  - intros done i rest [dist1 dir1] Hsplit [Hl1 Hp1].
    cbn [snd] in *.
    destruct (seq_split_in _ _ _ _ _ Hsplit) as (_ & Hi & Hlt).
    destruct (xtod_row_run i dist1 dir1) as (dist2 & dir2 & -> & Hl2 & Hp2);
      try lia.
    exists (dist2, dir2). split; [reflexivity|]. cbn [snd]. split; [lia|].
    intros Hin. apply Hp2. apply in_app_iff in Hin.
    destruct Hin as [Hin|[<-|[]]]; [left; auto | now right].
  - exists dist', dir'. split; [exact Hrun|]. split; [exact Hl|].
    apply Hp. apply in_seq. lia.
Qed.
End Xtod.

(** _xtod runs when every node has a position row. *)
Lemma xtod_runs (this : Layout.t) (dist dir : Float64Array)
    (data : Array (Array num)) :
  rows_present (Layout.numberOfNodes this) data ->
  exists r, Layout._xtod this dist dir data = Ok r.
Proof.
  intros Hrows. unfold Layout._xtod.
  set (N := Layout.numberOfNodes this) in *. set (D := Layout.dof this).
  destruct (foldM_invariant
              (fun acc i =>
                 foldM (Layout.xtod_pair N D data i)
                   (seq (i + 1) (N - (i + 1))) acc)
              (fun _ _ => True) (seq 0 N) (dist, dir) I) as (r & Hr & _);
    [|eauto].
  intros done i rest acc Hsplit _.
  destruct (seq_split_in _ _ _ _ _ Hsplit) as (_ & Hi & Hlt).
  destruct (foldM_invariant (Layout.xtod_pair N D data i)
              (fun _ _ => True) (seq (i + 1) (N - (i + 1))) acc I)
    as (r & Hr & _); [|eauto].
  intros done' j rest' [dist1 dir1] Hsplit' _.
  destruct (seq_split_in _ _ _ _ _ Hsplit') as (_ & Hj & Hlt').
  unfold Layout.xtod_pair.
  destruct (L2_runs N data Hrows i j) as (v & ->); try lia. cbn [bind].
  destruct (xtod_axes_frame N D data Hrows i j (num_sqrt v) dir1)
    as (dir2 & -> & _); try lia.
  cbn [bind]. eauto.
Qed.

Lemma fold_left_length_preserved {A : Type}
    (g : Float64Array -> A -> Float64Array) (l : list A) (a : Float64Array) :
  (forall b x, List.length (g b x) = List.length b) ->
  List.length (fold_left g l a) = List.length a.
Proof.
  intros Hg. revert a. induction l as [|x l IH]; intros a; cbn; [reflexivity|].
  now rewrite IH, Hg.
Qed.

Lemma nodeInteraction_length (this : Layout.t) (i : nat)
    (gsum : Float64Array) (j : nat) :
  List.length (Layout.nodeInteraction this i gsum j) = List.length gsum.
Proof.
  unfold Layout.nodeInteraction. destruct (Nat.eqb i j); [reflexivity|].
  rewrite f64_set_length. apply fold_left_length_preserved.
  intros b x. apply f64_set_length.
Qed.

Lemma nodeInteractions_row_length (this : Layout.t)
    (acc : Float64Array * Float64Array) (i : nat) :
  List.length (fst (Layout.nodeInteractions_row this acc i))
  = List.length (fst acc).
Proof.
  destruct acc as [gsum a]. cbn [Layout.nodeInteractions_row fst].
  rewrite fold_left_length_preserved by apply nodeInteraction_length.
  apply fold_left_length_preserved. intros b x. apply f64_set_length.
Qed.

(** _calculateAcceleration runs when every node has a position row; it
    keeps the positions and the length of [ymean]. *)
Lemma calculateAcceleration_runs (this : Layout.t) :
  rows_present (Layout.numberOfNodes this) (Layout.position this) ->
  exists this',
    Layout._calculateAcceleration this = Ok this'
    /\ Layout.position this' = Layout.position this
    /\ Layout.numberOfNodes this' = Layout.numberOfNodes this
    /\ Layout.dof this' = Layout.dof this
    /\ Layout.currentStep this' = Layout.currentStep this
    /\ List.length (Layout.ymean this') = List.length (Layout.ymean this).
Proof.
  intros Hrows.
  unfold Layout._calculateAcceleration, Layout._processNodeInteractions.
  destruct (xtod_runs this (Layout.distance this) (Layout.direction this)
              (Layout.position this) Hrows) as ([dist dir] & ->).
  cbn [bind fst snd].
  destruct (fold_left _ _ _) as [ym acc] eqn:Efold.
  cbn [bind]. eexists. split; [reflexivity|]. cbn.
  repeat split.
  assert (Hlen : List.length (fst (ym, acc))
                 = List.length (Layout.ymean this)).
  { rewrite <- Efold.
    apply (fold_left_invariant
             (Layout.nodeInteractions_row
                (Layout.with_distance_direction this dist dir))
             (fun _ acc => List.length (fst acc)
                           = List.length (Layout.ymean this))).
    - reflexivity.
    - intros done x rest s _ Hs. now rewrite nodeInteractions_row_length. }
  exact Hlen.
Qed.

(* ================================================================== *)
(** * The position loops of step *)

Lemma f64_get_set (a : Float64Array) (i : nat) (v : num) (j : nat) :
  i < List.length a ->
  f64_get (f64_set a i v) j = if Nat.eqb j i then v else f64_get a j.
Proof.
  intros Hi. destruct (Nat.eqb_spec j i) as [->|Hne].
  - now apply f64_get_set_same.
  - now apply f64_get_set_other.
Qed.

(** Writing one coordinate of one row. *)
Lemma position_update_entry (p : Array (Array num)) (i d : nat)
    (f : num -> num) (N : nat) :
  rows_present N p -> i < N ->
  exists p',
    Layout.position_update p i d f = Ok p'
    /\ rows_present N p'
    /\ forall i' d',
         entry p' i' d'
         = if Nat.eqb i' i && Nat.eqb d' d then f (entry p i d)
           else entry p i' d'.
Proof.
  intros Hrows Hi. unfold Layout.position_update.
  destruct (Hrows i Hi) as [row Hrow]. rewrite Hrow.
  eexists. split; [reflexivity|]. split.
  - intros i' Hi'. rewrite Array_get_set.
    destruct (Nat.eqb i' i); [eauto | now apply Hrows].
  - intros i' d'. unfold entry. rewrite Array_get_set, Hrow.
    destruct (Nat.eqb_spec i' i) as [->|Hne]; cbn [andb].
    + rewrite Array_get_set. rewrite Hrow.
      now destruct (Nat.eqb d' d).
    + reflexivity.
Qed.

Lemma position_get_entry (p : Array (Array num)) (i d : nat) (N : nat) :
  rows_present N p -> i < N ->
  Layout.position_get p i d = Ok (entry p i d).
Proof.
  intros Hrows Hi. unfold Layout.position_get, entry.
  destruct (Hrows i Hi) as [row ->]. reflexivity.
Qed.

Section PositionLoops.
Variable this : Layout.t.

Local Abbreviation N := (Layout.numberOfNodes this).
Local Abbreviation D := (Layout.dof this).
Local Abbreviation V i d := (f64_get (Layout.velocity this) (i * D + d)).

(** The axis loop of the first node loop, for node [i]. *)
Lemma integrate_node (p : Array (Array num)) (ym : Float64Array) (i : nat) :
  rows_present N p -> i < N -> D <= List.length ym ->
  exists p' ym',
    Layout.integrate this (p, ym) i = Ok (p', ym')
    /\ rows_present N p'
    /\ List.length ym' = List.length ym
    /\ (forall i' d',
           entry p' i' d'
           = if Nat.eqb i' i && Nat.ltb d' D
             then num_add (entry p i' d') (V i' d')
             else entry p i' d')
    /\ (forall d', d' < D ->
                   f64_get ym' d'
                   = num_add (f64_get ym d')
                       (num_add (entry p i d') (V i d'))).
Proof.
  intros Hrows Hi Hym. unfold Layout.integrate.
  destruct (foldM_invariant
              (fun (acc : Array (Array num) * Float64Array) d =>
                 let (p0, ym0) := acc in
                 p1 <- Layout.position_update p0 i d
                         (fun x => num_add x (V i d)) ;;
                 x <- Layout.position_get p1 i d ;;
                 Ok (p1, f64_set ym0 d (num_add (f64_get ym0 d) x)))
              (fun done (acc : Array (Array num) * Float64Array) =>
                 rows_present N (fst acc)
                 /\ List.length (snd acc) = List.length ym
                 /\ (forall i' d',
                        entry (fst acc) i' d'
                        = if Nat.eqb i' i && Nat.ltb d' (List.length done)
                          then num_add (entry p i' d') (V i' d')
                          else entry p i' d')
                 /\ (forall d',
                        f64_get (snd acc) d'
                        = if Nat.ltb d' (List.length done)
                          then num_add (f64_get ym d')
                                 (num_add (entry p i d') (V i d'))
                          else f64_get ym d'))
              (seq 0 D) (p, ym))
    as ([p' ym'] & Hrun & Hr & Hl & Hp & Hy).
  - cbn [fst snd List.length]. repeat split; auto.
    intros i' d'. now rewrite andb_false_r.
  - intros done d rest [p0 ym0] Hsplit (Hr0 & Hl0 & Hp0 & Hy0).
    cbn [fst snd] in *.
    destruct (seq_split_in _ _ _ _ _ Hsplit) as (_ & Hd & Hlt).
    cbn [Nat.add] in Hd, Hlt.
    destruct (position_update_entry p0 i d (fun x => num_add x (V i d)) N
                Hr0 Hi) as (p1 & -> & Hr1 & Hp1).
    cbn [bind]. rewrite (position_get_entry p1 i d N Hr1 Hi). cbn [bind].
    eexists. split; [reflexivity|]. cbn [fst snd].
    rewrite length_app. cbn [List.length]. rewrite Nat.add_1_r.
    assert (Hcur : entry p0 i d = entry p i d).
    { rewrite Hp0. rewrite (proj2 (Nat.ltb_ge _ _)) by lia.
      now rewrite andb_false_r. }
    split; [assumption|]. split; [now rewrite f64_set_length|]. split.
    + intros i' d'. rewrite Hp1, Hcur, (Hp0 i' d').
      destruct (Nat.eqb_spec i' i) as [->|Hne]; cbn [andb]; [|reflexivity].
      destruct (Nat.eqb_spec d' d) as [->|Hnd].
      * now rewrite (proj2 (Nat.ltb_lt _ _)) by lia.
      * destruct (Nat.ltb_spec d' (List.length done)) as [H1|H1].
        -- now rewrite (proj2 (Nat.ltb_lt _ _)) by lia.
        -- now rewrite (proj2 (Nat.ltb_ge _ _)) by lia.
    + intros d'. rewrite f64_get_set by lia.
      destruct (Nat.eqb_spec d' d) as [->|Hnd].
      * rewrite (proj2 (Nat.ltb_lt _ _)) by lia.
        rewrite Hy0, (proj2 (Nat.ltb_ge _ _)) by lia.
        rewrite Hp1, !Nat.eqb_refl. cbn [andb]. now rewrite Hcur.
      * rewrite Hy0.
        destruct (Nat.ltb_spec d' (List.length done)) as [H1|H1].
        -- now rewrite (proj2 (Nat.ltb_lt _ _)) by lia.
        -- now rewrite (proj2 (Nat.ltb_ge _ _)) by lia.
  - rewrite length_seq in Hp, Hy. cbn [fst snd] in *.
    exists p', ym'. repeat split; auto.
    intros d' Hd'. rewrite Hy. now rewrite (proj2 (Nat.ltb_lt _ _)).
Qed.

(** The axis loop of the second node loop, for node [i]. *)
Lemma recentre_node (ym : Float64Array) (p : Array (Array num)) (i : nat) :
  rows_present N p -> i < N ->
  exists p',
    Layout.recentre this ym p i = Ok p'
    /\ rows_present N p'
    /\ forall i' d',
         entry p' i' d'
         = if Nat.eqb i' i && Nat.ltb d' D
           then num_sub (entry p i' d')
                  (num_div (f64_get ym d') (Fin (INR N)))
           else entry p i' d'.
Proof.
  intros Hrows Hi. unfold Layout.recentre.
  destruct (foldM_invariant
              (fun p0 d =>
                 Layout.position_update p0 i d
                   (fun x => num_sub x (num_div (f64_get ym d)
                                          (Fin (INR N)))))
              (fun done p0 =>
                 rows_present N p0
                 /\ forall i' d',
                      entry p0 i' d'
                      = if Nat.eqb i' i && Nat.ltb d' (List.length done)
                        then num_sub (entry p i' d')
                               (num_div (f64_get ym d') (Fin (INR N)))
                        else entry p i' d')
              (seq 0 D) p)
    as (p' & Hrun & Hr & Hp).
  - cbn [List.length]. split; [assumption|].
    intros i' d'. now rewrite andb_false_r.
  - intros done d rest p0 Hsplit (Hr0 & Hp0).
    destruct (seq_split_in _ _ _ _ _ Hsplit) as (_ & Hd & Hlt).
    cbn [Nat.add] in Hd, Hlt.
    destruct (position_update_entry p0 i d
                (fun x => num_sub x (num_div (f64_get ym d) (Fin (INR N))))
                N Hr0 Hi) as (p1 & -> & Hr1 & Hp1).
    eexists. split; [reflexivity|].
    rewrite length_app. cbn [List.length]. rewrite Nat.add_1_r.
    assert (Hcur : entry p0 i d = entry p i d).
    { rewrite Hp0. rewrite (proj2 (Nat.ltb_ge _ _)) by lia.
      now rewrite andb_false_r. }
    split; [assumption|].
    intros i' d'. rewrite Hp1, Hcur, (Hp0 i' d').
    destruct (Nat.eqb_spec i' i) as [->|Hne]; cbn [andb]; [|reflexivity].
    destruct (Nat.eqb_spec d' d) as [->|Hnd].
    + now rewrite (proj2 (Nat.ltb_lt _ _)) by lia.
    + destruct (Nat.ltb_spec d' (List.length done)) as [H1|H1].
      * now rewrite (proj2 (Nat.ltb_lt _ _)) by lia.
      * now rewrite (proj2 (Nat.ltb_ge _ _)) by lia.
  - rewrite length_seq in Hp. exists p'. auto.
Qed.
End PositionLoops.

Lemma zero_fill (D : nat) (ym : Float64Array) :
  D <= List.length ym ->
  List.length (fold_left (fun ym d => f64_set ym d (Fin 0)) (seq 0 D) ym)
  = List.length ym
  /\ forall d, d < D ->
       f64_get (fold_left (fun ym d => f64_set ym d (Fin 0)) (seq 0 D) ym) d
       = Fin 0.
Proof.
  intros HD.
  assert (H : List.length
                (fold_left (fun ym d => f64_set ym d (Fin 0)) (seq 0 D) ym)
              = List.length ym
              /\ forall d, d < List.length (seq 0 D) ->
                   f64_get (fold_left (fun ym d => f64_set ym d (Fin 0))
                              (seq 0 D) ym) d = Fin 0);
    [|now rewrite length_seq in H].
  apply (fold_left_invariant (fun ym d => f64_set ym d (Fin 0))
           (fun done ym' =>
              List.length ym' = List.length ym
              /\ forall d, d < List.length done -> f64_get ym' d = Fin 0)
           (seq 0 D) ym).
  - split; [reflexivity|]. cbn. lia.
  - intros done d rest ym' Hsplit [Hl Hz].
    destruct (seq_split_in _ _ _ _ _ Hsplit) as (_ & Hd & Hlt).
    cbn [Nat.add] in Hd, Hlt.
    split; [now rewrite f64_set_length|].
    intros d'. rewrite length_app. cbn [List.length]. intros Hd'.
    rewrite f64_get_set by lia.
    destruct (Nat.eqb_spec d' d); [reflexivity|]. apply Hz. lia.
Qed.

Section NodeLoops.
Variable this : Layout.t.

Local Abbreviation N := (Layout.numberOfNodes this).
Local Abbreviation D := (Layout.dof this).
Local Abbreviation V i d := (f64_get (Layout.velocity this) (i * D + d)).

(** The first node loop: every node is moved by its velocity and the
    coordinates are summed per axis. *)
Lemma integrate_all (p : Array (Array num)) (ym : Float64Array) :
  rows_present N p -> D <= List.length ym ->
  exists p' ym',
    foldM (Layout.integrate this) (seq 0 N) (p, ym) = Ok (p', ym')
    /\ rows_present N p'
    /\ (forall i d,
           entry p' i d
           = if Nat.ltb i N && Nat.ltb d D
             then num_add (entry p i d) (V i d)
             else entry p i d)
    /\ (forall d, d < D ->
           f64_get ym' d
           = fold_left
               (fun s i => num_add s (num_add (entry p i d) (V i d)))
               (seq 0 N) (f64_get ym d)).
Proof.
  intros Hrows Hym.
  destruct (foldM_invariant (Layout.integrate this)
              (fun done (acc : Array (Array num) * Float64Array) =>
                 rows_present N (fst acc)
                 /\ List.length (snd acc) = List.length ym
                 /\ (forall i d,
                        entry (fst acc) i d
                        = if Nat.ltb i (List.length done) && Nat.ltb d D
                          then num_add (entry p i d) (V i d)
                          else entry p i d)
                 /\ (forall d, d < D ->
                        f64_get (snd acc) d
                        = fold_left
                            (fun s i =>
                               num_add s (num_add (entry p i d) (V i d)))
                            (seq 0 (List.length done)) (f64_get ym d)))
              (seq 0 N) (p, ym))
    as ([p' ym'] & Hrun & Hr & Hl & Hp & Hy).
  - cbn [fst snd List.length seq fold_left]. auto.
  - intros done i rest [p0 ym0] Hsplit (Hr0 & Hl0 & Hp0 & Hy0).
    cbn [fst snd] in *.
    destruct (seq_split_in _ _ _ _ _ Hsplit) as (_ & Hi & Hlt).
    cbn [Nat.add] in Hi, Hlt.
    destruct (integrate_node this p0 ym0 i Hr0)
      as (p1 & ym1 & -> & Hr1 & Hl1 & Hp1 & Hy1); try lia.
    eexists. split; [reflexivity|]. cbn [fst snd].
    rewrite length_app. cbn [List.length]. rewrite Nat.add_1_r.
    assert (Hcur : forall d, entry p0 i d = entry p i d).
    { intros d. rewrite Hp0.
      now rewrite (proj2 (Nat.ltb_ge i (List.length done))) by lia. }
    split; [assumption|]. split; [lia|]. split.
    + intros i' d. rewrite Hp1.
      destruct (Nat.eqb_spec i' i) as [->|Hne]; cbn [andb].
      * rewrite !Hcur.
        now rewrite (proj2 (Nat.ltb_lt i (S (List.length done)))) by lia.
      * rewrite Hp0.
        destruct (Nat.ltb_spec i' (List.length done)) as [H1|H1].
        -- now rewrite (proj2 (Nat.ltb_lt i' (S (List.length done))))
             by lia.
        -- now rewrite (proj2 (Nat.ltb_ge i' (S (List.length done))))
             by lia.
    + intros d Hd. rewrite Hy1 by assumption. rewrite Hy0 by assumption.
      rewrite seq_S, fold_left_app. cbn [fold_left Nat.add].
      rewrite Hcur. now subst i.
  - rewrite length_seq in Hp, Hy. cbn [fst snd] in *.
    exists p', ym'. auto.
Qed.

(** The second node loop: the mean of each axis is subtracted from
    every node. *)
Lemma recentre_all (ym : Float64Array) (p : Array (Array num)) :
  rows_present N p ->
  exists p',
    foldM (Layout.recentre this ym) (seq 0 N) p = Ok p'
    /\ rows_present N p'
    /\ forall i d,
         entry p' i d
         = if Nat.ltb i N && Nat.ltb d D
           then num_sub (entry p i d)
                  (num_div (f64_get ym d) (Fin (INR N)))
           else entry p i d.
Proof.
  intros Hrows.
  destruct (foldM_invariant (Layout.recentre this ym)
              (fun done p0 =>
                 rows_present N p0
                 /\ forall i d,
                      entry p0 i d
                      = if Nat.ltb i (List.length done) && Nat.ltb d D
                        then num_sub (entry p i d)
                               (num_div (f64_get ym d) (Fin (INR N)))
                        else entry p i d)
              (seq 0 N) p)
    as (p' & Hrun & Hr & Hp).
  - cbn [List.length]. auto.
  - intros done i rest p0 Hsplit (Hr0 & Hp0).
    destruct (seq_split_in _ _ _ _ _ Hsplit) as (_ & Hi & Hlt).
    cbn [Nat.add] in Hi, Hlt.
    destruct (recentre_node this ym p0 i Hr0) as (p1 & -> & Hr1 & Hp1);
      try lia.
    eexists. split; [reflexivity|].
    rewrite length_app. cbn [List.length]. rewrite Nat.add_1_r.
    assert (Hcur : forall d, entry p0 i d = entry p i d).
    { intros d. rewrite Hp0.
      now rewrite (proj2 (Nat.ltb_ge i (List.length done))) by lia. }
    split; [assumption|].
    intros i' d. rewrite Hp1.
    destruct (Nat.eqb_spec i' i) as [->|Hne]; cbn [andb].
    + rewrite !Hcur.
      now rewrite (proj2 (Nat.ltb_lt i (S (List.length done)))) by lia.
    + rewrite Hp0.
      destruct (Nat.ltb_spec i' (List.length done)) as [H1|H1].
      * now rewrite (proj2 (Nat.ltb_lt i' (S (List.length done)))) by lia.
      * now rewrite (proj2 (Nat.ltb_ge i' (S (List.length done)))) by lia.
  - rewrite length_seq in Hp. exists p'. auto.
Qed.
End NodeLoops.

(* ================================================================== *)
(** * Sums *)

Lemma sum_of_finite (f : nat -> num) (g : nat -> R) (m : nat) :
  (forall i, i < m -> f i = Fin (g i)) ->
  fold_left (fun s i => num_add s (f i)) (seq 0 m) (Fin 0) = Fin (Rsum g m).
Proof.
  induction m as [|m IH]; intros Hf; [reflexivity|].
  rewrite seq_S, fold_left_app. cbn [fold_left Nat.add Rsum].
  rewrite IH by (intros i Hi; apply Hf; lia).
  now rewrite (Hf m) by lia.
Qed.

Lemma Rsum_shift (g : nat -> R) (c : R) (m : nat) :
  Rsum (fun i => g i + - c)%R m = (Rsum g m - INR m * c)%R.
Proof.
  induction m as [|m IH].
  - cbn. lra.
  - cbn [Rsum]. rewrite IH, S_INR. lra.
Qed.

Lemma is_finite_real_of (a : num) : is_finite a -> a = Fin (real_of a).
Proof. destruct a; cbn; tauto. Qed.

Lemma num_gtb_Fin_false (x y : R) :
  (x <= y)%R -> num_gtb (Fin x) (Fin y) = false.
Proof. intros H. cbn. destruct (Rlt_dec y x); [lra|reflexivity]. Qed.

(** The first node loop writes the sums into [ymean] in place. *)
Lemma integrate_loop_length (this : Layout.t) (l : list nat)
    (p : Array (Array num)) (ym : Float64Array)
    (p' : Array (Array num)) (ym' : Float64Array) :
  foldM (Layout.integrate this) l (p, ym) = Ok (p', ym') ->
  List.length ym' = List.length ym.
Proof.
  revert p ym. induction l as [|i l IH]; intros p ym; cbn [foldM].
  - now intros [= _ <-].
  - destruct (Layout.integrate this (p, ym) i) as [[p1 ym1]| |] eqn:E;
      cbn [bind]; try discriminate.
    intros H. rewrite (IH _ _ H).
    unfold Layout.integrate in E. revert E.
    generalize (seq 0 (Layout.dof this)). intros ds. revert p ym.
    induction ds as [|d ds IHd]; intros p ym; cbn [foldM].
    + now intros [= _ <-].
    + destruct (Layout.position_update p i d _) as [q| |]; cbn [bind];
        try discriminate.
      destruct (Layout.position_get q i d) as [x| |]; cbn [bind];
        try discriminate.
      intros H'. rewrite (IHd _ _ H'). apply f64_set_length.
Qed.

(** A step runs when every node has a position row and [ymean] has room
    for every axis; the state it returns is described coordinate by
    coordinate from the velocities that _calculateAcceleration leaves. *)
Lemma step_runs (this : Layout.t) :
  rows_present (Layout.numberOfNodes this) (Layout.position this) ->
  Layout.dof this <= List.length (Layout.ymean this) ->
  exists this1 this',
    Layout._calculateAcceleration (Layout.anneal this) = Ok this1
    /\ Layout.step this = Ok this'
    /\ Layout.numberOfNodes this' = Layout.numberOfNodes this
    /\ Layout.dof this' = Layout.dof this
    /\ Layout.currentStep this' = S (Layout.currentStep this)
    /\ List.length (Layout.ymean this') = List.length (Layout.ymean this)
    /\ rows_present (Layout.numberOfNodes this) (Layout.position this')
    /\ forall i d,
         i < Layout.numberOfNodes this -> d < Layout.dof this ->
         entry (Layout.position this') i d
         = num_sub
             (num_add (entry (Layout.position this) i d)
                (f64_get (Layout.velocity this1) (i * Layout.dof this + d)))
             (num_div
                (fold_left
                   (fun s i' =>
                      num_add s
                        (num_add (entry (Layout.position this) i' d)
                           (f64_get (Layout.velocity this1)
                              (i' * Layout.dof this + d))))
                   (seq 0 (Layout.numberOfNodes this)) (Fin 0))
                (Fin (INR (Layout.numberOfNodes this)))).
Proof.
  intros Hrows Hym.
  destruct (anneal_frame this) as (_ & Hap & _ & Hay & HaN & HaD & Hac).
  destruct (calculateAcceleration_runs (Layout.anneal this))
    as (this1 & Hrun & Hp1 & HN1 & HD1 & Hc1 & Hy1).
  { now rewrite HaN, Hap. }
  rewrite Hap in Hp1. rewrite HaN in HN1. rewrite HaD in HD1.
  rewrite Hac in Hc1. rewrite Hay in Hy1.
  destruct (zero_fill (Layout.dof this1) (Layout.ymean this1))
    as [Hzl Hz]; [rewrite HD1, Hy1; exact Hym|].
  destruct (integrate_all this1 (Layout.position this1)
              (fold_left (fun ym d => f64_set ym d (Fin 0))
                 (seq 0 (Layout.dof this1)) (Layout.ymean this1)))
    as (p2 & ym2 & Hint & Hr2 & Hp2 & Hy2).
  { now rewrite HN1, Hp1. }
  { rewrite Hzl, HD1, Hy1. exact Hym. }
  destruct (recentre_all this1 ym2 p2 Hr2) as (p3 & Hrec & Hr3 & Hp3).
  exists this1. eexists. split; [exact Hrun|]. split.
  { unfold Layout.step. rewrite Hrun. cbn [bind]. rewrite Hint. cbn [bind
      fst snd]. rewrite Hrec. cbn [bind]. reflexivity. }
  cbn [Layout.with_currentStep Layout.with_position Layout.numberOfNodes
       Layout.dof Layout.currentStep Layout.ymean Layout.position].
  split; [assumption|]. split; [assumption|].
  split; [now rewrite Hc1|].
  split.
  { rewrite (integrate_loop_length _ _ _ _ _ _ Hint), Hzl. exact Hy1. }
  split; [now rewrite <- HN1|].
  intros i d Hi Hd.
  rewrite Hp3, Hp2, Hp1, HN1, HD1.
  rewrite (proj2 (Nat.ltb_lt i (Layout.numberOfNodes this))) by assumption.
  rewrite (proj2 (Nat.ltb_lt d (Layout.dof this))) by assumption.
  cbn [andb]. rewrite Hy2 by (rewrite HD1; exact Hd).
  rewrite Hz by (rewrite HD1; exact Hd).
  now rewrite Hp1, HN1, HD1.
Qed.

(* ================================================================== *)
(** * The coincident example *)

Lemma exCoincident_xtod :
  Layout._xtod exCoincident (Layout.distance exCoincident)
    (Layout.direction exCoincident) (Layout.position exCoincident)
  = Ok ([Fin 0; Fin 0; Fin 0; Fin 0],
        [Fin 0; Fin 0; NaN; NaN; NaN; NaN; Fin 0; Fin 0]).
Proof.
  unfold Layout._xtod, exCoincident.
  cbn -[num_div num_sqrt num_gtb Rplus Rmult Ropp Rminus Rdiv Rinv sqrt
        IZR INR Rlt_dec Req_EM_T].
  rewrite !num_sqrt_Fin by lra.
  replace (0 + (1 + - (1)) * (1 + - (1)) + (2 + - (2)) * (2 + - (2)))%R
    with 0%R by lra.
  rewrite sqrt_0.
  rewrite !num_div_zero_zero by lra.
  reflexivity.
Qed.

(** One step from two coincident nodes leaves [NaN] in every coordinate
    of every node. *)
Lemma exCoincident_step :
  exists this',
    Layout.step exCoincident = Ok this'
    /\ Layout.numberOfNodes this' = 2
    /\ Layout.position this'
       = [Some [Some NaN; Some NaN]; Some [Some NaN; Some NaN]].
Proof.
  eexists. split; [|split].
  - unfold Layout.step, Layout._calculateAcceleration,
      Layout._processNodeInteractions.
    change (Layout.anneal exCoincident) with exCoincident.
    rewrite exCoincident_xtod.
    cbn -[num_div num_sqrt num_gtb Rplus Rmult Ropp Rminus Rdiv Rinv sqrt
          IZR INR Rlt_dec Req_EM_T].
    rewrite !num_gtb_Fin_false by lra.
    cbn -[num_div num_sqrt num_gtb Rplus Rmult Ropp Rminus Rdiv Rinv sqrt
          IZR INR Rlt_dec Req_EM_T].
    reflexivity.
  - reflexivity.
  - reflexivity.
Qed.

Lemma exCoincident_rows :
  rows_present (Layout.numberOfNodes exCoincident)
    (Layout.position exCoincident).
Proof. intros [|[|i]] Hi; cbn in *; eauto; lia. Qed.

Lemma exCoincident_coincident :
  coincident (Layout.dof exCoincident) (Layout.position exCoincident) 0 1.
Proof.
  eexists _, _. split; [reflexivity|]. split; [reflexivity|].
  split; [reflexivity|].
  intros [|[|k]] Hk; cbn in *; eauto; lia.
Qed.

(* ================================================================== *)
(** * Coincident nodes *)

(** C7.  For every pair of coincident nodes, the recomputation of
    distances and directions divides by the zero distance without a guard:
    _xtod runs to its end and leaves [NaN] in the direction buffer, at the
    entries of the pair in both orders and on every axis. *)
Theorem xtod_writes_NaN_for_coincident_nodes
    (this : Layout.t) (dist dir : Float64Array) (i j : nat) :
  i < j -> j < Layout.numberOfNodes this ->
  rows_present (Layout.numberOfNodes this) (Layout.position this) ->
  coincident (Layout.dof this) (Layout.position this) i j ->
  List.length dir
  = Layout.numberOfNodes this * Layout.numberOfNodes this * Layout.dof this ->
  exists dist' dir',
    Layout._xtod this dist dir (Layout.position this) = Ok (dist', dir')
    /\ forall k, k < Layout.dof this ->
         nth_error dir'
           (i * Layout.numberOfNodes this * Layout.dof this
            + j * Layout.dof this + k) = Some NaN
         /\ nth_error dir'
              (j * Layout.numberOfNodes this * Layout.dof this
               + i * Layout.dof this + k) = Some NaN.
Proof.
  intros Hij Hj Hrows Hco Hlen.
  destruct (xtod_coincident _ _ _ i j Hij Hj Hrows Hco this dist dir
              eq_refl eq_refl Hlen) as (dist' & dir' & Hrun & _ & Hp).
  exists dist', dir'. auto.
Qed.

Lemma xtod_writes_NaN_for_coincident_nodes_witness :
  exists dist' dir',
    Layout._xtod exCoincident (Layout.distance exCoincident)
      (Layout.direction exCoincident) (Layout.position exCoincident)
    = Ok (dist', dir')
    /\ forall k, k < 2 ->
         nth_error dir' (0 * 2 * 2 + 1 * 2 + k) = Some NaN
         /\ nth_error dir' (1 * 2 * 2 + 0 * 2 + k) = Some NaN.
Proof.
  apply (xtod_writes_NaN_for_coincident_nodes exCoincident
           (Layout.distance exCoincident) (Layout.direction exCoincident)
           0 1).
  - lia.
  - cbn. lia.
  - exact exCoincident_rows.
  - exact exCoincident_coincident.
  - reflexivity.
Defined.

(** C7, as stated, fails: two nodes at the same position; _xtod writes
    [NaN] into the direction buffer, and after the step every coordinate
    of both nodes is [NaN]. *)
Lemma xtod_has_no_zero_distance_guard :
  coincident (Layout.dof exCoincident) (Layout.position exCoincident) 0 1
  /\ (exists dist' dir',
         Layout._xtod exCoincident (Layout.distance exCoincident)
           (Layout.direction exCoincident) (Layout.position exCoincident)
         = Ok (dist', dir')
         /\ nth_error dir' 2 = Some NaN)
  /\ exists this',
       Layout.step exCoincident = Ok this'
       /\ entry (Layout.position this') 0 0 = NaN.
Proof.
  split; [exact exCoincident_coincident|]. split.
  - eexists _, _. split; [exact exCoincident_xtod | reflexivity].
  - destruct exCoincident_step as (this' & Hrun & _ & Hp).
    exists this'. split; [assumption|]. now rewrite Hp.
Qed.

(* ================================================================== *)
(** * The mean position after a step *)

(** C5.  For every layout state with at least one node whose positions
    are finite and for which the step computes finite velocities, step()
    returns a state in which the mean of the node positions is exactly
    zero on every axis. *)
Theorem step_recentres_finite_positions (this : Layout.t) :
  0 < Layout.numberOfNodes this ->
  Layout.dof this <= List.length (Layout.ymean this) ->
  finite_positions (Layout.numberOfNodes this) (Layout.dof this)
    (Layout.position this) ->
  (forall this1,
      Layout._calculateAcceleration (Layout.anneal this) = Ok this1 ->
      finite_velocities (Layout.numberOfNodes this) (Layout.dof this)
        (Layout.velocity this1)) ->
  exists this',
    Layout.step this = Ok this'
    /\ forall d, d < Layout.dof this -> axis_mean this' d = Fin 0.
Proof.
  intros HN Hym [Hrows Hfin] Hvel.
  destruct (step_runs this Hrows Hym)
    as (this1 & this' & Hacc & Hrun & HN' & HD' & _ & _ & _ & Hentry).
  specialize (Hvel this1 Hacc).
  exists this'. split; [exact Hrun|].
  intros d Hd. unfold axis_mean, axis_sum. rewrite HN'.
  set (x := fun i =>
              (real_of (entry (Layout.position this) i d)
               + real_of (f64_get (Layout.velocity this1)
                            (i * Layout.dof this + d)))%R).
  assert (Hx : forall i, i < Layout.numberOfNodes this ->
                 num_add (entry (Layout.position this) i d)
                   (f64_get (Layout.velocity this1)
                      (i * Layout.dof this + d))
                 = Fin (x i)).
  { intros i Hi.
    rewrite (is_finite_real_of _ (Hfin i d Hi Hd)).
    rewrite (is_finite_real_of _ (Hvel i d Hi Hd)). reflexivity. }
  assert (HNne : INR (Layout.numberOfNodes this) <> 0%R).
  { apply not_0_INR. lia. }
  rewrite (sum_of_finite _
             (fun i => (x i + - (Rsum x (Layout.numberOfNodes this)
                                 / INR (Layout.numberOfNodes this)))%R)).
  - rewrite Rsum_shift. rewrite num_div_Fin by assumption. f_equal.
    field. assumption.
  - intros i Hi. rewrite (Hentry i d Hi Hd).
    rewrite (sum_of_finite _ x) by exact Hx.
    rewrite (Hx i Hi), num_div_Fin by assumption. reflexivity.
Qed.

Lemma exSingle_finite :
  finite_positions (Layout.numberOfNodes exSingle) (Layout.dof exSingle)
    (Layout.position exSingle).
Proof.
  split.
  - intros [|i] Hi; cbn in *; eauto; lia.
  - intros [|i] [|[|d]] Hi Hd; cbn in *; try lia; exact I.
Qed.

Lemma step_recentres_finite_positions_witness :
  exists this',
    Layout.step exSingle = Ok this'
    /\ forall d, d < 2 -> axis_mean this' d = Fin 0.
Proof.
  apply (step_recentres_finite_positions exSingle).
  - cbn. lia.
  - cbn. lia.
  - exact exSingle_finite.
  - intros this1 Hacc.
    unfold Layout._calculateAcceleration, Layout._processNodeInteractions
      in Hacc.
    change (Layout.anneal exSingle) with exSingle in Hacc.
    cbn -[num_div num_sqrt num_gtb Rplus Rmult Ropp Rminus Rdiv Rinv sqrt
          IZR INR Rlt_dec Req_EM_T] in Hacc.
    injection Hacc as <-.
    intros [|i] [|[|d]] Hi Hd; cbn in *; try lia; exact I.
Defined.

(** C5, as stated, fails: from two coincident nodes the step returns
    positions that are all [NaN], and so is their mean. *)
Lemma step_mean_is_NaN_for_coincident_nodes :
  0 < Layout.numberOfNodes exCoincident
  /\ exists this',
       Layout.step exCoincident = Ok this'
       /\ axis_mean this' 0 = NaN
       /\ axis_mean this' 0 <> Fin 0.
Proof.
  split; [cbn; lia|].
  destruct exCoincident_step as (this' & Hrun & HN & Hp).
  exists this'. split; [assumption|].
  assert (Hm : axis_mean this' 0 = NaN).
  { unfold axis_mean, axis_sum. rewrite HN, Hp. reflexivity. }
  split; [assumption|]. rewrite Hm. discriminate.
Qed.

(* ================================================================== *)
(** * Further properties: nodes, edges and adjacency *)

Lemma addEdge_fold_get (l : list GraphEdge) (g : Graph) (key : string) :
  JSMap.get (edges (fold_left addEdge l g)) key
  = match JSMap.get (edges g) key with
    | Some e => Some e
    | None => find (fun e => String.eqb (edge_id e) key) l
    end.
Proof.
  revert g. induction l as [|e l IH]; intros g; cbn [fold_left find].
  - now destruct (JSMap.get (edges g) key).
  - rewrite IH. unfold addEdge, JSMap.has.
    destruct (JSMap.get (edges g) (edge_id e)) as [e0|] eqn:Eg;
      cbn [negb edges].
    + destruct (JSMap.get (edges g) key) as [e1|] eqn:Ek; [reflexivity|].
      destruct (String.eqb_spec (edge_id e) key) as [Heq|_]; [|reflexivity].
      congruence.
    + destruct (String.eqb_spec (edge_id e) key) as [<-|Hne].
      * now rewrite get_set_same, Eg.
      * rewrite get_set_other by congruence.
        now destruct (JSMap.get (edges g) key).
Qed.

Lemma addEdge_fold_count (l : list GraphEdge) (g : Graph) :
  numberOfEdges g = List.length (edges g) ->
  NoDup (JSMap.keys (edges g)) ->
  numberOfEdges (fold_left addEdge l g)
  = List.length (edges (fold_left addEdge l g))
  /\ NoDup (JSMap.keys (edges (fold_left addEdge l g)))
  /\ (forall k, In k (JSMap.keys (edges (fold_left addEdge l g)))
                <-> In k (JSMap.keys (edges g)) \/ In k (map edge_id l))
  /\ nodes (fold_left addEdge l g) = nodes g
  /\ numberOfNodes (fold_left addEdge l g) = numberOfNodes g.
Proof.
  revert g. induction l as [|e l IH]; intros g Hn Hnd; cbn [fold_left map].
  - repeat split; auto. intros [?|[]]; assumption.
  - assert (Hstep : numberOfEdges (addEdge g e)
                    = List.length (edges (addEdge g e))
            /\ NoDup (JSMap.keys (edges (addEdge g e)))
            /\ (forall k, In k (JSMap.keys (edges (addEdge g e)))
                          <-> In k (JSMap.keys (edges g)) \/ edge_id e = k)
            /\ nodes (addEdge g e) = nodes g
            /\ numberOfNodes (addEdge g e) = numberOfNodes g).
    { unfold addEdge.
      destruct (JSMap.has (edges g) (edge_id e)) eqn:E;
        cbn [negb edges nodes numberOfEdges numberOfNodes].
      - repeat split; auto.
        intros [?|<-]; [assumption|]. now apply has_true_iff.
      - rewrite (set_absent _ _ _ E). unfold JSMap.keys.
        rewrite map_app, length_app. cbn [map fst List.length].
        repeat split.
        + rewrite Hn. lia.
        + apply has_false_iff in E.
          apply NoDup_app; [assumption | repeat constructor; simpl; tauto |].
          intros a Ha [<-|[]]. exact (E Ha).
        + rewrite in_app_iff. cbn [In]. tauto.
        + rewrite in_app_iff. cbn [In]. tauto. }
    destruct Hstep as (Hn' & Hnd' & Hk' & Hnodes & Hcount).
    destruct (IH _ Hn' Hnd') as (H1 & H2 & H3 & H4 & H5).
    repeat split; auto; try congruence.
    + intros Hin. apply H3 in Hin. rewrite Hk' in Hin. cbn [In]. tauto.
    + intros Hin. apply H3. rewrite Hk'. cbn [In] in Hin. tauto.
Qed.

(** X1.  After any sequence of [addEdge] calls on a new graph, the edge
    count is the number of distinct edge ids and equals the size of the
    edge map; a lookup by id returns the first edge added under that id
    (later edges with the same id are ignored), so every edge is stored
    under its own id; the nodes are untouched. *)
Theorem addEdge_first_writer_wins (l : list GraphEdge) :
  numberOfEdges (fold_left addEdge l (Graph_new false))
  = List.length (nodup string_dec (map edge_id l))
  /\ numberOfEdges (fold_left addEdge l (Graph_new false))
     = List.length (edges (fold_left addEdge l (Graph_new false)))
  /\ (forall key,
         JSMap.get (edges (fold_left addEdge l (Graph_new false))) key
         = find (fun e => String.eqb (edge_id e) key) l)
  /\ edges_keyed_by_id (edges (fold_left addEdge l (Graph_new false)))
  /\ numberOfNodes (fold_left addEdge l (Graph_new false)) = 0.
Proof.
  destruct (addEdge_fold_count l (Graph_new false) eq_refl (NoDup_nil _))
    as (Hn & Hnd & Hk & _ & Hc).
  assert (Hget : forall key,
             JSMap.get (edges (fold_left addEdge l (Graph_new false))) key
             = find (fun e => String.eqb (edge_id e) key) l).
  { intros key. now rewrite addEdge_fold_get. }
  split; [|split; [exact Hn|split; [exact Hget|split; [|exact Hc]]]].
  - rewrite Hn, <- (length_map fst).
    apply Permutation_length, NoDup_Permutation;
      [exact Hnd | apply NoDup_nodup |].
    intros k. rewrite nodup_In.
    change (map fst (edges ?g)) with (JSMap.keys (edges g)).
    rewrite (Hk k). cbn. tauto.
  - intros key e. rewrite Hget. intros Hf.
    apply find_some in Hf. destruct Hf as [_ Heq].
    now apply String.eqb_eq in Heq.
Qed.

Lemma addNode_fold_get (h : Heap) (l : list ref) (g : Graph) (key : string) :
  JSMap.get (nodes (fold_left (addNode h) l g)) key
  = match JSMap.get (nodes g) key with
    | Some r => Some r
    | None => find (fun r => String.eqb (id (cell h r)) key) l
    end.
Proof.
  revert g. induction l as [|r l IH]; intros g; cbn [fold_left find].
  - now destruct (JSMap.get (nodes g) key).
  - rewrite IH. unfold addNode, JSMap.has.
    destruct (JSMap.get (nodes g) (id (cell h r))) as [r0|] eqn:Eg;
      cbn [negb nodes].
    + destruct (JSMap.get (nodes g) key) as [r1|] eqn:Ek; [reflexivity|].
      destruct (String.eqb_spec (id (cell h r)) key) as [Heq|_];
        [|reflexivity].
      congruence.
    + destruct (String.eqb_spec (id (cell h r)) key) as [<-|Hne].
      * now rewrite get_set_same, Eg.
      * rewrite get_set_other by congruence.
        now destruct (JSMap.get (nodes g) key).
Qed.

Lemma addNode_fold_frame (h : Heap) (l : list ref) (g : Graph) :
  edges (fold_left (addNode h) l g) = edges g
  /\ numberOfEdges (fold_left (addNode h) l g) = numberOfEdges g
  /\ nodeMap (fold_left (addNode h) l g) = nodeMap g
  /\ nodeIndexMap (fold_left (addNode h) l g) = nodeIndexMap g
  /\ edgeNodeIndex (fold_left (addNode h) l g) = edgeNodeIndex g.
Proof.
  revert g. induction l as [|r l IH]; intros g; cbn [fold_left]; [auto|].
  destruct (IH (addNode h g r)) as (-> & -> & -> & -> & ->).
  unfold addNode. destruct (negb _); cbn; auto.
Qed.

(** X2.  After any sequence of [addNode] calls on a new graph, a lookup by
    id returns the first node object added under that id, and an id that
    was never added is absent; every registered node is stored under its
    own id; the edges and the index maps are untouched. *)
Theorem addNode_first_writer_wins (h : Heap) (l : list ref) :
  (forall key,
      JSMap.get (nodes (fold_left (addNode h) l (Graph_new false))) key
      = find (fun r => String.eqb (id (cell h r)) key) l)
  /\ (forall key r,
         In (key, r) (nodes (fold_left (addNode h) l (Graph_new false))) ->
         id (cell h r) = key /\ In r l)
  /\ edges (fold_left (addNode h) l (Graph_new false)) = JSMap.empty
  /\ nodeMap (fold_left (addNode h) l (Graph_new false)) = JSMap.empty
  /\ numberOfEdges (fold_left (addNode h) l (Graph_new false)) = 0.
Proof.
  assert (Hget : forall key,
             JSMap.get (nodes (fold_left (addNode h) l (Graph_new false))) key
             = find (fun r => String.eqb (id (cell h r)) key) l).
  { intros key. now rewrite addNode_fold_get. }
  destruct (addNode_fold_invariant h l (Graph_new false) eq_refl
              (NoDup_nil _)) as (_ & Hnd & _).
  destruct (addNode_fold_frame h l (Graph_new false))
    as (He & Hc & Hm & _ & _).
  split; [exact Hget|]. split; [|auto].
  intros key r Hin. apply (in_get _ _ _ Hnd) in Hin.
  rewrite Hget in Hin. apply find_some in Hin. destruct Hin as [Hl Heq].
  apply String.eqb_eq in Heq. auto.
Qed.

Lemma addAdjacentNode_fold (l : list ref) (n : GraphNode) :
  NoDup (adjacentSet n) ->
  let n' := fold_left addAdjacentNode l n in
  degree n' = degree n + List.length l
  /\ NoDup (adjacentSet n')
  /\ (forall w, In w (adjacentSet n') <-> In w (adjacentSet n) \/ In w l)
  /\ id n' = id n /\ distance n' = distance n
  /\ attributes n' = attributes n.
Proof.
  revert n. induction l as [|x l IH]; intros n Hnd; cbn [fold_left].
  - cbn. repeat split; auto; try lia; try tauto.
  - assert (Hnd1 : NoDup (adjacentSet (addAdjacentNode n x))
                   /\ forall w, In w (adjacentSet (addAdjacentNode n x))
                                <-> In w (adjacentSet n) \/ x = w).
    { unfold addAdjacentNode. cbn [adjacentSet].
      destruct (existsb (Nat.eqb x) (adjacentSet n)) eqn:E.
      - split; [assumption|]. intros w. split; [tauto|].
        intros [?|<-]; [assumption|].
        apply existsb_exists in E. destruct E as (y & Hy & Heq).
        apply Nat.eqb_eq in Heq. now subst.
      - split.
        + apply NoDup_app; [assumption | repeat constructor; simpl; tauto |].
          intros a Ha [<-|[]].
          assert (existsb (Nat.eqb x) (adjacentSet n) = true); [|congruence].
          apply existsb_exists. exists x. split; [assumption|].
          apply Nat.eqb_refl.
        + intros w. rewrite in_app_iff. cbn. tauto. }
    destruct Hnd1 as [Hnd1 Hin1].
    destruct (IH _ Hnd1) as (H1 & H2 & H3 & H4 & H5 & H6).
    cbn [List.length]. repeat split; auto.
    + rewrite H1. cbn. lia.
    + intros Hw. apply H3 in Hw. rewrite Hin1 in Hw. cbn [In]. tauto.
    + intros Hw. apply H3. rewrite Hin1. cbn [In] in Hw. tauto.
Qed.

(** X3.  A node built by the constructor and any sequence of
    [addAdjacentNode] calls has a degree equal to the number of calls and
    an adjacent set without duplicates that holds exactly the nodes passed;
    so the degree is at least the size of the adjacent set, with equality
    exactly when no neighbour was passed twice. *)
Theorem addAdjacentNode_degree_counts_calls
    (id0 : string) (type0 : option string) (l : list ref) :
  let n := fold_left addAdjacentNode l (GraphNode_new id0 type0) in
  degree n = List.length l
  /\ NoDup (adjacentSet n)
  /\ (forall w, In w (adjacentSet n) <-> In w l)
  /\ List.length (adjacentSet n) <= degree n
  /\ (List.length (adjacentSet n) = degree n <-> NoDup l)
  /\ id n = id0 /\ distance n = Infinity.
Proof.
  destruct (addAdjacentNode_fold l (GraphNode_new id0 type0) (NoDup_nil _))
    as (Hd & Hnd & Hin & Hid & Hdist & _).
  cbn in Hd, Hin, Hid, Hdist. cbv zeta.
  assert (Hin' : forall w,
             In w (adjacentSet (fold_left addAdjacentNode l
                                  (GraphNode_new id0 type0))) <-> In w l).
  { intros w. rewrite Hin. tauto. }
  assert (Hle : List.length (adjacentSet (fold_left addAdjacentNode l
                                            (GraphNode_new id0 type0)))
                <= List.length l).
  { apply NoDup_incl_length; [assumption|]. intros w. apply Hin'. }
  split; [exact Hd|]. split; [exact Hnd|]. split; [exact Hin'|].
  split; [rewrite Hd; exact Hle|]. split; [|auto].
  rewrite Hd. split.
  - intros Hlen.
    apply NoDup_incl_NoDup with
      (l := adjacentSet (fold_left addAdjacentNode l
                           (GraphNode_new id0 type0))); auto; try lia.
    intros w. apply Hin'.
  - intros Hndl.
    apply Nat.le_antisymm; [assumption|].
    apply NoDup_incl_length; [assumption|]. intros w. apply Hin'.
Qed.

(** X4.  [_getEdgeIDFromNodes] looks the edge up under `a_b` and then
    under `b_a`: it finds nothing exactly when both keys are absent, it is
    defined for (a, b) exactly when it is defined for (b, a), and whenever
    at most one of the two keys is present both orders return the same
    edge. *)
Theorem getEdgeIDFromNodes_is_unordered
    (E : JSMap.t string GraphEdge) (a b : GraphNode) :
  (_getEdgeIDFromNodes E a b = None
   <-> JSMap.get E (edge_key (id a) (id b)) = None
       /\ JSMap.get E (edge_key (id b) (id a)) = None)
  /\ (_getEdgeIDFromNodes E a b = None <-> _getEdgeIDFromNodes E b a = None)
  /\ (JSMap.get E (edge_key (id a) (id b)) = None
      \/ JSMap.get E (edge_key (id b) (id a)) = None ->
      _getEdgeIDFromNodes E a b = _getEdgeIDFromNodes E b a)
  /\ (forall e, JSMap.get E (edge_key (id a) (id b)) = Some e ->
                _getEdgeIDFromNodes E a b = Some e).
Proof.
  unfold _getEdgeIDFromNodes, JSMap.has.
  destruct (JSMap.get E (edge_key (id a) (id b))) as [e1|];
    destruct (JSMap.get E (edge_key (id b) (id a))) as [e2|];
    repeat split; try tauto; try congruence; intuition congruence.
Qed.

Lemma getEdgeIDFromNodes_is_unordered_witness :
  _getEdgeIDFromNodes (edges exGraph) exB exA
  = _getEdgeIDFromNodes (edges exGraph) exA exB
  /\ _getEdgeIDFromNodes (edges exGraph) exA exB = Some (exEdge "A_B" 0 1).
Proof.
  destruct (getEdgeIDFromNodes_is_unordered (edges exGraph) exB exA)
    as (_ & _ & Hsym & _).
  split; [apply Hsym; now left|].
  apply (getEdgeIDFromNodes_is_unordered (edges exGraph) exA exB).
  reflexivity.
Defined.

(* ================================================================== *)
(** * Further properties: generateSubGraph *)

(** X5.  On a store whose references are allocated, [generateSubGraph]
    returns a sub-graph exactly when the seed (given, or the default one)
    is a key of the node map; otherwise it throws a TypeError.  The loop
    never needs more than [size h + 1] evaluations of its condition,
    whatever distances the store holds and whatever [numHops] is. *)
Theorem generateSubGraph_returns_iff_seed_registered
    (h : Heap) (g : Graph) (start : option string) (numHops : option nat) :
  heap_closed h -> nodes_allocated h g ->
  match match start with Some s => Some s | None => defaultSeed h g end with
  | Some key =>
      match JSMap.get (nodes g) key with
      | Some root =>
          exists h' sub, generateSubGraph h g start numHops = Ok (h', sub)
      | None => generateSubGraph h g start numHops = TypeError
      end
  | None => generateSubGraph h g start numHops = TypeError
  end.
Proof.
  intros Hclosed Halloc.
  destruct (match start with Some s => Some s | None => defaultSeed h g end)
    as [key|] eqn:Hstart.
  - destruct (JSMap.get (nodes g) key) as [root|] eqn:Hget.
    + assert (Hroot : root < size h).
      { apply (Halloc key). now apply get_in. }
      destruct (generateSubGraph_run h g start numHops key root
                  Hclosed Hstart Hget Hroot) as (sd & _ & _ & _ & _ & Hrun).
      eauto.
    + unfold generateSubGraph. rewrite Hstart, resetDistance_unchanged.
      cbn [bind]. now rewrite Hget.
  - unfold generateSubGraph. rewrite Hstart, resetDistance_unchanged.
    reflexivity.
Qed.

Lemma generateSubGraph_returns_iff_seed_registered_witness :
  (exists h' sub,
      generateSubGraph exHeap exGraph (Some "B"%string) (Some 7)
      = Ok (h', sub))
  /\ generateSubGraph exHeap exGraph (Some "Z"%string) None = TypeError.
Proof.
  split.
  - apply (generateSubGraph_returns_iff_seed_registered exHeap exGraph
             (Some "B"%string) (Some 7) exHeap_closed exGraph_allocated).
  - apply (generateSubGraph_returns_iff_seed_registered exHeap exGraph
             (Some "Z"%string) None exHeap_closed exGraph_allocated).
Defined.

Lemma only_distances_written_refl (root : ref) (h : Heap) :
  only_distances_written root h h.
Proof. split; [reflexivity|]. intros r. auto. Qed.

Lemma only_distances_written_trans (root : ref) (h1 h2 h3 : Heap) :
  only_distances_written root h1 h2 -> only_distances_written root h2 h3 ->
  only_distances_written root h1 h3.
Proof.
  intros [Hs1 H1] [Hs2 H2]. split; [congruence|].
  intros r. destruct (H1 r) as (A1 & B1 & C1 & D1 & E1).
  destruct (H2 r) as (A2 & B2 & C2 & D2 & E2).
  repeat split; try congruence.
  intros Hr Hfin. rewrite E2; auto. rewrite E1; auto.
Qed.

Lemma only_distances_written_set (root : ref) (h : Heap) (r : ref)
    (d : Distance) :
  r = root \/ distance (cell h r) = Infinity ->
  only_distances_written root h (set_distance h r d).
Proof.
  intros Hr. split; [reflexivity|].
  intros r'. unfold set_distance. cbn [cell].
  destruct (Nat.eqb_spec r' r) as [->|Hne]; cbn; repeat split; auto.
  intros Hroot Hfin. destruct Hr; congruence.
Qed.

Lemma visit_only_distances (E : JSMap.t string GraphEdge) (root u : ref)
    (s : BFS) (item : ref) :
  only_distances_written root (heap s) (heap (visit E u s item)).
Proof.
  unfold visit.
  destruct (visit_edge_frame E u (visit_distance u s item) item) as (-> & _).
  unfold visit_distance.
  destruct (Distance_eqb (distance (cell (heap s) item)) Infinity) eqn:Einf.
  - cbn [heap]. apply only_distances_written_set. right.
    now apply Distance_eqb_Infinity.
  - apply only_distances_written_refl.
Qed.

Lemma visit_fold_only_distances (E : JSMap.t string GraphEdge) (root u : ref)
    (items : list ref) (s : BFS) :
  only_distances_written root (heap s)
    (heap (fold_left (visit E u) items s)).
Proof.
  revert s. induction items as [|item items IH]; intros s; cbn [fold_left].
  - apply only_distances_written_refl.
  - eapply only_distances_written_trans; [|apply IH].
    apply visit_only_distances.
Qed.

Lemma bfs_only_distances (E : JSMap.t string GraphEdge) (root : ref)
    (k fuel : nat) (s s' : BFS) :
  bfs fuel E k s = Ok s' -> only_distances_written root (heap s) (heap s').
Proof.
  revert s. induction fuel as [|fuel IH]; intros s; cbn [bfs];
    [discriminate|].
  destruct (queue s) as [|c rest].
  - intros [= <-]. apply only_distances_written_refl.
  - destruct (Distance_gtb (distance (cell (heap s) c)) k).
    + intros [= <-]. apply only_distances_written_refl.
    + intros Hrun. apply IH in Hrun.
      eapply only_distances_written_trans; [|exact Hrun].
      apply (visit_fold_only_distances E root c _
               {| heap := heap s; queue := rest;
                  subGraph := set_subGraph_node (subGraph s)
                                (id (cell (heap s) c)) (nodeCount s) c;
                  nodeCount := S (nodeCount s);
                  edgeCount := edgeCount s |}).
Qed.

(** X6.  A call of [generateSubGraph] that returns leaves every node
    object with its id, adjacent set, degree and attributes: it writes
    distances only, the seed's and those that were [Infinity]; a distance
    that was finite before the call (other than the seed's) is never
    rewritten.  The seed's distance is 0 afterwards. *)
Theorem generateSubGraph_writes_distances_only
    (h : Heap) (g : Graph) (start : option string) (numHops : option nat)
    (h' : Heap) (sub : Graph) :
  generateSubGraph h g start numHops = Ok (h', sub) ->
  exists key root,
    match start with Some s => Some s | None => defaultSeed h g end = Some key
    /\ JSMap.get (nodes g) key = Some root
    /\ only_distances_written root h h'
    /\ distance (cell h' root) = Hops 0.
Proof.
  intros Hok.
  destruct (generateSubGraph_Ok_seed _ _ _ _ _ Hok)
    as (key & root & Hstart & Hget).
  exists key, root. split; [assumption|]. split; [assumption|].
  unfold generateSubGraph in Hok.
  rewrite Hstart, resetDistance_unchanged in Hok. cbn [bind] in Hok.
  rewrite Hget in Hok.
  destruct (bfs _ _ _ _) as [s| |] eqn:Hrun; cbn [bind] in Hok;
    try discriminate.
  injection Hok as <- _.
  pose proof (bfs_only_distances _ root _ _ _ _ Hrun) as Hw.
  cbn [heap] in Hw. split.
  - eapply only_distances_written_trans; [|exact Hw].
    apply only_distances_written_set. now left.
  - (* finite labels persist through the loop, whatever node is excluded *)
    pose proof (bfs_only_distances _ (S root) _ _ _ _ Hrun) as [_ Hw'].
    destruct (Hw' root) as (_ & _ & _ & _ & Hd). cbn [heap] in Hd.
    rewrite Hd.
    + apply lab_set_distance_same.
    + lia.
    + change (lab (set_distance h root (Hops 0)) root <> Infinity).
      rewrite lab_set_distance_same. discriminate.
Qed.

Lemma generateSubGraph_writes_distances_only_witness :
  exists h' sub,
    generateSubGraph exHeap exGraph (Some "B"%string) (Some 1) = Ok (h', sub)
    /\ distance (cell h' 1) = Hops 0
    /\ adjacentSet (cell h' 0) = adjacentSet (cell exHeap 0).
Proof.
  destruct (generateSubGraph_run exHeap exGraph (Some "B"%string) (Some 1)
              "B"%string 1 exHeap_closed eq_refl eq_refl
              (le_n_S 1 2 (le_S 1 1 (le_n 1))))
    as (sd & _ & _ & _ & _ & Hrun).
  eexists _, _. split; [exact Hrun|].
  destruct (generateSubGraph_writes_distances_only _ _ _ _ _ _ Hrun)
    as (key & root & Hk & Hget & [_ Hw] & Hd).
  injection Hk as <-. injection Hget as <-.
  split; [exact Hd|]. apply Hw.
Defined.

Section ExitLabels.
Variables (k : nat) (root : ref) (hI : Heap) (sd : BFS).
Hypothesis HN : InvN k root hI sd.
Hypothesis Hexit : loop_exit k sd.
Hypothesis HB : InvB root hI None sd.

(** The label of a node within [k] hops is at most the length of any
    path that reaches it. *)
Lemma exit_label_le_path (m : nat) (r : ref) :
  hop_path hI root m r -> m <= k ->
  In r (vis sd) /\ hops (heap sd) r <= m.
Proof.
  intros Hp. induction Hp as [|m u w Hp IH Hw]; intros Hm.
  - split.
    + apply (exit_root_visited k root hI sd HN Hexit).
    + now rewrite (hops_of_lab _ _ _ (inv_root HN)).
  - destruct IH as [Hu Hule]; [lia|].
    destruct (b_closed HB u w Hu Hw) as [Hwf Hwle].
    split; [|lia].
    apply (exit_labelled_visited k root hI sd HN Hexit HB); [assumption|lia].
Qed.

(** The label of a dequeued node is its shortest hop distance. *)
Lemma exit_label_shortest (r : ref) :
  In r (vis sd) ->
  exists n,
    lab (heap sd) r = Hops n /\ n <= k /\ hop_path hI root n r
    /\ forall m, hop_path hI root m r -> n <= m.
Proof.
  intros Hr.
  assert (Hfin : lab (heap sd) r <> Infinity).
  { apply (inv_finite HN). apply in_app_iff. now left. }
  exists (hops (heap sd) r). split; [now apply lab_finite|].
  pose proof (inv_bound HN r Hr) as Hle. split; [assumption|].
  split; [apply (b_path HB); now apply lab_finite|].
  intros m Hp. destruct (Nat.le_gt_cases m k) as [Hmk|Hmk]; [|lia].
  now apply exit_label_le_path.
Qed.
End ExitLabels.

(** X7.  On a store whose distances are all [Infinity], the distance that
    [generateSubGraph] leaves in every node of the sub-graph is the
    shortest hop distance from the seed: a path of that length exists, no
    shorter one does, and it is at most [numHops].  Every finite distance
    left in the store is the length of a path from the seed. *)
Theorem generateSubGraph_labels_shortest_distance
    (h : Heap) (g : Graph) (seed : string) (root : ref) (k : nat) :
  distances_fresh h -> heap_closed h ->
  JSMap.get (nodes g) seed = Some root -> root < size h ->
  exists h' sub,
    generateSubGraph h g (Some seed) (Some k) = Ok (h', sub)
    /\ (forall r, In r (JSMap.values (nodeMap sub)) ->
          exists n,
            distance (cell h' r) = Hops n /\ n <= k
            /\ hop_path h root n r
            /\ forall m, hop_path h root m r -> n <= m)
    /\ (forall r n, distance (cell h' r) = Hops n -> hop_path h root n r).
Proof.
  intros Hfresh Hclosed Hget Hroot.
  destruct (generateSubGraph_run h g (Some seed) (Some k) seed root
              Hclosed eq_refl Hget Hroot)
    as (sd & HN & HE & HB & Hexit & Hrun).
  specialize (HB Hfresh).
  assert (Hadj : forall r, adjacentSet (cell h r)
                           = adjacentSet (cell (set_distance h root (Hops 0)) r)).
  { intros r. now rewrite adjacentSet_set_distance. }
  eexists _, _. split; [exact Hrun|].
  cbn [set_subGraph_counts nodeMap]. split.
  - intros r Hr.
    destruct (exit_label_shortest k root _ sd HN Hexit HB r Hr)
      as (n & Hl & Hn & Hp & Hmin).
    exists n. split; [exact Hl|]. split; [exact Hn|]. split.
    + eapply hop_path_same_adjacency; [|exact Hp]. exact Hadj.
    + intros m Hm. apply Hmin.
      eapply hop_path_same_adjacency; [|exact Hm].
      intros x. symmetry. apply Hadj.
  - intros r n Hl.
    eapply hop_path_same_adjacency; [|apply (b_path HB); exact Hl].
    exact Hadj.
Qed.

Lemma generateSubGraph_labels_shortest_distance_witness :
  exists h' sub,
    generateSubGraph exHeap exGraph (Some "B"%string) (Some 2) = Ok (h', sub)
    /\ (forall r, In r (JSMap.values (nodeMap sub)) ->
          exists n,
            distance (cell h' r) = Hops n /\ n <= 2
            /\ hop_path exHeap 1 n r
            /\ forall m, hop_path exHeap 1 m r -> n <= m)
    /\ (forall r n, distance (cell h' r) = Hops n -> hop_path exHeap 1 n r).
Proof.
  apply (generateSubGraph_labels_shortest_distance exHeap exGraph
           "B"%string 1 2).
  - exact exHeap_fresh.
  - exact exHeap_closed.
  - reflexivity.
  - cbn. lia.
Defined.

Lemma within_hops_succ (h : Heap) (s : ref) (k : nat) (v : ref) :
  within_hops h s k v -> within_hops h s (S k) v.
Proof. intros (n & Hn & Hp). exists n. split; [lia|assumption]. Qed.

Lemma NoDup_entries {K V : Type} (m : JSMap.t K V) :
  NoDup (JSMap.keys m) -> NoDup m.
Proof. unfold JSMap.keys. apply NoDup_map_inv. Qed.

(** X8.  On a store whose distances are all [Infinity], the sub-graph for
    [numHops = k + 1] contains the sub-graph for [numHops = k]: every node
    and every edge of the smaller one is in the larger one, and the node
    and edge counts do not decrease. *)
Theorem generateSubGraph_grows_with_numHops
    (h : Heap) (g : Graph) (seed : string) (root : ref) (k : nat) :
  distances_fresh h -> heap_closed h -> ids_injective h ->
  edges_keyed_by_id (edges g) ->
  JSMap.get (nodes g) seed = Some root -> root < size h ->
  exists h1 sub1 h2 sub2,
    generateSubGraph h g (Some seed) (Some k) = Ok (h1, sub1)
    /\ generateSubGraph h g (Some seed) (Some (S k)) = Ok (h2, sub2)
    /\ (forall i r, In (i, r) (nodes sub1) -> In (i, r) (nodes sub2))
    /\ (forall i e, In (i, e) (edges sub1) -> In (i, e) (edges sub2))
    /\ numberOfNodes sub1 <= numberOfNodes sub2
    /\ numberOfEdges sub1 <= numberOfEdges sub2.
Proof.
  intros Hfresh Hclosed Hinj Hkeyed Hget Hroot.
  destruct (generateSubGraph_run h g (Some seed) (Some k) seed root
              Hclosed eq_refl Hget Hroot)
    as (s1 & HN1 & HE1 & HB1 & Hexit1 & Hrun1).
  destruct (generateSubGraph_run h g (Some seed) (Some (S k)) seed root
              Hclosed eq_refl Hget Hroot)
    as (s2 & HN2 & HE2 & HB2 & Hexit2 & Hrun2).
  specialize (HB1 Hfresh). specialize (HB2 Hfresh).
  pose proof (ids_injective_set_distance h root (Hops 0) Hinj) as HinjI.
  assert (Hvis : forall r, In r (vis s1) -> In r (vis s2)).
  { intros r Hr.
    apply (exit_visited_iff (S k) root _ s2 HN2 Hexit2 HB2).
    apply within_hops_succ.
    now apply (exit_visited_iff k root _ s1 HN1 Hexit1 HB1). }
  assert (Hnodes : forall i r, In (i, r) (nodes (subGraph s1)) ->
                               In (i, r) (nodes (subGraph s2))).
  { intros i r. rewrite (inv_nodes HN1), (inv_nodes HN2).
    rewrite !register_nodes_distinct
      by (eapply exit_ids_distinct; eassumption).
    rewrite !(in_combine_map (fun r => id (cell _ r))).
    intros [Hi Hr]. auto. }
  assert (Hedges : forall i e, In (i, e) (edges (subGraph s1)) ->
                               In (i, e) (edges (subGraph s2))).
  { intros i e Hin.
    destruct (inv_edges_sound HE1 i e Hin) as (Hi & x & w & Hx & Hw & Hf).
    assert (He2 : In e (JSMap.values (edges (subGraph s2)))).
    { apply (exit_edges_iff _ _ s2 HE2 Hkeyed). exists x, w. auto. }
    unfold JSMap.values in He2. apply in_map_iff in He2.
    destruct He2 as ([i' e'] & Heq & Hin'). cbn [snd] in Heq. subst e'.
    destruct (inv_edges_sound HE2 i' e Hin') as (Hi' & _).
    congruence. }
  eexists _, _, _, _. split; [exact Hrun1|]. split; [exact Hrun2|].
  cbn [set_subGraph_counts nodes edges numberOfNodes numberOfEdges].
  split; [exact Hnodes|]. split; [exact Hedges|]. split.
  - rewrite (inv_nodeCount HN1), (inv_nodeCount HN2).
    apply NoDup_incl_length; [|exact Hvis].
    pose proof (inv_nodup HN1) as Hnd. now apply NoDup_app_remove_r in Hnd.
  - rewrite (exit_edge_count _ _ s1 HE1), (exit_edge_count _ _ s2 HE2).
    apply NoDup_incl_length.
    + apply NoDup_entries. rewrite (inv_edges_keys HE1).
      apply (inv_edgeKeys HE1).
    + intros [i e]. apply Hedges.
Qed.

Lemma generateSubGraph_grows_with_numHops_witness :
  exists h1 sub1 h2 sub2,
    generateSubGraph exHeap exGraph (Some "B"%string) (Some 1) = Ok (h1, sub1)
    /\ generateSubGraph exHeap exGraph (Some "B"%string) (Some 2)
       = Ok (h2, sub2)
    /\ (forall i r, In (i, r) (nodes sub1) -> In (i, r) (nodes sub2))
    /\ (forall i e, In (i, e) (edges sub1) -> In (i, e) (edges sub2))
    /\ numberOfNodes sub1 <= numberOfNodes sub2
    /\ numberOfEdges sub1 <= numberOfEdges sub2.
Proof.
  apply (generateSubGraph_grows_with_numHops exHeap exGraph "B"%string 1 1).
  - exact exHeap_fresh.
  - exact exHeap_closed.
  - exact exHeap_ids.
  - exact exGraph_keyed.
  - reflexivity.
  - cbn. lia.
Defined.

Lemma visit_edgeNodeIndex (E : JSMap.t string GraphEdge) (u : ref) (s : BFS)
    (item : ref) :
  edgeNodeIndex (subGraph (visit E u s item)) = edgeNodeIndex (subGraph s).
Proof.
  unfold visit, visit_edge.
  destruct (vis_visit_distance u s item) as (Hg & _).
  destruct (_getEdgeIDFromNodes E _ _) as [e|]; [|now rewrite Hg].
  destruct (negb _); cbn; now rewrite Hg.
Qed.

Lemma bfs_edgeNodeIndex (E : JSMap.t string GraphEdge) (k fuel : nat)
    (s s' : BFS) :
  bfs fuel E k s = Ok s' ->
  edgeNodeIndex (subGraph s') = edgeNodeIndex (subGraph s).
Proof.
  revert s. induction fuel as [|fuel IH]; intros s; cbn [bfs];
    [discriminate|].
  destruct (queue s) as [|c rest]; [now intros [= <-]|].
  destruct (Distance_gtb (distance (cell (heap s) c)) k);
    [now intros [= <-]|].
  intros Hrun. rewrite (IH _ Hrun).
  generalize (adjacentSet (cell (heap s) c)). intros items.
  set (s1 := {| heap := heap s; queue := rest;
                subGraph := set_subGraph_node (subGraph s)
                              (id (cell (heap s) c)) (nodeCount s) c;
                nodeCount := S (nodeCount s); edgeCount := edgeCount s |}).
  change (edgeNodeIndex (subGraph s))
    with (edgeNodeIndex (subGraph s1)).
  generalize s1. clear. induction items as [|item items IH]; intros s1;
    cbn [fold_left]; [reflexivity|].
  now rewrite IH, visit_edgeNodeIndex.
Qed.

Lemma push_edgeNodeIndex_fold (h : Heap) (sub : Graph) (es : list GraphEdge)
    (acc : list nat) :
  fold_left (push_edgeNodeIndex h sub) es acc
  = acc ++ edge_index_pairs h sub es.
Proof.
  revert acc. induction es as [|e es IH]; intros acc;
    cbn [fold_left edge_index_pairs flat_map].
  - now rewrite app_nil_r.
  - rewrite IH. unfold push_edgeNodeIndex.
    destruct (JSMap.get (nodeIndexMap sub) (id (cell h (node0 e))));
      [|reflexivity].
    destruct (JSMap.get (nodeIndexMap sub) (id (cell h (node1 e))));
      [|reflexivity].
    now rewrite <- app_assoc.
Qed.

Lemma index_nodes_get_lt (h : Heap) (l : list ref) (key : string) (i : nat) :
  JSMap.get (index_nodes h l) key = Some i -> i < List.length l.
Proof.
  revert i. induction l as [|x l IH] using rev_ind; intros i.
  - discriminate.
  - unfold index_nodes. rewrite combine_seq_snoc, fold_left_app.
    cbn [fold_left fst snd]. fold (index_nodes h l).
    rewrite length_app. cbn [List.length].
    destruct (String.eqb_spec key (id (cell h x))) as [->|Hne].
    + rewrite get_set_same. intros [= <-]. lia.
    + rewrite get_set_other by assumption. intros Hg.
      apply IH in Hg. lia.
Qed.

Lemma edge_index_pairs_shape (h : Heap) (sub : Graph) (es : list GraphEdge)
    (n : nat) :
  (forall key i, JSMap.get (nodeIndexMap sub) key = Some i -> i < n) ->
  Forall (fun i => i < n) (edge_index_pairs h sub es)
  /\ exists m, List.length (edge_index_pairs h sub es) = 2 * m
               /\ m <= List.length es.
Proof.
  intros Hlt. induction es as [|e es [IH1 (m & IH2 & IH3)]];
    cbn [edge_index_pairs flat_map].
  - split; [constructor|]. exists 0. auto.
  - fold (edge_index_pairs h sub es).
    destruct (JSMap.get (nodeIndexMap sub) (id (cell h (node0 e))))
      as [a|] eqn:Ea;
      [destruct (JSMap.get (nodeIndexMap sub) (id (cell h (node1 e))))
         as [b|] eqn:Eb|].
    + split.
      * cbn [app]. repeat constructor; eauto.
      * exists (S m). cbn [app List.length]. split; lia.
    + split; [assumption|]. exists m. cbn [app List.length]. split; lia.
    + split; [assumption|]. exists m. cbn [app List.length]. split; lia.
Qed.

(** The loop of a call whose seed is allocated, with the state in which
    it is left. *)
Lemma bfs_from_start_runs (E : JSMap.t string GraphEdge) (k : nat)
    (h : Heap) (root : ref) :
  heap_closed h -> root < size h ->
  exists sd s',
    bfs (S (size h)) E k (bfs_start h root) = Ok s'
    /\ InvN k root (set_distance h root (Hops 0)) sd
    /\ InvE E (set_distance h root (Hops 0)) None sd
    /\ heap s' = heap sd /\ subGraph s' = subGraph sd
    /\ nodeCount s' = nodeCount sd /\ edgeCount s' = edgeCount sd.
Proof.
  intros Hclosed Hroot.
  destruct (bfs_runs E k root _ (heap_closed_start root h Hclosed)
              (S (size h)) (bfs_start h root)
              (bfs_start_InvN k root h Hroot)
              (bfs_start_InvE E root h))
    as (sd & s' & Hrun & HN & HE & _ & _ & Hh & Hg & Hn & He).
  { unfold measure, bfs_start. cbn [heap queue List.length].
    assert (infinite_count (set_distance h root (Hops 0)) < size h).
    { apply (infinite_count_lt (set_distance h root (Hops 0)) root).
      - assumption.
      - rewrite lab_set_distance_same. discriminate. }
    lia. }
  exists sd, s'. auto 10.
Qed.

(** X9.  The flat buffer [edgeNodeIndex] of a returned sub-graph holds,
    for the edges of the sub-graph in edge-index order, the two node
    indices of every edge whose endpoints both have an index, and nothing
    for the others: it has an even length, at most two entries per edge,
    and every entry is a valid node index (below the node count). *)
Theorem generateSubGraph_edgeNodeIndex_in_range
    (h : Heap) (g : Graph) (start : option string) (numHops : option nat)
    (h' : Heap) (sub : Graph) :
  heap_closed h -> nodes_allocated h g ->
  generateSubGraph h g start numHops = Ok (h', sub) ->
  edgeNodeIndex sub = edge_index_pairs h' sub (JSMap.values (edges sub))
  /\ Forall (fun i => i < numberOfNodes sub) (edgeNodeIndex sub)
  /\ exists m, List.length (edgeNodeIndex sub) = 2 * m
               /\ m <= numberOfEdges sub.
Proof.
  intros Hclosed Halloc Hok.
  destruct (generateSubGraph_Ok_seed _ _ _ _ _ Hok)
    as (key & root & Hstart & Hget).
  assert (Hroot : root < size h).
  { apply (Halloc key). now apply get_in. }
  destruct (bfs_from_start_runs (edges g)
              (match numHops with Some k => k | None => 3 end) h root
              Hclosed Hroot)
    as (sd & s & Hbfs & HN & HE & Hh & Hg & Hn & He).
  unfold generateSubGraph in Hok.
  rewrite Hstart, resetDistance_unchanged in Hok. cbn [bind] in Hok.
  rewrite Hget in Hok. fold (bfs_start h root) in Hok.
  rewrite Hbfs in Hok. cbn [bind] in Hok. injection Hok as <- <-.
  pose proof (bfs_edgeNodeIndex _ _ _ _ _ Hbfs) as Hnil. cbn in Hnil.
  cbn [set_subGraph_counts edgeNodeIndex edges numberOfNodes numberOfEdges
       nodeIndexMap].
  rewrite push_edgeNodeIndex_fold, Hnil. cbn [app].
  split; [reflexivity|].
  destruct (edge_index_pairs_shape (heap s) (subGraph s)
              (JSMap.values (edges (subGraph s))) (nodeCount s))
    as [Hall (m & Hm & Hle)].
  { intros k0 i. rewrite Hg, Hn, (inv_nodeIndexMap HN), (inv_nodeCount HN).
    apply index_nodes_get_lt. }
  split; [exact Hall|]. exists m. split; [exact Hm|].
  rewrite He, (exit_edge_count _ _ sd HE), <- Hg.
  unfold JSMap.values in Hle. now rewrite length_map in Hle.
Qed.

Lemma generateSubGraph_edgeNodeIndex_in_range_witness :
  exists h' sub,
    generateSubGraph exHeap exGraph (Some "A"%string) (Some 1) = Ok (h', sub)
    /\ edgeNodeIndex sub
       = edge_index_pairs h' sub (JSMap.values (edges sub))
    /\ Forall (fun i => i < numberOfNodes sub) (edgeNodeIndex sub).
Proof.
  destruct (generateSubGraph_run exHeap exGraph (Some "A"%string) (Some 1)
              "A"%string 0 exHeap_closed eq_refl eq_refl (Nat.lt_0_succ 2))
    as (sd & _ & _ & _ & _ & Hrun).
  eexists _, _. split; [exact Hrun|].
  destruct (generateSubGraph_edgeNodeIndex_in_range exHeap exGraph _ _ _ _
              exHeap_closed exGraph_allocated Hrun) as (Hidx & Hall & _).
  split; [exact Hidx | exact Hall].
Defined.
(* ================================================================== *)
(** * Further properties: when a step returns *)

(** A loop whose iterations do not run out of fuel does not either. *)
Lemma foldM_fuel {S A : Type} (f : S -> A -> Result S) (l : list A) (s : S) :
  (forall s x, f s x <> OutOfFuel) -> foldM f l s <> OutOfFuel.
Proof.
  intros Hf. revert s. induction l as [|x l IH]; intros s; cbn [foldM].
  - discriminate.
  - destruct (f s x) as [s'| |] eqn:E; cbn [bind];
      [apply IH | discriminate | now apply Hf in E].
Qed.

(** A loop throws when one of its iterations throws in every state that
    the earlier iterations can leave. *)
Lemma foldM_throws {S A : Type} (f : S -> A -> Result S) (P : S -> Prop)
    (l : list A) (x : A) (s0 : S) :
  In x l -> P s0 ->
  (forall s y, f s y <> OutOfFuel) ->
  (forall s y s', P s -> f s y = Ok s' -> P s') ->
  (forall s, P s -> f s x = TypeError) ->
  foldM f l s0 = TypeError.
Proof.
  intros Hin H0 Hfuel Hkeep Hx. revert s0 H0.
  induction l as [|y l IH]; intros s0 H0; [destruct Hin|].
  cbn [foldM].
  destruct (f s0 y) as [s'| |] eqn:E; cbn [bind];
    [|reflexivity | now apply Hfuel in E].
  destruct Hin as [->|Hin].
  - rewrite (Hx s0 H0) in E. discriminate.
  - apply IH; [assumption|]. eapply Hkeep; eauto.
Qed.

Lemma L2_fuel (a b : option (Array num)) : Layout._L2 a b <> OutOfFuel.
Proof.
  unfold Layout._L2. destruct a as [a|]; [|discriminate].
  apply foldM_fuel. intros s x. destruct b; discriminate.
Qed.

Lemma xtod_k_fuel (N D : nat) (data : Array (Array num)) (i j : nat)
    (d : num) (dir : Float64Array) (k : nat) :
  Layout.xtod_k N D data i j d dir k <> OutOfFuel.
Proof.
  unfold Layout.xtod_k, Layout.row_get.
  destruct (Array_get data i); cbn [bind]; [|discriminate].
  destruct (Array_get data j); cbn [bind]; discriminate.
Qed.

Lemma xtod_fuel (this : Layout.t) (dist dir : Float64Array)
    (data : Array (Array num)) :
  Layout._xtod this dist dir data <> OutOfFuel.
Proof.
  unfold Layout._xtod. apply foldM_fuel. intros acc i.
  apply foldM_fuel. intros [dist1 dir1] j. unfold Layout.xtod_pair.
  destruct (Layout._L2 _ _) as [v| |] eqn:E; cbn [bind];
    [|discriminate | now apply L2_fuel in E].
  destruct (foldM _ _ dir1) as [dir2| |] eqn:E2; cbn [bind];
    try discriminate.
  exfalso. revert E2. apply foldM_fuel. intros s k. apply xtod_k_fuel.
Qed.

Lemma calculateAcceleration_fuel (this : Layout.t) :
  Layout._calculateAcceleration this <> OutOfFuel.
Proof.
  unfold Layout._calculateAcceleration, Layout._processNodeInteractions.
  destruct (Layout._xtod this _ _ _) as [dd| |] eqn:E; cbn [bind];
    [|discriminate | now apply xtod_fuel in E].
  destruct (fold_left _ _ _) as [ym acc]. cbn [bind]. discriminate.
Qed.

Lemma position_update_fuel (p : Array (Array num)) (i d : nat)
    (f : num -> num) :
  Layout.position_update p i d f <> OutOfFuel.
Proof. unfold Layout.position_update. destruct (Array_get p i); discriminate. Qed.

Lemma integrate_fuel (this : Layout.t)
    (acc : Array (Array num) * Float64Array) (i : nat) :
  Layout.integrate this acc i <> OutOfFuel.
Proof.
  unfold Layout.integrate. apply foldM_fuel. intros [p ym] d.
  destruct (Layout.position_update p i d _) as [q| |] eqn:E; cbn [bind];
    [|discriminate | now apply position_update_fuel in E].
  unfold Layout.position_get, Layout.row_get.
  destruct (Array_get q i); cbn [bind]; discriminate.
Qed.

Lemma recentre_fuel (this : Layout.t) (ym : Float64Array)
    (p : Array (Array num)) (i : nat) :
  Layout.recentre this ym p i <> OutOfFuel.
Proof.
  unfold Layout.recentre. apply foldM_fuel. intros q d.
  apply position_update_fuel.
Qed.

(** The first node loop keeps a missing row missing. *)
Lemma integrate_keeps_hole (this : Layout.t) (i y : nat)
    (p : Array (Array num)) (ym : Float64Array)
    (p' : Array (Array num)) (ym' : Float64Array) :
  Array_get p i = None ->
  Layout.integrate this (p, ym) y = Ok (p', ym') ->
  Array_get p' i = None.
Proof.
  unfold Layout.integrate. generalize (seq 0 (Layout.dof this)).
  intros ds. revert p ym. induction ds as [|d ds IH]; intros p ym Hp;
    cbn [foldM].
  - now intros [= <- _].
  - unfold Layout.position_update at 1.
    destruct (Array_get p y) as [row|] eqn:Hy; cbn [bind]; [|discriminate].
    destruct (Layout.position_get _ y d) as [x| |]; cbn [bind];
      try discriminate.
    apply IH. rewrite Array_get_set.
    destruct (Nat.eqb_spec i y) as [->|Hne]; [congruence|assumption].
Qed.

(** The first node loop throws at a node without a position row. *)
Lemma integrate_hole_throws (this : Layout.t) (i : nat)
    (p : Array (Array num)) (ym : Float64Array) :
  0 < Layout.dof this -> Array_get p i = None ->
  Layout.integrate this (p, ym) i = TypeError.
Proof.
  intros HD Hp. unfold Layout.integrate.
  destruct (Layout.dof this) as [|D]; [lia|].
  cbn [seq foldM]. unfold Layout.position_update. now rewrite Hp.
Qed.

(** The first node loop runs when every node has a position row. *)
Lemma integrate_loop_runs (this : Layout.t) (p : Array (Array num))
    (ym : Float64Array) :
  rows_present (Layout.numberOfNodes this) p ->
  exists pm,
    foldM (Layout.integrate this) (seq 0 (Layout.numberOfNodes this)) (p, ym)
    = Ok pm
    /\ rows_present (Layout.numberOfNodes this) (fst pm).
Proof.
  intros Hrows.
  apply (foldM_invariant (Layout.integrate this)
           (fun _ pm => rows_present (Layout.numberOfNodes this) (fst pm)));
    [exact Hrows|].
  intros done i rest [p0 ym0] Hsplit Hr0. cbn [fst] in Hr0.
  destruct (seq_split_in _ _ _ _ _ Hsplit) as (_ & Hi & Hlt).
  unfold Layout.integrate.
  apply (foldM_invariant _
           (fun _ pm => rows_present (Layout.numberOfNodes this) (fst pm)));
    [exact Hr0|].
  intros done' d rest' [p1 ym1] _ Hr1. cbn [fst] in Hr1.
  destruct (position_update_entry p1 i d
              (fun x => num_add x
                          (f64_get (Layout.velocity this)
                             (i * Layout.dof this + d)))
              (Layout.numberOfNodes this) Hr1)
    as (p2 & -> & Hr2 & _); [lia|].
  cbn [bind]. rewrite (position_get_entry p2 i d _ Hr2) by lia.
  cbn [bind]. eauto.
Qed.

(** Either every node has a position row or some node has none. *)
Lemma rows_present_dec (N : nat) (p : Array (Array num)) :
  rows_present N p \/ exists i, i < N /\ Array_get p i = None.
Proof.
  induction N as [|N [IH|(i & Hi & Hnone)]].
  - left. intros i Hi. lia.
  - destruct (Array_get p N) as [row|] eqn:E.
    + left. intros i Hi. destruct (Nat.eq_dec i N) as [->|Hne]; [eauto|].
      apply IH. lia.
    + right. exists N. auto.
  - right. exists i. split; [lia|assumption].
Qed.

(** What a step does when every node has a position row. *)
Lemma step_returns (this : Layout.t) :
  rows_present (Layout.numberOfNodes this) (Layout.position this) ->
  exists this',
    Layout.step this = Ok this'
    /\ Layout.numberOfNodes this' = Layout.numberOfNodes this
    /\ Layout.dof this' = Layout.dof this
    /\ Layout.currentStep this' = S (Layout.currentStep this)
    /\ List.length (Layout.ymean this') = List.length (Layout.ymean this)
    /\ rows_present (Layout.numberOfNodes this') (Layout.position this').
Proof.
  intros Hrows.
  destruct (anneal_frame this) as (_ & Hap & _ & Hay & HaN & HaD & Hac).
  destruct (calculateAcceleration_runs (Layout.anneal this))
    as (this1 & Hrun & Hp1 & HN1 & HD1 & Hc1 & Hy1).
  { now rewrite HaN, Hap. }
  rewrite Hap in Hp1. rewrite HaN in HN1. rewrite HaD in HD1.
  rewrite Hac in Hc1. rewrite Hay in Hy1.
  destruct (integrate_loop_runs this1 (Layout.position this1)
              (fold_left (fun ym d => f64_set ym d (Fin 0))
                 (seq 0 (Layout.dof this1)) (Layout.ymean this1)))
    as ([p2 ym2] & Hint & Hr2).
  { now rewrite HN1, Hp1. }
  cbn [fst] in Hr2.
  destruct (recentre_all this1 ym2 p2 Hr2) as (p3 & Hrec & Hr3 & _).
  eexists. split.
  { unfold Layout.step. rewrite Hrun. cbn [bind]. rewrite Hint.
    cbn [bind fst snd]. rewrite Hrec. cbn [bind]. reflexivity. }
  cbn [Layout.with_currentStep Layout.with_position Layout.numberOfNodes
       Layout.dof Layout.currentStep Layout.ymean Layout.position].
  split; [assumption|]. split; [assumption|].
  split; [now rewrite Hc1|]. split; [|assumption].
  rewrite (integrate_loop_length _ _ _ _ _ _ Hint).
  rewrite fold_left_length_preserved by (intros; apply f64_set_length).
  exact Hy1.
Qed.

(** What a step does when some node has no position row. *)
Lemma step_throws (this : Layout.t) (i : nat) :
  0 < Layout.dof this -> i < Layout.numberOfNodes this ->
  Array_get (Layout.position this) i = None ->
  Layout.step this = TypeError.
Proof.
  intros HD Hi Hnone. unfold Layout.step.
  destruct (anneal_frame this) as (_ & Hap & _ & _ & HaN & HaD & _).
  destruct (Layout._calculateAcceleration (Layout.anneal this))
    as [this1| |] eqn:E; cbn [bind];
    [|reflexivity | now apply calculateAcceleration_fuel in E].
  destruct (calculateAcceleration_frame _ _ E) as (_ & Hp & HN & HD1 & _).
  rewrite Hap in Hp. rewrite HaN in HN. rewrite HaD in HD1.
  rewrite (foldM_throws (Layout.integrate this1)
             (fun pm => Array_get (fst pm) i = None)
             (seq 0 (Layout.numberOfNodes this1)) i).
  - reflexivity.
  - apply in_seq. lia.
  - cbn [fst]. now rewrite Hp.
  - intros s y. apply integrate_fuel.
  - intros [p ym] y [p' ym'] Hs Hok. cbn [fst] in *.
    eapply integrate_keeps_hole; eauto.
  - intros [p ym] Hs. cbn [fst] in Hs.
    apply integrate_hole_throws; [lia|assumption].
Qed.

(** X10.  With at least one axis, step() returns exactly when every node
    has a position row: then the node count and the number of axes are
    kept, the step counter is advanced by one and every node still has a
    row.  Otherwise it throws a TypeError. *)
Theorem step_returns_iff_rows_present (this : Layout.t) :
  0 < Layout.dof this ->
  match Layout.step this with
  | Ok this' =>
      rows_present (Layout.numberOfNodes this) (Layout.position this)
      /\ rows_present (Layout.numberOfNodes this') (Layout.position this')
      /\ Layout.numberOfNodes this' = Layout.numberOfNodes this
      /\ Layout.dof this' = Layout.dof this
      /\ Layout.currentStep this' = S (Layout.currentStep this)
  | TypeError =>
      exists i, i < Layout.numberOfNodes this
                /\ Array_get (Layout.position this) i = None
  | OutOfFuel => False
  end.
Proof.
  intros HD.
  destruct (rows_present_dec (Layout.numberOfNodes this)
              (Layout.position this)) as [Hrows|(i & Hi & Hnone)].
  - destruct (step_returns this Hrows)
      as (this' & -> & HN & HD' & Hc & _ & Hr). auto.
  - rewrite (step_throws this i HD Hi Hnone). eauto.
Qed.

Lemma step_returns_iff_rows_present_witness :
  match Layout.step exHole with
  | Ok this' =>
      rows_present (Layout.numberOfNodes exHole) (Layout.position exHole)
      /\ rows_present (Layout.numberOfNodes this') (Layout.position this')
      /\ Layout.numberOfNodes this' = Layout.numberOfNodes exHole
      /\ Layout.dof this' = Layout.dof exHole
      /\ Layout.currentStep this' = S (Layout.currentStep exHole)
  | TypeError =>
      exists i, i < Layout.numberOfNodes exHole
                /\ Array_get (Layout.position exHole) i = None
  | OutOfFuel => False
  end.
Proof.
  apply (step_returns_iff_rows_present exHole). cbn. lia.
Defined.

(** Any number of steps runs when every node has a position row. *)
Lemma steps_run (n : nat) (this : Layout.t) :
  rows_present (Layout.numberOfNodes this) (Layout.position this) ->
  exists this',
    Layout.steps n this = Ok this'
    /\ Layout.numberOfNodes this' = Layout.numberOfNodes this
    /\ Layout.dof this' = Layout.dof this
    /\ Layout.currentStep this' = Layout.currentStep this + n
    /\ List.length (Layout.ymean this') = List.length (Layout.ymean this)
    /\ rows_present (Layout.numberOfNodes this') (Layout.position this').
Proof.
  revert this. induction n as [|n IH]; intros this Hrows; cbn [Layout.steps].
  - exists this. rewrite Nat.add_0_r. auto 10.
  - destruct (step_returns this Hrows)
      as (this1 & -> & HN & HD & Hc & Hy & Hr).
    cbn [bind]. destruct (IH this1 Hr) as (this' & -> & HN' & HD' & Hc' & Hy' & Hr').
    exists this'. split; [reflexivity|].
    split; [congruence|]. split; [congruence|]. split; [lia|].
    split; [congruence|assumption].
Qed.

(** X11.  Any number of calls of step() returns when every node has a
    position row: no call throws, the step counter advances by the number
    of calls, and the node count, the number of axes and the rows are
    kept. *)
Theorem steps_never_throw_on_present_rows (n : nat) (this : Layout.t) :
  rows_present (Layout.numberOfNodes this) (Layout.position this) ->
  exists this',
    Layout.steps n this = Ok this'
    /\ Layout.numberOfNodes this' = Layout.numberOfNodes this
    /\ Layout.dof this' = Layout.dof this
    /\ Layout.currentStep this' = Layout.currentStep this + n
    /\ rows_present (Layout.numberOfNodes this') (Layout.position this').
Proof.
  intros Hrows.
  destruct (steps_run n this Hrows) as (this' & H1 & H2 & H3 & H4 & _ & H5).
  eauto 10.
Qed.

Lemma steps_never_throw_on_present_rows_witness :
  exists this',
    Layout.steps 200 exSingle = Ok this'
    /\ Layout.numberOfNodes this' = 1
    /\ Layout.dof this' = 2
    /\ Layout.currentStep this' = 200
    /\ rows_present (Layout.numberOfNodes this') (Layout.position this').
Proof.
  exact (steps_never_throw_on_present_rows 200 exSingle
           (proj1 exSingle_finite)).
Defined.

(* ================================================================== *)
(** * Further properties: the constructor of the layout *)

Lemma Array_new_length {A : Type} (n : nat) :
  List.length (@Array_new A n) = n.
Proof. apply repeat_length. Qed.

Lemma Array_get_new {A : Type} (n i : nat) : Array_get (@Array_new A n) i = None.
Proof.
  unfold Array_get, Array_new.
  destruct (nth_error (repeat None n) i) as [v|] eqn:E; [|reflexivity].
  apply nth_error_In, repeat_spec in E. exact E.
Qed.

Lemma Array_set_length {A : Type} (a : Array A) (i : nat) (v : A) :
  i < List.length a -> List.length (Array_set a i v) = List.length a.
Proof.
  revert i. induction a as [|x a IH]; intros [|i] Hi; cbn in *; try lia.
  rewrite IH; lia.
Qed.

Lemma Forall_f64_set (P : num -> Prop) (a : Float64Array) (i : nat)
    (v : num) :
  Forall P a -> P v -> Forall P (f64_set a i v).
Proof.
  intros Ha Hv. revert i. induction Ha as [|x a Hx Ha IH]; intros [|i];
    cbn; auto.
Qed.

(** _initializeNodePosition draws one sample per axis and returns a row
    of finite coordinates: twice the sample, and four times the sample on
    the third axis. *)
Lemma initializeNodePosition_row (D : nat) (gauss : nat -> R) (c : nat) :
  exists row,
    Layout._initializeNodePosition D gauss c = (row, c + D)
    /\ List.length row = D
    /\ forall d, d < D ->
         exists x, Array_get row d = Some (Fin x)
                   /\ x = (if Nat.eqb d 2 then 4 * gauss (c + d)%nat
                           else 2 * gauss (c + d)%nat)%R.
Proof.
  unfold Layout._initializeNodePosition.
  set (body := fun (acc : Array num * nat) (i : nat) => _).
  assert (H : (fun done acc =>
                 List.length (fst acc) = D
                 /\ snd acc = c + List.length done
                 /\ forall d, d < List.length done ->
                      exists x, Array_get (fst acc) d = Some (Fin x)
                                /\ x = (if Nat.eqb d 2 then 4 * gauss (c + d)%nat
                                        else 2 * gauss (c + d)%nat)%R)
                (seq 0 D) (fold_left body (seq 0 D) (Array_new D, c))).
  { apply fold_left_invariant.
    - cbn [fst snd List.length]. rewrite Array_new_length.
      split; [reflexivity|]. split; [lia|]. intros d Hd. lia.
    - intros done i rest [ret k] Hsplit (Hl & Hk & Hd).
      cbn [fst snd] in Hl, Hk, Hd.
      destruct (seq_split_in _ _ _ _ _ Hsplit) as (_ & Hi & Hlt).
      cbn [Nat.add] in Hi, Hlt. subst k.
      rewrite length_app. cbn [List.length]. rewrite Nat.add_1_r.
      unfold body. cbn [Layout.randn Layout.gaussRandom num_add num_mul].
      assert (Hcase :
                forall d, d < S (List.length done) ->
                  exists x,
                    Array_get
                      (if Nat.eqb i 2
                       then Array_set
                              (Array_set ret i
                                 (Fin (0 + gauss (c + List.length done) * 2)))
                              i
                              (num_mul
                                 (ToNumber
                                    (Array_get
                                       (Array_set ret i
                                          (Fin (0 + gauss (c + List.length done)
                                                    * 2))) i))
                                 (Fin 2))
                       else Array_set ret i
                              (Fin (0 + gauss (c + List.length done) * 2))) d
                    = Some (Fin x)
                    /\ x = (if Nat.eqb d 2 then 4 * gauss (c + d)%nat
                            else 2 * gauss (c + d)%nat)%R).
      { intros d Hdlt. destruct (Nat.eq_dec d i) as [->|Hne].
        - rewrite <- Hi.
          destruct (Nat.eqb i 2).
          + rewrite !Array_get_set, Nat.eqb_refl. cbn [ToNumber num_mul].
            eexists. split; [reflexivity|]. lra.
          + rewrite Array_get_set, Nat.eqb_refl.
            eexists. split; [reflexivity|]. lra.
        - destruct (Hd d) as (x & Hx & Hval); [lia|].
          exists x. split; [|assumption].
          destruct (Nat.eqb i 2); rewrite !Array_get_set;
            rewrite (proj2 (Nat.eqb_neq d i) Hne); assumption. }
      cbn [fst snd]. split; [|split; [lia|exact Hcase]].
      destruct (Nat.eqb i 2); rewrite !Array_set_length; try lia;
        rewrite ?Array_set_length; lia. }
  cbv beta in H. rewrite length_seq in H.
  destruct (fold_left body (seq 0 D) (Array_new D, c)) as [row k].
  cbn [fst snd] in H. destruct H as (Hl & -> & Hd).
  exists row. auto.
Qed.

Lemma initializeNodeMass_value (node : GraphNode) (index : nat) :
  Layout._initializeNodeMass node index = Fin (INR (degree node) / 10).
Proof.
  unfold Layout._initializeNodeMass.
  cbn [Layout.GraphNode_property String.eqb Ascii.eqb Bool.eqb
       strict_eq_string].
  apply num_div_Fin. lra.
Qed.

(** The loop of the constructor over [nodeMap]: every index of the map
    gets a row of finite coordinates, the size 0.3 and a tenth of the
    degree of a node stored under it as mass. *)
Lemma initializeNode_fold (h : Heap) (D : nat) (gauss : nat -> R) (N : nat)
    (l : list (nat * ref)) :
  (forall i, In i (map fst l) -> i < N) ->
  let res :=
    fold_left (Layout.initializeNode h D gauss) l
      (Array_new N, Array_new N, Array_new N, Array_new N, 0) in
  let position0 := fst (fst (fst (fst res))) in
  let size0 := snd (fst (fst res)) in
  let mass0 := snd (fst res) in
  List.length position0 = N
  /\ forall i, In i (map fst l) ->
       (exists row, Array_get position0 i = Some row /\ finite_row D row)
       /\ Array_get size0 i = Some (Fin (3 / 10))
       /\ exists r, In (i, r) l
                    /\ Array_get mass0 i
                       = Some (Fin (INR (degree (cell h r)) / 10)).
Proof.
  intros Hlt. cbv zeta.
  apply (fold_left_invariant (Layout.initializeNode h D gauss)
           (fun done res =>
              List.length (fst (fst (fst (fst res)))) = N
              /\ forall i, In i (map fst done) ->
                   (exists row,
                       Array_get (fst (fst (fst (fst res)))) i = Some row
                       /\ finite_row D row)
                   /\ Array_get (snd (fst (fst res))) i = Some (Fin (3 / 10))
                   /\ exists r, In (i, r) done
                                /\ Array_get (snd (fst res)) i
                                   = Some (Fin (INR (degree (cell h r)) / 10)))).
  - cbn [fst snd map]. rewrite Array_new_length.
    split; [reflexivity|]. intros i [].
  - intros done [index node] rest [[[[p c] s] m] k] Hsplit [Hl Hdone].
    cbn [fst snd] in Hl, Hdone.
    assert (Hidx : index < N).
    { apply Hlt. rewrite Hsplit, map_app, in_app_iff. right. now left. }
    unfold Layout.initializeNode.
    destruct (initializeNodePosition_row D gauss k) as (row & -> & Hrl & Hrow).
    cbn [fst snd]. split; [rewrite Array_set_length; lia|].
    intros i Hi. rewrite map_app, in_app_iff in Hi. cbn [map fst In] in Hi.
    rewrite !Array_get_set.
    destruct (Nat.eqb_spec i index) as [->|Hne].
    + split; [|split].
      * exists row. split; [reflexivity|]. split; [assumption|].
        intros d Hd. destruct (Hrow d Hd) as (x & -> & _). exact I.
      * reflexivity.
      * exists node. split; [apply in_app_iff; right; now left|].
        now rewrite initializeNodeMass_value.
    + destruct Hi as [Hi|[Hi|[]]]; [|congruence].
      destruct (Hdone i Hi) as (H1 & H2 & r & Hr & H3).
      split; [assumption|]. split; [assumption|].
      exists r. split; [apply in_app_iff; now left|assumption].
Qed.

Lemma Float64Array_new_length (n : nat) : List.length (Float64Array_new n) = n.
Proof. apply repeat_length. Qed.

Lemma Float64Array_new_finite (n : nat) : Forall is_finite (Float64Array_new n).
Proof.
  apply Forall_forall. intros x Hx. apply repeat_spec in Hx. now subst x.
Qed.

(** The velocity loop of the constructor. *)
Lemma constructor_velocity_loop (gauss : nat -> R) (l : list nat)
    (v : Float64Array) (k : nat) :
  Forall is_finite v ->
  let v' :=
    fst (fold_left
           (fun (acc : Float64Array * nat) (i : nat) =>
              let (v, consumed) := acc in
              let (x, consumed) := Layout.randn gauss (Fin 0) (Fin 1) consumed in
              (f64_set v i x, consumed)) l (v, k)) in
  List.length v' = List.length v /\ Forall is_finite v'.
Proof.
  intros Hv. cbv zeta.
  apply (fold_left_invariant _
           (fun _ (acc : Float64Array * nat) =>
              List.length (fst acc) = List.length v
              /\ Forall is_finite (fst acc))).
  - auto.
  - intros done i rest [v1 k1] _ [Hl Hf]. cbn [fst] in *.
    cbn [Layout.randn Layout.gaussRandom num_add num_mul fst].
    split; [now rewrite f64_set_length|].
    apply Forall_f64_set; [assumption|exact I].
Qed.

(** The layout that the constructor builds for a graph whose [nodeMap]
    is dense. *)
Lemma constructor_dense (h : Heap) (gauss : nat -> R) (id0 : string)
    (graph0 : Graph) (dof0 : nat) :
  dense_nodeMap graph0 ->
  let this := Layout.constructor h gauss id0 graph0 dof0 in
  let N := numberOfNodes graph0 in
  Layout.numberOfNodes this = N /\ Layout.dof this = dof0
  /\ Layout.currentStep this = 0 /\ Layout.dt this = Fin 10
  /\ List.length (Layout.position this) = N
  /\ (forall i, i < N ->
        (exists row, Array_get (Layout.position this) i = Some row
                     /\ finite_row dof0 row)
        /\ Array_get (Layout.size this) i = Some (Fin (3 / 10))
        /\ exists r, In (i, r) (nodeMap graph0)
                     /\ Array_get (Layout.mass this) i
                        = Some (Fin (INR (degree (cell h r)) / 10)))
  /\ List.length (Layout.distance this) = N * N
  /\ List.length (Layout.direction this) = N * N * dof0
  /\ List.length (Layout.acceleration this) = N * dof0
  /\ List.length (Layout.velocity this) = N * dof0
  /\ List.length (Layout.ymean this) = dof0
  /\ Forall is_finite (Layout.velocity this).
Proof.
  intros Hdense. cbv zeta.
  pose proof (initializeNode_fold h dof0 gauss (numberOfNodes graph0)
                (nodeMap graph0)) as Hfold.
  cbv zeta in Hfold.
  unfold Layout.constructor, Layout.graph_numberOfNodes.
  destruct (fold_left (Layout.initializeNode h dof0 gauss) (nodeMap graph0) _)
    as [[[[p c] s] m] k].
  cbn [fst snd] in Hfold.
  destruct Hfold as [Hl Hrows].
  { intros i Hi. change (map fst (nodeMap graph0))
      with (JSMap.keys (nodeMap graph0)) in Hi.
    rewrite Hdense in Hi. apply in_seq in Hi. lia. }
  destruct (constructor_velocity_loop gauss
              (seq 0 (List.length
                        (Float64Array_new (numberOfNodes graph0 * dof0))
                      * dof0))
              (Float64Array_new (numberOfNodes graph0 * dof0)) k
              (Float64Array_new_finite _)) as [Hvl Hvf].
  cbn [Layout.numberOfNodes Layout.dof Layout.currentStep Layout.dt
       Layout.position Layout.size Layout.mass Layout.distance
       Layout.direction Layout.acceleration Layout.velocity Layout.ymean].
  rewrite !Float64Array_new_length in *.
  repeat match goal with |- _ /\ _ => split end; auto.
  intros i Hi. apply Hrows.
  change (map fst (nodeMap graph0)) with (JSMap.keys (nodeMap graph0)).
  rewrite Hdense. apply in_seq. lia.
Qed.

(** X12.  For a graph whose [nodeMap] has the keys 0 .. numberOfNodes - 1
    the constructor gives every node a position row of [dof] finite
    coordinates, the size 0.3 and a tenth of its degree as mass; the
    buffers have the lengths N*N, N*N*dof, N*dof, N*dof and dof, the
    velocities are finite, and the counter starts at 0 with dt = 10. *)
Theorem constructor_initialises_every_node (h : Heap) (gauss : nat -> R)
    (id0 : string) (graph0 : Graph) (dof0 : nat) :
  dense_nodeMap graph0 ->
  let this := Layout.constructor h gauss id0 graph0 dof0 in
  let N := numberOfNodes graph0 in
  Layout.numberOfNodes this = N /\ Layout.dof this = dof0
  /\ Layout.currentStep this = 0 /\ Layout.dt this = Fin 10
  /\ List.length (Layout.position this) = N
  /\ finite_positions N dof0 (Layout.position this)
  /\ (forall i, i < N ->
        Array_get (Layout.size this) i = Some (Fin (3 / 10))
        /\ exists r, In (i, r) (nodeMap graph0)
                     /\ Array_get (Layout.mass this) i
                        = Some (Fin (INR (degree (cell h r)) / 10)))
  /\ List.length (Layout.distance this) = N * N
  /\ List.length (Layout.direction this) = N * N * dof0
  /\ List.length (Layout.acceleration this) = N * dof0
  /\ List.length (Layout.velocity this) = N * dof0
  /\ List.length (Layout.ymean this) = dof0
  /\ Forall is_finite (Layout.velocity this).
Proof.
  intros Hdense. cbv zeta.
  destruct (constructor_dense h gauss id0 graph0 dof0 Hdense)
    as (H1 & H2 & H3 & H4 & H5 & H6 & H7 & H8 & H9 & H10 & H11 & H12).
  repeat match goal with |- _ /\ _ => split end; auto.
  - split.
    + intros i Hi. destruct (H6 i Hi) as ((row & Hrow & _) & _). eauto.
    + intros i d Hi Hd. destruct (H6 i Hi) as ((row & Hrow & _ & Hfin) & _).
      unfold entry. rewrite Hrow. now apply Hfin.
  - intros i Hi. destruct (H6 i Hi) as (_ & Hs & Hm). auto.
Qed.

Lemma constructor_initialises_every_node_witness :
  let this := Layout.constructor exHeap (fun _ => 0%R) "layout" exSub 3 in
  Layout.numberOfNodes this = 2 /\ Layout.dof this = 3
  /\ Layout.currentStep this = 0 /\ Layout.dt this = Fin 10
  /\ List.length (Layout.position this) = 2
  /\ finite_positions 2 3 (Layout.position this)
  /\ (forall i, i < 2 ->
        Array_get (Layout.size this) i = Some (Fin (3 / 10))
        /\ exists r, In (i, r) (nodeMap exSub)
                     /\ Array_get (Layout.mass this) i
                        = Some (Fin (INR (degree (cell exHeap r)) / 10)))
  /\ List.length (Layout.distance this) = 2 * 2
  /\ List.length (Layout.direction this) = 2 * 2 * 3
  /\ List.length (Layout.acceleration this) = 2 * 3
  /\ List.length (Layout.velocity this) = 2 * 3
  /\ List.length (Layout.ymean this) = 3
  /\ Forall is_finite (Layout.velocity this).
Proof.
  exact (constructor_initialises_every_node exHeap (fun _ => 0%R) "layout"
           exSub 3 eq_refl).
Defined.

(* ================================================================== *)
(** * Further properties: a layout for a graph *)

(** The sub-graph that [generateSubGraph] returns has a dense [nodeMap]. *)
Lemma generateSubGraph_dense_nodeMap
    (h : Heap) (g : Graph) (start : option string) (numHops : option nat)
    (h' : Heap) (sub : Graph) :
  heap_closed h -> nodes_allocated h g ->
  generateSubGraph h g start numHops = Ok (h', sub) ->
  dense_nodeMap sub.
Proof.
  intros Hclosed Halloc Hok.
  destruct (generateSubGraph_Ok_seed _ _ _ _ _ Hok)
    as (key & root & Hstart & Hget).
  assert (Hroot : root < size h).
  { apply (Halloc key). now apply get_in. }
  destruct (generateSubGraph_run h g start numHops key root
              Hclosed Hstart Hget Hroot)
    as (sd & HN & _ & _ & _ & Hrun).
  rewrite Hrun in Hok. injection Hok as _ <-.
  unfold dense_nodeMap.
  cbn [set_subGraph_counts numberOfNodes nodeMap].
  rewrite (inv_nodeCount HN), (inv_nodeMap HN).
  unfold JSMap.keys. generalize 0.
  induction (vis sd) as [|r l IH]; intros a; cbn; [reflexivity|].
  now rewrite IH.
Qed.

(** X13.  A layout built for a sub-graph that [generateSubGraph] returned
    can take any number of steps: the sub-graph has a dense [nodeMap], so
    the constructor gives every node a position row and no call of
    step() throws. *)
Theorem layout_of_subGraph_steps
    (h : Heap) (g : Graph) (start : option string) (numHops : option nat)
    (h' : Heap) (sub : Graph) (gauss : nat -> R) (id0 : string)
    (dof0 n : nat) :
  heap_closed h -> nodes_allocated h g ->
  generateSubGraph h g start numHops = Ok (h', sub) ->
  dense_nodeMap sub
  /\ exists this',
       Layout.steps n (Layout.constructor h' gauss id0 sub dof0) = Ok this'
       /\ Layout.numberOfNodes this' = numberOfNodes sub
       /\ Layout.dof this' = dof0
       /\ Layout.currentStep this' = n
       /\ rows_present (numberOfNodes sub) (Layout.position this').
Proof.
  intros Hclosed Halloc Hok.
  pose proof (generateSubGraph_dense_nodeMap _ _ _ _ _ _ Hclosed Halloc Hok)
    as Hdense.
  split; [exact Hdense|].
  destruct (constructor_dense h' gauss id0 sub dof0 Hdense)
    as (HN & HD & Hc & _ & _ & Hrows & _).
  destruct (steps_run n (Layout.constructor h' gauss id0 sub dof0))
    as (this' & Hrun & HN' & HD' & Hc' & _ & Hr').
  { rewrite HN. intros i Hi. destruct (Hrows i Hi) as ((row & Hrow & _) & _).
    eauto. }
  exists this'. split; [exact Hrun|].
  split; [congruence|]. split; [congruence|]. split; [lia|].
  now rewrite <- HN, <- HN'.
Qed.

Lemma layout_of_subGraph_steps_witness :
  exists h' sub,
    generateSubGraph exHeap exGraph None None = Ok (h', sub)
    /\ exists this',
         Layout.steps 5 (Layout.constructor h' (fun _ => 0%R) "layout" sub 3)
         = Ok this'
         /\ Layout.currentStep this' = 5.
Proof.
  destruct (generateSubGraph_run exHeap exGraph None None "A"%string 0
              exHeap_closed eq_refl eq_refl (Nat.lt_0_succ 2))
    as (sd & _ & _ & _ & _ & Hrun).
  eexists _, _. split; [exact Hrun|].
  destruct (layout_of_subGraph_steps exHeap exGraph None None _ _
              (fun _ => 0%R) "layout"%string 3 5
              exHeap_closed exGraph_allocated Hrun)
    as (_ & this' & Hsteps & _ & _ & Hc & _).
  exists this'. split; [exact Hsteps | exact Hc].
Defined.

Lemma addEdge_fold_nodeMap (es : list GraphEdge) (g : Graph) :
  nodeMap (fold_left addEdge es g) = nodeMap g
  /\ numberOfNodes (fold_left addEdge es g) = numberOfNodes g.
Proof.
  revert g. induction es as [|e es IH]; intros g; cbn [fold_left]; [auto|].
  destruct (IH (addEdge g e)) as [-> ->].
  unfold addEdge. destruct (negb _); auto.
Qed.

(** X14.  A layout built directly for a graph that was filled by addNode
    and addEdge cannot step: these calls count the nodes but leave
    [nodeMap] empty, so the constructor creates no position row and the
    first step() throws a TypeError. *)
Theorem layout_of_parent_graph_cannot_step
    (h : Heap) (gauss : nat -> R) (id0 : string)
    (l : list ref) (es : list GraphEdge) (dof0 : nat) :
  l <> [] -> 0 < dof0 ->
  let g := fold_left addEdge es (fold_left (addNode h) l (Graph_new false)) in
  nodeMap g = JSMap.empty
  /\ 0 < numberOfNodes g
  /\ Layout.step (Layout.constructor h gauss id0 g dof0) = TypeError.
Proof.
  intros Hl HD. cbv zeta.
  destruct (addEdge_fold_nodeMap es (fold_left (addNode h) l (Graph_new false)))
    as [Hmap Hnum].
  destruct (addNode_fold_frame h l (Graph_new false)) as (_ & _ & Hm & _ & _).
  destruct (addNode_fold_invariant h l (Graph_new false) eq_refl (NoDup_nil _))
    as (Hn & _ & Hk).
  assert (Hpos : 0 < numberOfNodes (fold_left (addNode h) l (Graph_new false))).
  { destruct l as [|r l]; [congruence|].
    assert (Hin : In (id (cell h r))
                    (JSMap.keys (nodes (fold_left (addNode h) (r :: l)
                                          (Graph_new false))))).
    { apply Hk. right. now left. }
    rewrite Hn. unfold JSMap.keys in Hin.
    destruct (nodes (fold_left (addNode h) (r :: l) (Graph_new false)));
      [destruct Hin | cbn; lia]. }
  rewrite Hm in Hmap.
  change (nodeMap (Graph_new false)) with (@nil (nat * ref)) in Hmap.
  split; [exact Hmap|]. split; [lia|].
  apply (step_throws _ 0).
  - unfold Layout.constructor. rewrite Hmap. cbn [fold_left JSMap.empty].
    exact HD.
  - unfold Layout.constructor, Layout.graph_numberOfNodes. rewrite Hmap.
    cbn [fold_left JSMap.empty Layout.numberOfNodes]. lia.
  - unfold Layout.constructor. rewrite Hmap.
    cbn [fold_left JSMap.empty Layout.position]. apply Array_get_new.
Qed.

Lemma layout_of_parent_graph_cannot_step_witness :
  nodeMap exGraph = JSMap.empty
  /\ 0 < numberOfNodes exGraph
  /\ Layout.step (Layout.constructor exHeap (fun _ => 0%R) "layout" exGraph 3)
     = TypeError.
Proof.
  apply (layout_of_parent_graph_cannot_step exHeap (fun _ => 0%R) "layout"
           [0; 1; 2] [exEdge "A_B" 0 1; exEdge "A_C" 0 2] 3).
  - discriminate.
  - lia.
Defined.

(* ================================================================== *)
(** * Further properties: _L2 *)

Lemma foldM_pure {S A : Type} (g : S -> A -> S) (l : list A) (s : S) :
  foldM (fun s x => Ok (g s x)) l s = Ok (fold_left g l s).
Proof.
  revert s. induction l as [|x l IH]; intros s; cbn [foldM fold_left bind];
    auto.
Qed.

Lemma fold_left_NaN (g : nat -> num) (l : list nat) :
  fold_left (fun d i => num_add d (g i)) l NaN = NaN.
Proof. induction l as [|x l IH]; cbn [fold_left]; auto. Qed.

(** The squared difference of two entries. *)
Local Abbreviation sqdiff a b i :=
  (num_mul
     (num_sub (ToNumber (Array_get a i)) (ToNumber (Array_get b i)))
     (num_sub (ToNumber (Array_get a i)) (ToNumber (Array_get b i)))).

(** The value of _L2 on two rows. *)
Lemma L2_rows (a b : Array num) :
  Layout._L2 (Some a) (Some b)
  = Ok (fold_left (fun d i => num_add d (sqdiff a b i))
          (seq 0 (List.length a)) (Fin 0)).
Proof. unfold Layout._L2. apply foldM_pure. Qed.

Lemma num_square_never_negative (x : num) : never_negative (num_mul x x).
Proof.
  destruct x as [x| | |]; cbn [num_mul never_negative]; auto.
  apply Rle_0_sqr.
Qed.

Lemma num_add_never_negative (a b : num) :
  never_negative a -> never_negative b -> never_negative (num_add a b).
Proof.
  destruct a, b; cbn [num_add never_negative]; auto. intros. lra.
Qed.

Lemma num_square_sub_sym (x y : num) :
  num_mul (num_sub x y) (num_sub x y) = num_mul (num_sub y x) (num_sub y x).
Proof.
  destruct x as [x| | |], y as [y| | |]; try reflexivity.
  cbn [num_sub num_neg num_add num_mul]. f_equal. ring.
Qed.

Lemma fold_left_ext_in {S A : Type} (f g : S -> A -> S) (l : list A) (s : S) :
  (forall s x, In x l -> f s x = g s x) -> fold_left f l s = fold_left g l s.
Proof.
  revert s. induction l as [|x l IH]; intros s H; cbn [fold_left];
    [reflexivity|].
  rewrite H by now left. apply IH. intros s' y Hy. apply H. now right.
Qed.

(** X15.  _L2(a, b) adds the squared differences of the entries over the
    indices of [a] only.  It throws when [a] is undefined, and when [b]
    is undefined unless [a] is empty (then it returns 0).  On two arrays
    it always returns a number, which is never negative; it returns NaN
    as soon as an index of [a] has no entry in [a] or in [b] (for
    instance when [b] is shorter); it returns 0 when the entries of [b]
    are the same finite numbers as those of [a]; and for arrays of the
    same length the order of the arguments does not matter. *)
Theorem L2_sums_squares_over_first_argument :
  (forall b, Layout._L2 None b = TypeError)
  /\ (forall a, Layout._L2 (Some a) None
                = match a with [] => Ok (Fin 0) | _ => TypeError end)
  /\ (forall a b, exists v,
         Layout._L2 (Some a) (Some b) = Ok v /\ never_negative v)
  /\ (forall a b i,
         i < List.length a ->
         Array_get a i = None \/ Array_get b i = None ->
         Layout._L2 (Some a) (Some b) = Ok NaN)
  /\ (forall a b,
         (forall i, i < List.length a ->
                    exists x, Array_get a i = Some (Fin x)
                              /\ Array_get b i = Some (Fin x)) ->
         Layout._L2 (Some a) (Some b) = Ok (Fin 0))
  /\ (forall a b,
         List.length a = List.length b ->
         Layout._L2 (Some a) (Some b) = Layout._L2 (Some b) (Some a)).
Proof.
  split; [reflexivity|]. split; [intros [|x a]; reflexivity|].
  split; [|split; [|split]].
  - intros a b. rewrite L2_rows. eexists. split; [reflexivity|].
    apply (fold_left_invariant (fun d i => num_add d (sqdiff a b i))
             (fun _ d => never_negative d)).
    + cbn. lra.
    + intros done i rest d _ Hd.
      apply num_add_never_negative; [assumption|].
      apply num_square_never_negative.
  - intros a b i Hi Hnone. rewrite L2_rows. f_equal.
    replace (List.length a) with (i + S (List.length a - S i)) by lia.
    rewrite seq_app, fold_left_app. cbn [seq fold_left Nat.add].
    assert (Hterm : sqdiff a b i = NaN).
    { destruct Hnone as [-> | ->]; cbn [ToNumber].
      - now rewrite num_sub_NaN_l.
      - now rewrite num_sub_NaN_r, num_mul_NaN_l. }
    rewrite Hterm, num_add_NaN_r.
    apply (fold_left_NaN (fun i => sqdiff a b i)).
  - intros a b Hsame. rewrite L2_rows. f_equal.
    apply (fold_left_invariant (fun d i => num_add d (sqdiff a b i))
             (fun _ d => d = Fin 0)); [reflexivity|].
    intros done i rest d Hsplit ->.
    destruct (seq_split_in _ _ _ _ _ Hsplit) as (_ & Hi & Hlt).
    destruct (Hsame i) as (x & -> & ->); [lia|].
    cbn [ToNumber num_sub num_neg num_add num_mul]. f_equal. ring.
  - intros a b Hlen. rewrite !L2_rows, Hlen. f_equal.
    apply fold_left_ext_in. intros d i _. f_equal.
    apply num_square_sub_sym.
Qed.

(* ================================================================== *)
(** * Further properties: the time step *)

Lemma calculateAcceleration_dt (this this' : Layout.t) :
  Layout._calculateAcceleration this = Ok this' ->
  Layout.dt this' = Layout.dt this.
Proof.
  unfold Layout._calculateAcceleration.
  destruct (Layout._processNodeInteractions this) as [this1| |] eqn:E;
    cbn [bind]; try discriminate.
  destruct (processNodeInteractions_frame _ _ E)
    as (_ & _ & _ & _ & _ & Hdt & _).
  intros [= <-]. exact Hdt.
Qed.

(** A step that returns advances the counter by one and leaves the time
    step that [anneal] chose. *)
Lemma step_counter_dt (this this' : Layout.t) :
  Layout.step this = Ok this' ->
  Layout.currentStep this' = S (Layout.currentStep this)
  /\ Layout.dt this' = Layout.dt (Layout.anneal this).
Proof.
  unfold Layout.step.
  destruct (Layout._calculateAcceleration (Layout.anneal this))
    as [this1| |] eqn:E; cbn [bind]; try discriminate.
  destruct (foldM (Layout.integrate this1) _ _) as [pm| |]; cbn [bind];
    try discriminate.
  destruct (foldM (Layout.recentre this1 (snd pm)) _ _) as [p| |];
    cbn [bind]; try discriminate.
  intros [= <-]. cbn.
  destruct (calculateAcceleration_frame _ _ E) as (_ & _ & _ & _ & Hc).
  destruct (anneal_frame this) as (_ & _ & _ & _ & _ & _ & Hac).
  split; [congruence|]. now apply calculateAcceleration_dt.
Qed.

(** What [anneal] does to a positive time step. *)
Lemma anneal_dt (this : Layout.t) (x : R) :
  Layout.dt this = Fin x -> (0 < x)%R ->
  exists y,
    Layout.dt (Layout.anneal this) = Fin y
    /\ (x <= y)%R /\ (y <= Rmax x (50 * (1005 / 1000)))%R
    /\ (Layout.currentStep this <= 100 -> y = x).
Proof.
  intros Hdt Hx. unfold Layout.anneal.
  destruct (Nat.ltb_spec 100 (Layout.currentStep this)) as [Hc|Hc];
    cbn [andb].
  - rewrite Hdt. unfold num_ltb. cbn [num_gtb].
    destruct (Rlt_dec x 50) as [Hlt|Hge].
    + cbn [Layout.with_dt Layout.dt num_mul]. eexists.
      split; [reflexivity|]. split; [lra|]. split; [|lia].
      apply Rle_trans with (50 * (1005 / 1000))%R; [lra|apply Rmax_r].
    + exists x. rewrite Hdt. split; [reflexivity|]. split; [lra|].
      split; [apply Rmax_l|reflexivity].
  - exists x. split; [assumption|]. split; [lra|].
    split; [apply Rmax_l|reflexivity].
Qed.

(** X16.  Over any number of steps a positive time step never
    decreases and never exceeds the larger of its initial value and
    50 * 1.005; it is unchanged as long as the counter has not passed
    100 before a step, so the first 101 steps of a layout run with the
    constructor's dt. *)
Theorem steps_anneal_dt (n : nat) (this this' : Layout.t) (x : R) :
  Layout.steps n this = Ok this' ->
  Layout.dt this = Fin x -> (0 < x)%R ->
  exists y,
    Layout.dt this' = Fin y
    /\ (x <= y)%R /\ (y <= Rmax x (50 * (1005 / 1000)))%R
    /\ (Layout.currentStep this + n <= 101 -> y = x).
Proof.
  revert this x. induction n as [|n IH]; intros this x; cbn [Layout.steps].
  - intros [= <-] Hdt Hx. exists x. split; [assumption|].
    split; [lra|]. split; [apply Rmax_l|reflexivity].
  - destruct (Layout.step this) as [this1| |] eqn:E; cbn [bind];
      try discriminate.
    intros Hsteps Hdt Hx.
    destruct (step_counter_dt _ _ E) as [Hc Hdt1].
    destruct (anneal_dt this x Hdt Hx) as (y & Hy & Hxy & Hmax & Hsame).
    rewrite Hy in Hdt1.
    destruct (IH this1 y Hsteps Hdt1) as (z & Hz & Hyz & Hzmax & Hsame');
      [lra|].
    exists z. split; [assumption|]. split; [lra|]. split.
    + apply Rle_trans with (Rmax y (50 * (1005 / 1000)))%R; [assumption|].
      apply Rmax_lub; [assumption|apply Rmax_r].
    + intros Hle. rewrite Hsame' by lia. apply Hsame. lia.
Qed.

Lemma steps_anneal_dt_witness :
  exists this' y,
    Layout.steps 150 exSingle = Ok this'
    /\ Layout.dt this' = Fin y
    /\ (10 <= y)%R /\ (y <= Rmax 10 (50 * (1005 / 1000)))%R.
Proof.
  destruct (steps_run 150 exSingle (proj1 exSingle_finite))
    as (this' & Hsteps & _).
  destruct (steps_anneal_dt 150 exSingle this' 10 Hsteps eq_refl
              ltac:(lra)) as (y & Hy & Hle & Hmax & _).
  exists this', y. auto.
Defined.

(* ================================================================== *)
(** * Further properties: node colours *)

Lemma color_channels (a b c : R) :
  (0 <= a <= 255)%R -> (0 <= b <= 255)%R -> (0 <= c <= 255)%R ->
  exists r g b',
    map (fun x => num_div x (Fin 255)) [Fin a; Fin b; Fin c; Fin 255]
    = [Fin r; Fin g; Fin b'; Fin 1]
    /\ (0 <= r <= 1)%R /\ (0 <= g <= 1)%R /\ (0 <= b' <= 1)%R.
Proof.
  intros Ha Hb Hc. exists (a / 255)%R, (b / 255)%R, (c / 255)%R.
  cbn [map]. rewrite !num_div_Fin by lra.
  replace (255 / 255)%R with 1%R by lra.
  split; [reflexivity|]. lra.
Qed.

(** X17.  _initializeNodeColor returns four channels between 0 and 1
    with alpha 1, whatever the node; it reads [attributes.type] only, and
    a node without a type, or with a type that is not listed, is
    white. *)
Theorem initializeNodeColor_channels (node : GraphNode) (index : nat) :
  (exists r g b,
      Layout._initializeNodeColor node index = [Fin r; Fin g; Fin b; Fin 1]
      /\ (0 <= r <= 1)%R /\ (0 <= g <= 1)%R /\ (0 <= b <= 1)%R)
  /\ (forall node' index',
         type (attributes node') = type (attributes node) ->
         Layout._initializeNodeColor node' index'
         = Layout._initializeNodeColor node index)
  /\ (~ In (type (attributes node))
         [Some "driver"; Some "rider"; Some "user"; Some "device";
          Some "trip"]%string ->
      Layout._initializeNodeColor node index = [Fin 1; Fin 1; Fin 1; Fin 1]).
Proof.
  split; [|split].
  - unfold Layout._initializeNodeColor.
    destruct (type (attributes node)) as [s|];
      [|apply color_channels; lra].
    repeat match goal with
           | |- context [if String.eqb s ?lit then _ else _] =>
               destruct (String.eqb s lit)
           end; apply color_channels; lra.
  - intros node' index' Heq. unfold Layout._initializeNodeColor.
    now rewrite Heq.
  - intros Hnot. unfold Layout._initializeNodeColor.
    assert (Hwhite : map (fun x => num_div x (Fin 255))
                       [Fin 255; Fin 255; Fin 255; Fin 255]
                     = [Fin 1; Fin 1; Fin 1; Fin 1]).
    { cbn [map]. rewrite !num_div_Fin by lra.
      now replace (255 / 255)%R with 1%R by lra. }
    destruct (type (attributes node)) as [s|]; [|exact Hwhite].
    repeat match goal with
           | |- context [if String.eqb s ?lit then _ else _] =>
               destruct (String.eqb_spec s lit) as [->|?]
           end; try exact Hwhite; exfalso; apply Hnot; cbn [In]; tauto.
Qed.

(* ================================================================== *)
(** * Further properties: the tables of _xtod *)

Section XtodTable.
Variables (N D : nat) (data : Array (Array num)).
Hypothesis Hrows : rows_present N data.

Local Abbreviation idx i j k := (i * N * D + j * D + k).

(** The axis loop of the pair [a < b]: what it writes and what it
    leaves. *)
Lemma xtod_axes_values (a b : nat) (d : num) (dir : Float64Array) :
  a < b -> b < N -> List.length dir = N * N * D ->
  exists dir',
    foldM (Layout.xtod_k N D data a b d) (seq 0 D) dir = Ok dir'
    /\ List.length dir' = List.length dir
    /\ (forall k, k < D ->
          f64_get dir' (idx a b k)
          = num_div (num_sub (entry data a k) (entry data b k)) d
          /\ f64_get dir' (idx b a k) = num_neg (f64_get dir' (idx a b k)))
    /\ (forall p, (forall k, k < D -> p <> idx a b k /\ p <> idx b a k) ->
                  f64_get dir' p = f64_get dir p).
Proof.
  intros Hab Hb Hlen. assert (Ha : a < N) by lia.
  destruct (foldM_invariant (Layout.xtod_k N D data a b d)
              (fun done dir' =>
                 List.length dir' = List.length dir
                 /\ (forall k, In k done ->
                       f64_get dir' (idx a b k)
                       = num_div (num_sub (entry data a k) (entry data b k)) d
                       /\ f64_get dir' (idx b a k)
                          = num_neg (f64_get dir' (idx a b k)))
                 /\ (forall p,
                        (forall k, k < D -> p <> idx a b k /\ p <> idx b a k) ->
                        f64_get dir' p = f64_get dir p))
              (seq 0 D) dir) as (dir' & Hrun & Hl & Hval & Hframe).
  - split; [reflexivity|]. split; [intros k []|reflexivity].
  - intros done k rest dir1 Hsplit (Hl1 & Hval1 & Hframe1).
    destruct (seq_split_in _ _ _ _ _ Hsplit) as (Hd & Hk & Hlt).
    assert (HkD : k < D) by lia.
    destruct (xtod_k_run N D data Hrows a b d dir1 k Ha Hb)
      as (xi & xj & Hxi & Hxj & ->).
    change (Layout.row_get (Array_get data a) k)
      with (Layout.position_get data a k) in Hxi.
    change (Layout.row_get (Array_get data b) k)
      with (Layout.position_get data b k) in Hxj.
    rewrite (position_get_entry data a k N Hrows Ha) in Hxi.
    rewrite (position_get_entry data b k N Hrows Hb) in Hxj.
    injection Hxi as <-. injection Hxj as <-.
    assert (Hia : idx a b k < List.length dir1).
    { rewrite Hl1, Hlen. now apply direction_index_bound. }
    assert (Hib : idx b a k < List.length dir1).
    { rewrite Hl1, Hlen. now apply direction_index_bound. }
    assert (Hne : idx a b k <> idx b a k).
    { intros Heq. apply direction_index_inj in Heq; lia. }
    rewrite f64_get_set_same by assumption.
    eexists. split; [reflexivity|]. split; [now rewrite !f64_set_length|].
    split.
    + intros k' Hk'. apply in_app_iff in Hk'.
      destruct Hk' as [Hk'|[<-|[]]].
      * destruct (Hval1 k' Hk') as [H1 H2].
        assert (Hk'D : k' < D /\ k' <> k).
        { rewrite Hd in Hk'. apply in_seq in Hk'. lia. }
        rewrite !f64_get_set_other; auto;
          intros Heq; apply direction_index_inj in Heq; lia.
      * rewrite (f64_get_set_other _ _ _ (idx a b k)) by assumption.
        rewrite f64_get_set_same by assumption.
        split; [reflexivity|].
        apply f64_get_set_same. now rewrite f64_set_length.
    + intros p Hp. destruct (Hp k HkD) as [Hp1 Hp2].
      rewrite !f64_get_set_other by assumption. now apply Hframe1.
  - exists dir'. split; [exact Hrun|]. split; [exact Hl|].
    split; [|exact Hframe].
    intros k Hk. apply Hval. apply in_seq. lia.
Qed.

(** One pair [a < b]: its entries are written, every other entry is
    left. *)
Lemma xtod_pair_values (a b : nat) (dist dir : Float64Array) :
  a < b -> b < N ->
  List.length dist = N * N -> List.length dir = N * N * D ->
  exists dist' dir',
    Layout.xtod_pair N D data a (dist, dir) b = Ok (dist', dir')
    /\ List.length dist' = List.length dist
    /\ List.length dir' = List.length dir
    /\ pair_entries N D data dist' dir' a b
    /\ (forall p, p <> a * N + b -> p <> b * N + a ->
                  f64_get dist' p = f64_get dist p)
    /\ (forall p, (forall k, k < D -> p <> idx a b k /\ p <> idx b a k) ->
                  f64_get dir' p = f64_get dir p).
Proof.
  intros Hab Hb Hld Hlr. assert (Ha : a < N) by lia.
  unfold Layout.xtod_pair.
  destruct (L2_runs N data Hrows a b Ha Hb) as (v & Hv). rewrite Hv.
  cbn [bind].
  destruct (xtod_axes_values a b (num_sqrt v) dir Hab Hb Hlr)
    as (dir' & -> & Hl & Hval & Hframe).
  cbn [bind]. eexists _, dir'. split; [reflexivity|].
  assert (H1 : a * N + b < List.length dist).
  { rewrite Hld. assert (a * N + N <= N * N); [|lia].
    replace (a * N + N) with ((a + 1) * N) by lia.
    apply Nat.mul_le_mono_r. lia. }
  assert (H2 : b * N + a < List.length dist).
  { rewrite Hld. assert (b * N + N <= N * N); [|lia].
    replace (b * N + N) with ((b + 1) * N) by lia.
    apply Nat.mul_le_mono_r. lia. }
  assert (Hne : a * N + b <> b * N + a).
  { intros Heq. apply lex_inj in Heq; lia. }
  split; [now rewrite !f64_set_length|]. split; [assumption|].
  split; [|split; [|assumption]].
  - exists v. split; [assumption|].
    split; [|split; [|assumption]].
    + rewrite f64_get_set_other by assumption.
      now apply f64_get_set_same.
    + apply f64_get_set_same. now rewrite f64_set_length.
  - intros p Hp1 Hp2. now rewrite !f64_get_set_other by assumption.
Qed.

(** The entries of a pair survive the writes of another pair. *)
Lemma pair_entries_frame (i j a b : nat)
    (dist dir dist' dir' : Float64Array) :
  i < j -> j < N -> a < b -> b < N -> (i, j) <> (a, b) ->
  (forall p, p <> a * N + b -> p <> b * N + a ->
             f64_get dist' p = f64_get dist p) ->
  (forall p, (forall k, k < D -> p <> idx a b k /\ p <> idx b a k) ->
             f64_get dir' p = f64_get dir p) ->
  pair_entries N D data dist dir i j ->
  pair_entries N D data dist' dir' i j.
Proof.
  intros Hij Hj Hab Hb Hne Hfd Hfr (v & Hv & H1 & H2 & Hk).
  assert (Hidx : forall x y, x < N -> y < N -> (x, y) <> (a, b) ->
                   (x, y) <> (b, a) ->
                   forall k, k < D ->
                     f64_get dir' (idx x y k) = f64_get dir (idx x y k)).
  { intros x y Hx Hy Hn1 Hn2 k HkD. apply Hfr. intros k' Hk'.
    split; intros Heq; apply direction_index_inj in Heq; try lia;
      destruct Heq as (-> & -> & _); congruence. }
  assert (Hd : forall x y, x < N -> y < N -> (x, y) <> (a, b) ->
                 (x, y) <> (b, a) ->
                 f64_get dist' (x * N + y) = f64_get dist (x * N + y)).
  { intros x y Hx Hy Hn1 Hn2. apply Hfd; intros Heq;
      apply lex_inj in Heq; try lia; destruct Heq as [-> ->]; congruence. }
  assert (Hn2 : (i, j) <> (b, a)) by (intros [= -> ->]; lia).
  assert (Hn3 : (j, i) <> (a, b)) by (intros [= -> ->]; lia).
  assert (Hn4 : (j, i) <> (b, a)) by (intros [= -> ->]; congruence).
  exists v. split; [assumption|].
  rewrite !Hd by (assumption || lia).
  split; [assumption|]. split; [assumption|].
  intros k HkD. rewrite !Hidx by (assumption || lia). now apply Hk.
Qed.

(** The loop over [j] for one [a]. *)
Lemma xtod_row_values (a : nat) (dist dir : Float64Array)
    (P : nat -> nat -> Prop) :
  a < N -> List.length dist = N * N -> List.length dir = N * N * D ->
  (forall i j, P i j -> i <> a) ->
  (forall i j, i < j -> j < N -> P i j -> pair_entries N D data dist dir i j) ->
  exists dist' dir',
    foldM (Layout.xtod_pair N D data a) (seq (a + 1) (N - (a + 1)))
      (dist, dir) = Ok (dist', dir')
    /\ List.length dist' = N * N /\ List.length dir' = N * N * D
    /\ (forall i j, i < j -> j < N -> P i j \/ i = a ->
                    pair_entries N D data dist' dir' i j)
    /\ (forall i, i < N ->
          f64_get dist' (i * N + i) = f64_get dist (i * N + i)
          /\ forall k, k < D ->
               f64_get dir' (idx i i k) = f64_get dir (idx i i k)).
Proof.
  intros Ha Hld Hlr HP Hold.
  destruct (foldM_invariant (Layout.xtod_pair N D data a)
              (fun done (acc : Float64Array * Float64Array) =>
                 List.length (fst acc) = N * N
                 /\ List.length (snd acc) = N * N * D
                 /\ (forall i j, i < j -> j < N ->
                       P i j \/ (i = a /\ In j done) ->
                       pair_entries N D data (fst acc) (snd acc) i j)
                 /\ (forall i, i < N ->
                       f64_get (fst acc) (i * N + i) = f64_get dist (i * N + i)
                       /\ forall k, k < D ->
                            f64_get (snd acc) (idx i i k)
                            = f64_get dir (idx i i k)))
              (seq (a + 1) (N - (a + 1))) (dist, dir))
    as ([dist' dir'] & Hrun & Hl1 & Hl2 & Hpairs & Hdiag).
  - cbn [fst snd]. split; [assumption|]. split; [assumption|]. split.
    + intros i j Hij Hj [Hp|[_ []]]. now apply Hold.
    + auto.
  - intros done b rest [dist1 dir1] Hsplit (Hl1 & Hl2 & Hpairs & Hdiag).
    cbn [fst snd] in *.
    destruct (seq_split_in _ _ _ _ _ Hsplit) as (Hd & Hb & Hlt).
    assert (Hab : a < b) by lia. assert (HbN : b < N) by lia.
    destruct (xtod_pair_values a b dist1 dir1 Hab HbN Hl1 Hl2)
      as (dist2 & dir2 & -> & Hl1' & Hl2' & Hnew & Hfd & Hfr).
    exists (dist2, dir2). split; [reflexivity|]. cbn [fst snd].
    split; [lia|]. split; [lia|]. split.
    + intros i j Hij Hj Hcase.
      destruct (Nat.eq_dec i a) as [->|Hia];
        [destruct (Nat.eq_dec j b) as [->|Hjb]|].
      * exact Hnew.
      * apply (pair_entries_frame a j a b dist1 dir1); auto;
          [congruence|].
        apply Hpairs; auto.
        destruct Hcase as [Hp|[_ Hin]]; [now left|right].
        split; [reflexivity|]. apply in_app_iff in Hin.
        destruct Hin as [Hin|[Heq|[]]]; [assumption|congruence].
      * apply (pair_entries_frame i j a b dist1 dir1); auto;
          [congruence|].
        apply Hpairs; auto. destruct Hcase as [Hp|[Hi _]]; [now left|].
        contradiction.
    + intros i Hi. destruct (Hdiag i Hi) as [Hdd Hdr]. split.
      * rewrite Hfd; [assumption| |]; intros Heq; apply lex_inj in Heq; lia.
      * intros k Hk. rewrite Hfr; [now apply Hdr|].
        intros k' Hk'. split; intros Heq;
          apply direction_index_inj in Heq; lia.
  - cbn [fst snd] in *. exists dist', dir'. split; [exact Hrun|].
    split; [assumption|]. split; [assumption|]. split; [|assumption].
    intros i j Hij Hj [Hp| ->]; apply Hpairs; auto.
    right. split; [reflexivity|]. apply in_seq. lia.
Qed.

(** The whole of _xtod. *)
Lemma xtod_values (this : Layout.t) (dist dir : Float64Array) :
  Layout.numberOfNodes this = N -> Layout.dof this = D ->
  List.length dist = N * N -> List.length dir = N * N * D ->
  exists dist' dir',
    Layout._xtod this dist dir data = Ok (dist', dir')
    /\ List.length dist' = N * N /\ List.length dir' = N * N * D
    /\ (forall i j, i < j -> j < N -> pair_entries N D data dist' dir' i j)
    /\ (forall i, i < N ->
          f64_get dist' (i * N + i) = f64_get dist (i * N + i)
          /\ forall k, k < D ->
               f64_get dir' (idx i i k) = f64_get dir (idx i i k)).
Proof.
  intros HN HD Hld Hlr. unfold Layout._xtod. rewrite HN, HD.
  destruct (foldM_invariant
              (fun acc a =>
                 foldM (Layout.xtod_pair N D data a)
                   (seq (a + 1) (N - (a + 1))) acc)
              (fun done (acc : Float64Array * Float64Array) =>
                 List.length (fst acc) = N * N
                 /\ List.length (snd acc) = N * N * D
                 /\ (forall i j, i < j -> j < N -> In i done ->
                       pair_entries N D data (fst acc) (snd acc) i j)
                 /\ (forall i, i < N ->
                       f64_get (fst acc) (i * N + i) = f64_get dist (i * N + i)
                       /\ forall k, k < D ->
                            f64_get (snd acc) (idx i i k)
                            = f64_get dir (idx i i k)))
              (seq 0 N) (dist, dir))
    as ([dist' dir'] & Hrun & Hl1 & Hl2 & Hpairs & Hdiag).
  - cbn [fst snd]. split; [assumption|]. split; [assumption|].
    split; [intros i j _ _ []|auto].
  - intros done a rest [dist1 dir1] Hsplit (Hl1 & Hl2 & Hpairs & Hdiag).
    cbn [fst snd] in *.
    destruct (seq_split_in _ _ _ _ _ Hsplit) as (Hd & Ha & Hlt).
    cbn [Nat.add] in Ha, Hlt.
    destruct (xtod_row_values a dist1 dir1 (fun i _ => In i done))
      as (dist2 & dir2 & -> & Hl1' & Hl2' & Hp2 & Hd2); auto; try lia.
    { intros i _ Hin Heq. rewrite Hd in Hin. apply in_seq in Hin. lia. }
    exists (dist2, dir2). split; [reflexivity|]. cbn [fst snd].
    split; [assumption|]. split; [assumption|]. split.
    + intros i j Hij Hj Hin. apply Hp2; auto. apply in_app_iff in Hin.
      destruct Hin as [Hin|[Heq|[]]]; [now left | right; congruence].
    + intros i Hi. destruct (Hdiag i Hi) as [Hdd Hdr].
      destruct (Hd2 i Hi) as [Hdd2 Hdr2]. split; [congruence|].
      intros k Hk. rewrite Hdr2 by assumption. now apply Hdr.
  - cbn [fst snd] in *. exists dist', dir'. split; [exact Hrun|].
    split; [assumption|]. split; [assumption|]. split; [|assumption].
    intros i j Hij Hj. apply Hpairs; auto. apply in_seq. lia.
Qed.
End XtodTable.

(** X18.  When every node has a position row and the tables have the
    sizes N*N and N*N*dof, _xtod returns tables of the same sizes in
    which, for every pair i < j, both distance entries hold
    sqrt(_L2(data[i], data[j])), the direction entry (i, j, k) holds
    (data[i][k] - data[j][k]) / distance and the entry (j, i, k) its
    negation; the diagonal entries are never written. *)
Theorem xtod_fills_pairwise_tables (this : Layout.t)
    (dist dir : Float64Array) (data : Array (Array num)) :
  rows_present (Layout.numberOfNodes this) data ->
  List.length dist = Layout.numberOfNodes this * Layout.numberOfNodes this ->
  List.length dir
  = Layout.numberOfNodes this * Layout.numberOfNodes this * Layout.dof this ->
  exists dist' dir',
    Layout._xtod this dist dir data = Ok (dist', dir')
    /\ List.length dist' = List.length dist
    /\ List.length dir' = List.length dir
    /\ (forall i j, i < j -> j < Layout.numberOfNodes this ->
          pair_entries (Layout.numberOfNodes this) (Layout.dof this) data
            dist' dir' i j)
    /\ (forall i, i < Layout.numberOfNodes this ->
          f64_get dist' (i * Layout.numberOfNodes this + i)
          = f64_get dist (i * Layout.numberOfNodes this + i)
          /\ forall k, k < Layout.dof this ->
               f64_get dir'
                 (i * Layout.numberOfNodes this * Layout.dof this
                  + i * Layout.dof this + k)
               = f64_get dir
                   (i * Layout.numberOfNodes this * Layout.dof this
                    + i * Layout.dof this + k)).
Proof.
  intros Hrows Hld Hlr.
  destruct (xtod_values (Layout.numberOfNodes this) (Layout.dof this) data
              Hrows this dist dir eq_refl eq_refl Hld Hlr)
    as (dist' & dir' & Hrun & Hl1 & Hl2 & Hpairs & Hdiag).
  exists dist', dir'. split; [exact Hrun|].
  split; [congruence|]. split; [congruence|]. auto.
Qed.

Lemma xtod_fills_pairwise_tables_witness :
  exists dist' dir',
    Layout._xtod exCoincident (Layout.distance exCoincident)
      (Layout.direction exCoincident) (Layout.position exCoincident)
    = Ok (dist', dir')
    /\ List.length dist' = 4
    /\ List.length dir' = 8
    /\ pair_entries 2 2 (Layout.position exCoincident) dist' dir' 0 1.
Proof.
  destruct (xtod_fills_pairwise_tables exCoincident
              (Layout.distance exCoincident) (Layout.direction exCoincident)
              (Layout.position exCoincident) exCoincident_rows
              eq_refl eq_refl)
    as (dist' & dir' & Hrun & Hl1 & Hl2 & Hpairs & _).
  exists dist', dir'. split; [exact Hrun|].
  split; [exact Hl1|]. split; [exact Hl2|].
  apply (Hpairs 0 1); repeat constructor.
Defined.

(* ================================================================== *)
(** * Further properties: what a step leaves alone *)

Lemma same_constants_refl (this : Layout.t) : same_constants this this.
Proof. unfold same_constants. auto 20. Qed.

Lemma same_constants_trans (a b c : Layout.t) :
  same_constants a b -> same_constants b c -> same_constants a c.
Proof.
  unfold same_constants. intros H1 H2.
  repeat match goal with H : _ /\ _ |- _ => destruct H end.
  repeat split; congruence.
Qed.

Lemma calculateAcceleration_constants (this this' : Layout.t) :
  Layout._calculateAcceleration this = Ok this' ->
  same_constants this this' /\ Layout.position this' = Layout.position this.
Proof.
  unfold Layout._calculateAcceleration, Layout._processNodeInteractions.
  destruct (Layout._xtod this _ _ _) as [[dist dir]| |]; cbn [bind];
    try discriminate.
  destruct (fold_left _ _ _) as [ym acc]. cbn [bind]. intros [= <-].
  split; [|reflexivity]. unfold same_constants. cbn. auto 20.
Qed.

Lemma step_constants (this this' : Layout.t) :
  Layout.step this = Ok this' -> same_constants this this'.
Proof.
  unfold Layout.step.
  destruct (Layout._calculateAcceleration (Layout.anneal this))
    as [this1| |] eqn:E; cbn [bind]; try discriminate.
  destruct (foldM (Layout.integrate this1) _ _) as [pm| |]; cbn [bind];
    try discriminate.
  destruct (foldM (Layout.recentre this1 (snd pm)) _ _) as [p| |];
    cbn [bind]; try discriminate.
  intros [= <-].
  destruct (calculateAcceleration_constants _ _ E) as [Hc _].
  apply (same_constants_trans this (Layout.anneal this)).
  - unfold Layout.anneal, same_constants.
    destruct (_ && _); cbn; auto 20.
  - apply (same_constants_trans _ this1); [assumption|].
    unfold same_constants. cbn. auto 20.
Qed.

(** X19.  No number of steps changes the graph, the node count, the
    number of axes, the force constants, the damping, the balance length
    or the colour, size and mass of a node: a step writes positions,
    velocities, accelerations, the distance and direction tables, the
    axis sums, dt and the step counter only. *)
Theorem steps_keep_constants (n : nat) (this this' : Layout.t) :
  Layout.steps n this = Ok this' -> same_constants this this'.
Proof.
  revert this. induction n as [|n IH]; intros this; cbn [Layout.steps].
  - intros [= <-]. apply same_constants_refl.
  - destruct (Layout.step this) as [this1| |] eqn:E; cbn [bind];
      try discriminate.
    intros Hsteps. apply (same_constants_trans _ this1).
    + now apply step_constants.
    + now apply IH.
Qed.

Lemma steps_keep_constants_witness :
  exists this',
    Layout.steps 7 exSingle = Ok this'
    /\ Layout.mass this' = [Some (Fin (1 / 10))]
    /\ Layout.size this' = [Some (Fin (3 / 10))]
    /\ Layout.damping this' = Fin (95 / 100).
Proof.
  destruct (steps_run 7 exSingle (proj1 exSingle_finite))
    as (this' & Hsteps & _).
  exists this'. split; [exact Hsteps|].
  destruct (steps_keep_constants 7 exSingle this' Hsteps)
    as (_ & _ & _ & _ & _ & _ & _ & _ & _ & Hd & _ & _ & Hs & Hm & _).
  split; [exact Hm|]. split; [exact Hs | exact Hd].
Defined.

(* ================================================================== *)
(** * Further properties: the positions after a step *)

(** X20.  When every node has a position row and [ymean] has room for
    every axis, step() returns, and on every axis it subtracts one and
    the same amount from every node after moving it by its velocity: the
    new coordinate of node i is (position[i][d] + velocity[i*dof+d])
    minus ymean[d] / numberOfNodes, where the velocity is the one that
    _calculateAcceleration leaves and ymean[d] is the sum, taken over the
    nodes in index order from 0, of the moved coordinates. *)
Theorem step_shifts_every_node_equally (this : Layout.t) :
  rows_present (Layout.numberOfNodes this) (Layout.position this) ->
  Layout.dof this <= List.length (Layout.ymean this) ->
  exists this1 this',
    Layout._calculateAcceleration (Layout.anneal this) = Ok this1
    /\ Layout.step this = Ok this'
    /\ forall d, d < Layout.dof this ->
         exists shift,
           shift
           = num_div
               (fold_left
                  (fun s i =>
                     num_add s
                       (num_add (entry (Layout.position this) i d)
                          (f64_get (Layout.velocity this1)
                             (i * Layout.dof this + d))))
                  (seq 0 (Layout.numberOfNodes this)) (Fin 0))
               (Fin (INR (Layout.numberOfNodes this)))
           /\ forall i, i < Layout.numberOfNodes this ->
                entry (Layout.position this') i d
                = num_sub
                    (num_add (entry (Layout.position this) i d)
                       (f64_get (Layout.velocity this1)
                          (i * Layout.dof this + d)))
                    shift.
Proof.
  intros Hrows Hym.
  destruct (step_runs this Hrows Hym)
    as (this1 & this' & Hacc & Hrun & _ & _ & _ & _ & _ & Hentry).
  exists this1, this'. split; [exact Hacc|]. split; [exact Hrun|].
  intros d Hd. eexists. split; [reflexivity|].
  intros i Hi. now apply Hentry.
Qed.

Lemma exPair_rows :
  rows_present (Layout.numberOfNodes exPair) (Layout.position exPair).
Proof. intros [|[|i]] Hi; cbn in *; eauto; lia. Qed.

Lemma step_shifts_every_node_equally_witness :
  exists this1 this',
    Layout._calculateAcceleration (Layout.anneal exPair) = Ok this1
    /\ Layout.step exPair = Ok this'
    /\ forall d, d < 2 ->
         exists shift,
           entry (Layout.position this') 0 d
           = num_sub
               (num_add (entry (Layout.position exPair) 0 d)
                  (f64_get (Layout.velocity this1) (0 * 2 + d)))
               shift
           /\ entry (Layout.position this') 1 d
              = num_sub
                  (num_add (entry (Layout.position exPair) 1 d)
                     (f64_get (Layout.velocity this1) (1 * 2 + d)))
                  shift.
Proof.
  destruct (step_shifts_every_node_equally exPair exPair_rows)
    as (this1 & this' & Hacc & Hrun & Hshift).
  - cbn. lia.
  - exists this1, this'. split; [exact Hacc|]. split; [exact Hrun|].
    intros d Hd. destruct (Hshift d Hd) as (shift & _ & Hall).
    exists shift. split; apply Hall; cbn; lia.
Defined.
